(** * graph_travel: normalization, calibration, fusion and comparison

    A shallow embedding of [xiyou/normalize_adapter.py] and of [_jaccard]
    from [xiyou/compare_service.py], with the properties the specification
    states about them.

    Conventions of the embedding
    - A Python [str] is the list of its code points ([list N]).
    - A Python [dict] is an association list in insertion order; lookups take
      the first binding, and the dictionaries the code builds itself never
      hold a key twice.
    - A Python [set] of strings is a [gset].
    - Numbers (confidences, the Jaccard ratio) are rationals: every finite
      binary64 value is a rational, and comparison, negation and [max] are
      exact on them.  The quotient of [_jaccard] and the mean of the
      [average] policy are the exact rational values.
    - Python's [re] module and [str.format] are interfaces ([Regex],
      [StrFormat]) that the definitions using them take as a parameter. *)

From Stdlib Require Import QArith.
From stdpp Require Import base option list gmap sets strings sorting.

#[local] Set Warnings "-register-all".

Local Open Scope N_scope.
Local Open Scope nat_scope.

(** ** Python strings *)

Definition char := N.
Definition str := list char.

Module Lit.
(** String literals of the development are written as Rocq strings and
    decoded from UTF-8 to code points. *)

Definition step (st : list N * (N * nat)) (b : N) : list N * (N * nat) :=
  let '(out, (pending, need)) := st in
  match need with
  | O =>
      if (b <? 0x80)%N then (b :: out, (0%N, O))
      else if (b <? 0xE0)%N then (out, (N.land b 0x1F, 1))
      else if (b <? 0xF0)%N then (out, (N.land b 0x0F, 2))
      else (out, (N.land b 0x07, 3))
  | S k =>
      let v := (pending * 64 + N.land b 0x3F)%N in
      match k with
      | O => (v :: out, (0%N, O))
      | S _ => (out, (v, k))
      end
  end.

Definition decode (s : string) : str :=
  rev (fst (fold_left step
              (List.map Ascii.N_of_ascii (String.list_ascii_of_string s))
              ([], (0%N, O)))).
End Lit.

Notation "'py' s" := (Lit.decode s) (at level 1, s at level 0, only parsing).

(** [str.isspace] for one code point (CPython's [_PyUnicode_IsWhitespace]). *)
Definition is_space (c : char) : bool :=
  ((0x09 <=? c) && (c <=? 0x0D) || (0x1C <=? c) && (c <=? 0x20)
   || (c =? 0x85) || (c =? 0xA0) || (c =? 0x1680)
   || (0x2000 <=? c) && (c <=? 0x200A)
   || (c =? 0x2028) || (c =? 0x2029) || (c =? 0x202F) || (c =? 0x205F)
   || (c =? 0x3000))%N.

Fixpoint lstrip (s : str) : str :=
  match s with
  | [] => []
  | c :: s' => if is_space c then lstrip s' else s
  end.

Definition rstrip (s : str) : str := rev (lstrip (rev s)).

(** [s.strip()] *)
Definition strip (s : str) : str := lstrip (rstrip s).

(** [s.startswith(t)] *)
Fixpoint startswith (s t : str) {struct t} : bool :=
  match t, s with
  | [], _ => true
  | _ :: _, [] => false
  | b :: t', a :: s' => bool_decide (a = b) && startswith s' t'
  end.

(** [s.endswith(t)] *)
Definition endswith (s t : str) : bool := startswith (rev s) (rev t).

(** [s[k:]] for [k >= 0] *)
Definition slice_from (s : str) (k : nat) : str := drop k s.

(** [s[:-k]] for [k >= 0]; [-0] is [0], so [s[:-0]] is the empty string. *)
Definition slice_to_neg (s : str) (k : nat) : str :=
  match k with
  | O => []
  | S _ => take (length s - k) s
  end.

(** [t in s] for strings: substring containment. *)
Fixpoint contains (s t : str) : bool :=
  startswith s t ||
  match s with
  | [] => false
  | _ :: s' => contains s' t
  end.

(** [sep.join(parts)] *)
Fixpoint join (sep : str) (parts : list str) : str :=
  match parts with
  | [] => []
  | [p] => p
  | p :: rest => p ++ sep ++ join sep rest
  end.

(** Comparison of strings, [a < b]: code point by code point. *)
Fixpoint str_ltb (a b : str) : bool :=
  match a, b with
  | _, [] => false
  | [], _ :: _ => true
  | x :: a', y :: b' => (x <? y)%N || ((x =? y)%N && str_ltb a' b')
  end.

(** The part of [s] after the first occurrence of the character [c]:
    [s.split(c, 1)[1]], which raises IndexError ([None]) when [c] does not
    occur. *)
Fixpoint after_first (c : char) (s : str) : option str :=
  match s with
  | [] => None
  | a :: s' => if bool_decide (a = c) then Some s' else after_first c s'
  end.

(** The part of [s] before the first occurrence of [c]: [s.split(c, 1)[0]]. *)
Fixpoint before_first (c : char) (s : str) : str :=
  match s with
  | [] => []
  | a :: s' => if bool_decide (a = c) then [] else a :: before_first c s'
  end.

(** ** Python values *)

(** Values that the code only passes along or tests for truthiness
    (qualifiers, time, location, meta): JSON data. *)
Inductive json :=
| JNull
| JBool (b : bool)
| JNum (q : Q)
| JStr (s : str)
| JArr (l : list json)
| JObj (d : list (str * json)).

(** Truthiness, as used by [x or y]. *)
Definition truthy (v : json) : bool :=
  match v with
  | JNull => false
  | JBool b => b
  | JNum q => negb (Qeq_bool q 0)
  | JStr s => negb (bool_decide (s = []))
  | JArr l => negb (bool_decide (length l = 0))
  | JObj d => negb (bool_decide (length d = 0))
  end.

(** [x or y] on values *)
Definition json_or (x y : json) : json := if truthy x then x else y.

(** A field that holds a string or is missing / [None].  [x or y]: *)
Definition str_truthy (x : option str) : bool :=
  match x with
  | Some (_ :: _) => true
  | _ => false
  end.

Definition str_or (x y : option str) : option str :=
  if str_truthy x then x else y.

(** [str(x or "")] for a string-or-None field *)
Definition str_or_empty (x : option str) : str :=
  match x with
  | Some s => s
  | None => []
  end.

(** [str(x)] for a string-or-None field: [str(None)] is ["None"]. *)
Definition py_str (x : option str) : str :=
  match x with
  | Some s => s
  | None => py"None"
  end.

(** ** Dictionaries in insertion order *)

Section Dict.
Context {K V : Type} `{EqDecision K}.

Definition dict := list (K * V).

(** [d.get(k)] *)
Fixpoint dict_get (d : list (K * V)) (k : K) : option V :=
  match d with
  | [] => None
  | (k', v) :: d' => if decide (k' = k) then Some v else dict_get d' k
  end.

(** [k in d] *)
Definition dict_mem (d : list (K * V)) (k : K) : bool :=
  match dict_get d k with Some _ => true | None => false end.

(** [d[k] = v]: an existing key keeps its position. *)
Fixpoint dict_set (d : list (K * V)) (k : K) (v : V) : list (K * V) :=
  match d with
  | [] => [(k, v)]
  | (k', v') :: d' =>
      if decide (k' = k) then (k, v) :: d' else (k', v') :: dict_set d' k v
  end.

Definition dict_keys (d : list (K * V)) : list K := List.map fst d.
End Dict.

Arguments dict : clear implicits.

(** [d.setdefault(k, []).append(x)] *)
Definition dict_append {K V : Type} `{EqDecision K}
    (d : dict K (list V)) (k : K) (x : V) : dict K (list V) :=
  match dict_get d k with
  | Some l => dict_set d k (l ++ [x])
  | None => d ++ [(k, [x])]
  end.

(** ** Regular expressions

    The code uses [re.compile] and [Pattern.sub] of Python's standard
    library.  Both may raise; [None] stands for an exception. *)

Class Regex := {
  pattern : Type;
  re_compile : str -> option pattern;
  re_sub : pattern -> str -> str -> option str;   (* pat.sub(rep, n) *)
}.

(** ** Canonicalization and alias rules *)

Section Canonicalization.
Context `{Regex}.

(** The dictionary returned by [parse_alias_rules]. *)
Record alias_rules := {
  strip_tokens : list str;
  regex_rules : list (pattern * str);
}.

(** [s.split(c, 1)[1]] where the caller has checked that [s] starts with a
    prefix ending in [c], so that the index exists. *)
Definition split1_snd (c : char) (s : str) : str :=
  default [] (after_first c s).

Definition parse_alias_rule (acc : alias_rules) (s : str) : alias_rules :=
  let s := strip s in
  if startswith s (py"strip:") then
    let tok := strip (split1_snd 0x3A%N s) in
    if negb (bool_decide (tok = [])) then
      {| strip_tokens := strip_tokens acc ++ [tok];
         regex_rules := regex_rules acc |}
    else acc
  else if startswith s (py"regex:") then
    let expr := split1_snd 0x3A%N s in
    if contains expr (py"=") then
      let pat := before_first 0x3D%N expr in
      let rep := split1_snd 0x3D%N expr in
      match re_compile (strip pat) with
      | Some p =>
          {| strip_tokens := strip_tokens acc;
             regex_rules := regex_rules acc ++ [(p, rep)] |}
      | None => acc
      end
    else acc
  else acc.

Definition parse_alias_rules (rules : list str) : alias_rules :=
  fold_left parse_alias_rule rules
    {| strip_tokens := []; regex_rules := [] |}.

(** One pass of [for pat, rep in alias.get("regex_rules", [])]: a rule
    that raises leaves [n] as it is. *)
Definition apply_regex_rule (n : str) (rule : pattern * str) : str :=
  match re_sub (fst rule) (snd rule) n with
  | Some n' => n'
  | None => n
  end.

Definition canonical_original (name : option str) (alias : alias_rules)
    : str :=
  let n := strip (str_or_empty name) in
  let n := fold_left apply_regex_rule (regex_rules alias) n in
  strip n.

(** The body of [for tok in alias.get("strip_tokens", [])]. *)
Definition strip_token (n tok : str) : str :=
  let n := if startswith n tok then slice_from n (length tok) else n in
  if endswith n tok then slice_to_neg n (length tok) else n.

Definition canonical_norm (name : option str) (synonyms : dict str str)
    (alias : alias_rules) : str :=
  let n := strip (str_or_empty name) in
  let n := fold_left apply_regex_rule (regex_rules alias) n in
  let n := default n (dict_get synonyms n) in
  let n := fold_left strip_token (strip_tokens alias) n in
  strip n.
End Canonicalization.

(** ** Records of the data model

    The code works on dictionaries read from JSON.  The embedding gives each
    kind of dictionary a record.  A field that the code reads as a string
    is [option str], [None] standing for a missing key or [None]; a
    confidence is a number or missing; fields that are only passed along or
    tested for truthiness are [json] values, [JNull] standing for a missing
    key. *)

(** A relation as the extractor emits it. *)
Record raw_relation := {
  rr_head : option str;
  rr_subject : option str;
  rr_tail : option str;
  rr_object : option str;
  rr_type : option str;
  rr_relation : option str;
  rr_confidence : option Q;
  rr_evidence : option str;
  rr_qualifiers : json;
}.

(** A relation record: the output of normalization, and the input and the
    output of calibration and fusion. *)
Record relation_record := {
  r_head : option str;
  r_relation : option str;
  r_tail : option str;
  r_confidence : option Q;
  r_evidence : option str;
  r_qualifiers : json;
  r_chapter_id : option str;
}.

(** [nr = dict(r); nr["relation"] = rel] *)
Definition with_relation (r : relation_record) (rel : option str)
    : relation_record :=
  {| r_head := r_head r; r_relation := rel; r_tail := r_tail r;
     r_confidence := r_confidence r; r_evidence := r_evidence r;
     r_qualifiers := r_qualifiers r; r_chapter_id := r_chapter_id r |}.

(** One [{role, entity}] pair of an event. *)
Record participant := {
  p_role : option str;
  p_entity : option str;
}.

(** The [participants] of a raw event: missing, a list of pairs, or a
    mapping from role to names ([None] for a null list of names). *)
Inductive raw_participants :=
| PartsNone
| PartsList (l : list participant)
| PartsDict (d : dict str (option (list str))).

Record raw_event := {
  e_event_type : option str;
  e_type : option str;
  e_time : json;
  e_location : json;
  e_participants : raw_participants;
  e_evidence : json;
  e_confidence : json;
}.

Record event_record := {
  ev_event_type : str;
  ev_time : json;
  ev_location : json;
  ev_participants : dict str (list str);
  ev_evidence : json;
  ev_confidence : json;
}.

(** An element of the payload's [entities] list. *)
Record entity_hint := { hint_name : option str }.

(** An element [{"name": n}] of the output's [entities] list. *)
Record entity := { name : str }.

(** The raw payload when it is a dictionary.  [pl_relations] and
    [pl_relation_with_meta] are [None] when the key is missing, and hold the
    empty list for a null value ([obj.get(k) or []]); the event and entity
    lists are [None] when missing or null. *)
Record payload_dict := {
  pl_relations : option (list raw_relation);
  pl_relation_with_meta : option (list raw_relation);
  pl_events : option (list raw_event);
  pl_event_plus_relation : option (list raw_event);
  pl_entities : option (list entity_hint);
  pl_meta : json;
}.

Inductive payload :=
| PayloadDict (d : payload_dict)
| PayloadList (l : list raw_relation)
| PayloadOther.

Record normalized := {
  entities : list entity;
  relations : list relation_record;
  events : list event_record;
  meta : json;
}.

(** ** Relation and event normalization *)

Definition TYPE_ENUM : list str :=
  [py"Person"; py"Location"; py"Item"; py"Spell"; py"Organization"; py"Deity"].

Definition ALIAS : str := py"ALIAS".

Definition evidence_trigger_qualifiers : json :=
  JObj [(py"alias_source", JStr (py"evidence_trigger"))].

Definition synonyms_map_qualifiers : json :=
  JObj [(py"alias_source", JStr (py"synonyms_map"))].

Definition _relations_from_obj (obj : payload) : list raw_relation :=
  match obj with
  | PayloadDict d =>
      match pl_relations d with
      | Some l => l
      | None =>
          match pl_relation_with_meta d with
          | Some l => l
          | None => []
          end
      end
  | PayloadList l => l
  | PayloadOther => []
  end.

(** [r.get("head") or r.get("subject") or ""] *)
Definition raw_head (r : raw_relation) : option str :=
  str_or (str_or (rr_head r) (rr_subject r)) (Some []).

(** [r.get("tail") or r.get("object") or ""] *)
Definition raw_tail (r : raw_relation) : option str :=
  str_or (str_or (rr_tail r) (rr_object r)) (Some []).

(** [r.get("type") or r.get("relation") or ""] *)
Definition raw_type (r : raw_relation) : option str :=
  str_or (str_or (rr_type r) (rr_relation r)) (Some []).

(** [str(p.get("role") or "")] *)
Definition role_of (p : participant) : str :=
  str_or_empty (str_or (p_role p) (Some [])).

(** [raw.get("entities") if isinstance(raw, dict) else []] *)
Definition entities_hint_of (raw : payload) : option (list entity_hint) :=
  match raw with
  | PayloadDict d => pl_entities d
  | _ => Some []
  end.

Section Normalization.
Context `{Regex}.

(** The alias branch of the loop body of [normalize_relations]: the record
    built from the two raw endpoints. *)
Definition alias_item (r : raw_relation) (raw_head raw_tail : option str)
    (syn : dict str str) (alias : alias_rules) : relation_record :=
  let ah := canonical_original raw_head alias in
  let at_ := canonical_original raw_tail alias in
  let '(alias_side, canonical_side) :=
    if dict_mem syn at_ then (at_, dict_get syn at_)
    else if dict_mem syn ah then (ah, dict_get syn ah)
    else (at_, Some ah) in
  {| r_head := Some alias_side;
     r_relation := Some ALIAS;
     r_tail := Some (canonical_norm canonical_side syn alias);
     r_confidence := rr_confidence r;
     r_evidence := rr_evidence r;
     r_qualifiers := json_or (rr_qualifiers r) evidence_trigger_qualifiers;
     r_chapter_id := None |}.

(** The loop body of [normalize_relations]. *)
Definition normalize_relation (syn : dict str str) (alias : alias_rules)
    (alias_relations : list str)
    (out : list relation_record) (r : raw_relation) : list relation_record :=
  if negb (str_truthy (raw_head r)) || negb (str_truthy (raw_tail r))
     || negb (str_truthy (raw_type r)) then out
  else
    let rt := py_str (raw_type r) in
    if bool_decide (rt ∈ alias_relations) then
      out ++ [alias_item r (raw_head r) (raw_tail r) syn alias]
    else
      let h := canonical_norm (raw_head r) syn alias in
      let t := canonical_norm (raw_tail r) syn alias in
      if bool_decide (h ∈ TYPE_ENUM) || bool_decide (t ∈ TYPE_ENUM) then out
      else
        out ++ [{| r_head := Some h;
                   r_relation := Some (py_str (Some rt));
                   r_tail := Some t;
                   r_confidence := rr_confidence r;
                   r_evidence := rr_evidence r;
                   r_qualifiers := json_or (rr_qualifiers r) (JObj []);
                   r_chapter_id := None |}].

Definition normalize_relations (obj : payload) (syn : dict str str)
    (alias : alias_rules) (alias_relations : list str)
    : list relation_record :=
  fold_left (normalize_relation syn alias alias_relations)
    (_relations_from_obj obj) [].

(** [canonical_norm(str(p.get("entity") or ""), syn, alias)] *)
Definition entity_of (syn : dict str str) (alias : alias_rules)
    (p : participant) : str :=
  canonical_norm (Some (str_or_empty (str_or (p_entity p) (Some []))))
    syn alias.

(** The body of [for p in parts] when the participants are a list. *)
Definition add_participant (syn : dict str str) (alias : alias_rules)
    (d : dict str (list str)) (p : participant) : dict str (list str) :=
  let role := role_of p in
  let ent := entity_of syn alias p in
  if negb (bool_decide (role = [])) then dict_append d role ent else d.

(** The body of [for role, names in parts.items()]. *)
Definition add_role (syn : dict str str) (alias : alias_rules)
    (d : dict str (list str)) (kv : str * option (list str))
    : dict str (list str) :=
  dict_set d (fst kv)
    (List.map (fun x => canonical_norm (Some x) syn alias)
       (default [] (snd kv))).

Definition normalize_participants (syn : dict str str)
    (alias : alias_rules) (parts : raw_participants) : dict str (list str) :=
  match parts with
  | PartsList (p :: l) => fold_left (add_participant syn alias) (p :: l) []
  | PartsList [] => []
  | PartsNone => []
  | PartsDict d => fold_left (add_role syn alias) d []
  end.

Definition normalize_event (syn : dict str str) (alias : alias_rules)
    (out : list event_record) (e : raw_event) : list event_record :=
  let et :=
    str_or_empty (str_or (str_or (e_event_type e) (e_type e)) (Some [])) in
  out ++ [{| ev_event_type := et;
             ev_time := e_time e;
             ev_location := e_location e;
             ev_participants :=
               normalize_participants syn alias (e_participants e);
             ev_evidence := e_evidence e;
             ev_confidence := e_confidence e |}].

Definition events_of (obj : payload) : list raw_event :=
  match obj with
  | PayloadDict d =>
      match pl_events d with
      | Some (e :: l) => e :: l
      | _ => default [] (pl_event_plus_relation d)
      end
  | _ => []
  end.

Definition normalize_events (obj : payload) (syn : dict str str)
    (alias : alias_rules) : list event_record :=
  fold_left (normalize_event syn alias) (events_of obj) [].

(** [if n and n not in seen: seen.add(n); out.append({"name": n})] *)
Definition add_entity (st : gset str * list entity) (n : option str)
    : gset str * list entity :=
  match n with
  | Some (c :: n') =>
      if bool_decide ((c :: n') ∈ fst st) then st
      else ({[ c :: n' ]} ∪ fst st, snd st ++ [{| name := c :: n' |}])
  | _ => st
  end.

Definition collect_entities (relations : list relation_record)
    (entities_hint : list entity_hint) (syn : dict str str)
    (alias : alias_rules) : list entity :=
  let st :=
    fold_left (fun st r => add_entity (add_entity st (r_head r)) (r_tail r))
      relations (∅, []) in
  let st :=
    fold_left
      (fun st e =>
         add_entity st (Some (canonical_norm (hint_name e) syn alias)))
      entities_hint st in
  snd st.

Definition normalize_output (raw : payload) (tpl_id : str)
    (synonyms_map : dict str str) (alias_rules : list str)
    (alias_relations : list str) : normalized :=
  let alias := parse_alias_rules alias_rules in
  let relations := normalize_relations raw synonyms_map alias alias_relations in
  let entities_hint := entities_hint_of raw in
  let events := normalize_events raw synonyms_map alias in
  let entities :=
    collect_entities relations (default [] entities_hint) synonyms_map alias in
  let meta :=
    match raw with PayloadDict d => pl_meta d | _ => JObj [] end in
  let extra_alias :=
    fold_left
      (fun extra (ac : str * str) =>
         extra ++ [{| r_head := Some (fst ac);
                      r_relation := Some ALIAS;
                      r_tail := Some (snd ac);
                      r_confidence := Some (99 # 100);
                      r_evidence := None;
                      r_qualifiers := synonyms_map_qualifiers;
                      r_chapter_id := None |}])
      synonyms_map [] in
  {| entities := entities; relations := relations ++ extra_alias;
     events := events; meta := meta |}.
End Normalization.

(** ** Settings *)

(** An element of [settings["relations"]["patterns"]]; a missing or null
    keyword list is the empty list ([p.get("include") or []]). *)
Record cal_pattern := {
  pat_relation : option str;
  pat_include : list str;
  pat_exclude : list str;
}.

(** [settings["fusion"]]: every key is a string or missing. *)
Record fusion_settings := {
  group_by : option str;
  key_format : option str;
  evidence_merge : option str;
  confidence_merge : option str;
  chapter_strategy : option str;
}.

(** The parts of the settings that calibration and fusion read. *)
Record settings := {
  patterns : list cal_pattern;     (* settings["relations"]["patterns"] *)
  allowed : list str;              (* settings["relations"]["allowed"] *)
  precedence : list (option str);  (* settings["relations"]["precedence"] *)
  fusion : fusion_settings;
}.

(** ** Relation calibration *)

(** [inc and any(k in ev for k in inc) and not any(x in ev for x in exc)] *)
Definition pattern_matches (ev : str) (p : cal_pattern) : bool :=
  negb (bool_decide (pat_include p = []))
  && existsb (contains ev) (pat_include p)
  && negb (existsb (contains ev) (pat_exclude p)).

(** The body of [for p in patterns], on the pair [(out, added)]. *)
Definition calibrate_pattern (r : relation_record) (ev : str)
    (st : list relation_record * bool) (p : cal_pattern)
    : list relation_record * bool :=
  if pattern_matches ev p
  then (fst st ++ [with_relation r (pat_relation p)], true)
  else st.

(** [str(r.get("evidence") or "")] *)
Definition evidence_text (r : relation_record) : str :=
  str_or_empty (str_or (r_evidence r) (Some [])).

(** The body of [for r in relations]. *)
Definition calibrate_relation (pats : list cal_pattern)
    (out : list relation_record) (r : relation_record)
    : list relation_record :=
  let ev := evidence_text r in
  let st := fold_left (calibrate_pattern r ev) pats (out, false) in
  if negb (snd st) then fst st ++ [r] else fst st.

Definition calibrate_relations (relations : list relation_record)
    (settings : settings) : list relation_record :=
  let out := fold_left (calibrate_relation (patterns settings)) relations [] in
  if negb (bool_decide (allowed settings = [])) then
    List.filter
      (fun x => bool_decide (py_str (r_relation x) ∈ allowed settings)
                || bool_decide (allowed settings = []))
      out
  else out.

(** ** Relation fusion *)

(** [key_fmt.format(head=.., tail=.., relation=..)] of Python's standard
    library; [None] stands for an exception (a field the format string
    names but the call does not supply, or a malformed format string). *)
Class StrFormat := {
  str_format : str -> option str -> option str -> option str -> option str;
}.

Definition Qltb (a b : Q) : bool := negb (Qle_bool b a).

(** [x.get("confidence") or 0.0] *)
Definition confidence_or_zero (x : relation_record) : Q :=
  match r_confidence x with
  | Some q => if Qeq_bool q 0 then 0%Q else q
  | None => 0%Q
  end.

(** [precedence.index(rel) if rel in precedence else len(precedence)] *)
Fixpoint precedence_rank (precedence : list (option str)) (rel : option str)
    : nat :=
  match precedence with
  | [] => 0
  | p :: rest => if decide (p = rel) then 0 else S (precedence_rank rest rel)
  end.

(** [rel_rank]: the sort key [(pri, -conf)]. *)
Definition rel_rank (precedence : list (option str)) (x : relation_record)
    : nat * Q :=
  (precedence_rank precedence (r_relation x), (- confidence_or_zero x)%Q).

(** [k1 < k2] on the tuples returned by [rel_rank]. *)
Definition rank_ltb (k1 k2 : nat * Q) : bool :=
  if negb (Nat.eqb (fst k1) (fst k2)) then Nat.ltb (fst k1) (fst k2)
  else Qltb (snd k1) (snd k2).

Section Sorted.
Context {A : Type} (ltb : A -> A -> bool).

(** Insert [x], which preceded every element of [l] in the input, before
    the first element that is not smaller than it. *)
Fixpoint insert_sorted (x : A) (l : list A) : list A :=
  match l with
  | [] => [x]
  | y :: l' => if ltb y x then y :: insert_sorted x l' else x :: y :: l'
  end.

(** [sorted(l)]: a stable sort that compares with [<] only. *)
Fixpoint sorted (l : list A) : list A :=
  match l with
  | [] => []
  | x :: l' => insert_sorted x (sorted l')
  end.
End Sorted.

(** [max(l)] for a non-empty list, started from its first element: a later
    element replaces the current one only when it is greater. *)
Definition py_max (first : Q) (rest : list Q) : Q :=
  fold_left (fun best x => if Qltb best x then x else best) rest first.

(** [sum(l)] *)
Definition py_sum (l : list Q) : Q := fold_left Qplus l 0%Q.

(** [[it.get("chapter_id") for it in items if it.get("chapter_id")]] *)
Definition chapters_of (items : list relation_record) : list str :=
  omap (fun it => if str_truthy (r_chapter_id it) then r_chapter_id it
                  else None) items.

Section Fusion.
Context `{StrFormat}.

(** The grouping key of one record. *)
Definition group_key (fusion : fusion_settings) (r : relation_record)
    : option str :=
  if bool_decide (default (py"head_tail") (group_by fusion) = py"head_tail")
  then Some (py_str (r_head r) ++ py"|" ++ py_str (r_tail r))
  else
    str_format (default (py"{head}|{tail}|{relation}") (key_format fusion))
      (r_head r) (r_tail r) (r_relation r).

(** The first loop of [fuse_relations]:
    [groups.setdefault(k, []).append(r)]. *)
Definition group_relations (fusion : fusion_settings)
    (relations : list relation_record)
    : option (dict str (list relation_record)) :=
  fold_left
    (fun groups r =>
       groups ← groups;
       k ← group_key fusion r;
       Some (dict_append groups k r))
    relations (Some []).

(** The evidence loop: the set of the evidence strings of the group. *)
Definition evidence_set (evidence_merge : str) (items : list relation_record)
    : gset str :=
  fold_left
    (fun (ev_set : gset str) it =>
       match r_evidence it with
       | Some ev =>
           if bool_decide (evidence_merge = py"union")
           then {[ ev ]} ∪ ev_set else ev_set
       | None => ev_set
       end)
    items ∅.

(** The body of [for k, items in groups.items()]; [None] when [items] is
    empty ([sorted(items)[0]] raises IndexError), which no group is. *)
Definition fuse_group (settings : settings) (items : list relation_record)
    : option relation_record :=
  let fusion := fusion settings in
  let evidence_merge := default (py"union") (evidence_merge fusion) in
  let confidence_merge := default (py"max") (confidence_merge fusion) in
  let chapter_strategy := default (py"first") (chapter_strategy fusion) in
  match sorted (fun x y => rank_ltb (rel_rank (precedence settings) x)
                                    (rel_rank (precedence settings) y))
               items with
  | [] => None
  | winner :: _ =>
      let ev_set := evidence_set evidence_merge items in
      let evidence := join (py" | ") (sorted str_ltb (elements ev_set)) in
      let confidences := List.map confidence_or_zero items in
      confidence ←
        (if bool_decide (confidence_merge = py"max") then
           match confidences with
           | [] => None
           | c :: cs => Some (py_max c cs)
           end
         else
           match confidences with
           | [] => Some 0%Q
           | _ :: _ =>
               Some (py_sum confidences
                     / inject_Z (Z.of_nat (length confidences)))%Q
           end);
      let chapters := chapters_of items in
      let chapter_id :=
        match chapters with
        | c :: _ =>
            if bool_decide (chapter_strategy = py"first") then Some c
            else None
        | [] => None
        end in
      Some {| r_head := r_head winner;
              r_tail := r_tail winner;
              r_relation := r_relation winner;
              r_confidence := Some confidence;
              r_evidence := Some evidence;
              r_qualifiers :=
                JObj [(py"chapters", JArr (List.map JStr chapters))];
              r_chapter_id := chapter_id |}
  end.

Definition fuse_relations (relations : list relation_record)
    (settings : settings) : option (list relation_record) :=
  groups ← group_relations (fusion settings) relations;
  mapM (fun kv => fuse_group settings (snd kv)) groups.
End Fusion.

(** [qualifiers["chapters"]] of a fused record. *)
Definition qualifier_chapters (r : relation_record) : option (list json) :=
  match r_qualifiers r with
  | JObj [(k, JArr l)] => if decide (k = py"chapters") then Some l else None
  | _ => None
  end.

(** ** Jaccard similarity of two key sets *)

Definition _jaccard (a b : gset str) : Q :=
  if bool_decide (a = ∅) && bool_decide (b = ∅) then 1%Q
  else
    let u := size (a ∪ b) in
    let i := size (a ∩ b) in
    if negb (Nat.eqb u 0)
    then (inject_Z (Z.of_nat i) / inject_Z (Z.of_nat u))%Q
    else 0%Q.

(** ** Predicates and instances used to state the properties *)

(** The synthetic ALIAS record of one entry of the synonym table, as the
    code builds it. *)
Definition synonym_alias_record (ac : str * str) : relation_record :=
  {| r_head := Some (fst ac);
     r_relation := Some ALIAS;
     r_tail := Some (snd ac);
     r_confidence := Some (99 # 100);
     r_evidence := None;
     r_qualifiers := synonyms_map_qualifiers;
     r_chapter_id := None |}.

(** A regex engine that is enough to run the code on examples: a pattern
    [p] stands for the expression that matches exactly the whole string
    [p], so substitution replaces [n] by [rep] when [n] is [p]. *)
Definition whole_match_regex : Regex :=
  {| pattern := str;
     re_compile := fun p => Some p;
     re_sub := fun p rep n => Some (if bool_decide (n = p) then rep else n) |}.


(** [t] occurs in [s] as a contiguous substring. *)
Definition is_substring (t s : str) : Prop :=
  exists a b : str, s = a ++ t ++ b.

(** The patterns that match the evidence of [r], in configured order. *)
Definition matching_patterns (pats : list cal_pattern) (r : relation_record)
    : list cal_pattern :=
  List.filter (pattern_matches (evidence_text r)) pats.

(** Calibration of one relation as the specification words it: one copy
    per matching pattern, relabelled; the record itself when none matches. *)
Definition fan_out (pats : list cal_pattern) (r : relation_record)
    : list relation_record :=
  match matching_patterns pats r with
  | [] => [r]
  | ms => List.map (fun p => with_relation r (pat_relation p)) ms
  end.

(** The meaning of the default key format [{head}|{tail}|{relation}], as an
    instance of [str.format] to run the code on examples. *)
Definition default_key_format : StrFormat :=
  {| str_format := fun _ h t r =>
       Some (py_str h ++ py"|" ++ py_str t ++ py"|" ++ py_str r) |}.

Definition str_lt (a b : str) : Prop := str_ltb a b = true.

(** [x] is not greater than [y], for an order given by its [<]. *)
Definition not_gt {A : Type} (ltb : A -> A -> bool) (x y : A) : Prop :=
  ltb y x = false.

(** [ev] is the [" | "]-joined, sorted list of the distinct evidence strings
    of [items] that satisfy [keep]. *)
Definition sorted_join_of (keep : str -> Prop) (items : list relation_record)
    (ev : str) : Prop :=
  exists l : list str,
    ev = join (py" | ") l
    /\ StronglySorted str_lt l
    /\ forall s, s ∈ l <->
                 keep s /\ exists it, it ∈ items /\ r_evidence it = Some s.

(** The records of [relations] whose grouping key is [k], in input order. *)
Definition items_of_key `{StrFormat} (fusion : fusion_settings)
    (relations : list relation_record) (k : str) : list relation_record :=
  List.filter (fun r => bool_decide (group_key fusion r = Some k)) relations.

(** [c] is the chapter id of the first record of [items] that has one. *)
Definition first_chapter (items : list relation_record) (c : str) : Prop :=
  exists pre it post,
    items = pre ++ it :: post
    /\ Forall (fun x => str_truthy (r_chapter_id x) = false) pre
    /\ r_chapter_id it = Some c /\ c <> [].

(** The canonical names of the pairs of [l] whose role is [role], in the
    order of [l]. *)
Definition names_of_role `{Regex} (syn : dict str str) (alias : alias_rules)
    (l : list participant) (role : str) : list str :=
  List.map (entity_of syn alias)
    (List.filter (fun p => bool_decide (role_of p = role)) l).

(** The pair has a role: it is neither missing nor empty. *)
Definition has_role (p : participant) : bool :=
  negb (bool_decide (role_of p = [])).

(** ** Sample data for the examples *)

Module Sample.
Definition st : settings :=
  {| patterns := []; allowed := []; precedence := [Some (py"师徒")];
     fusion := {| group_by := None; key_format := None;
                  evidence_merge := None; confidence_merge := None;
                  chapter_strategy := None |} |}.

Definition mk (h rel t : string) (conf : option Q) (ev ch : option str)
    : relation_record :=
  {| r_head := Some (Lit.decode h); r_relation := Some (Lit.decode rel);
     r_tail := Some (Lit.decode t); r_confidence := conf;
     r_evidence := ev; r_qualifiers := JObj []; r_chapter_id := ch |}.

Definition r1 : relation_record :=
  mk "悟空" "师徒" "唐僧" (Some (9 # 10)) (Some (py"师父"))
    (Some (py"001")).
Definition r2 : relation_record :=
  mk "悟空" "敌对" "唐僧" None (Some []) None.
Definition r3 : relation_record :=
  mk "悟空" "师徒" "唐僧" (Some (8 # 10)) (Some (py"师父"))
    (Some (py"002")).
Definition r4 : relation_record :=
  mk "八戒" "师徒" "唐僧" (Some (7 # 10)) None (Some (py"001")).
Definition r5 : relation_record :=
  mk "悟空" "敌对" "唐僧" (Some (95 # 100)) (Some (py"不识好歹"))
    (Some (py"002")).

Definition rels : list relation_record := [r1; r2; r4; r3; r5].

Definition groups : dict str (list relation_record) :=
  [(py"悟空|唐僧", [r1; r2; r3; r5]); (py"八戒|唐僧", [r4])].
End Sample.

(** ** Further notions used to state properties of the normalization *)

(** The alias rules that keep no rule at all. *)
Definition no_alias_rules `{Regex} : alias_rules :=
  {| strip_tokens := []; regex_rules := [] |}.

(** The record that the non-alias branch of [normalize_relations] builds. *)
Definition plain_item `{Regex} (r : raw_relation) (syn : dict str str)
    (alias : alias_rules) : relation_record :=
  {| r_head := Some (canonical_norm (raw_head r) syn alias);
     r_relation := Some (py_str (raw_type r));
     r_tail := Some (canonical_norm (raw_tail r) syn alias);
     r_confidence := rr_confidence r;
     r_evidence := rr_evidence r;
     r_qualifiers := json_or (rr_qualifiers r) (JObj []);
     r_chapter_id := None |}.

(** A raw relation is skipped by [normalize_relations]: an endpoint or the
    label is empty, or it is not an alias relation and one of its canonical
    endpoints is a reserved type token. *)
Definition skipped `{Regex} (syn : dict str str) (alias : alias_rules)
    (labels : list str) (r : raw_relation) : bool :=
  negb (str_truthy (raw_head r)) || negb (str_truthy (raw_tail r))
  || negb (str_truthy (raw_type r))
  || (negb (bool_decide (py_str (raw_type r) ∈ labels))
      && (bool_decide (canonical_norm (raw_head r) syn alias ∈ TYPE_ENUM)
          || bool_decide (canonical_norm (raw_tail r) syn alias ∈ TYPE_ENUM))).

(** The event that [normalize_events] builds from one raw event. *)
Definition event_of `{Regex} (syn : dict str str) (alias : alias_rules)
    (e : raw_event) : event_record :=
  {| ev_event_type :=
       str_or_empty (str_or (str_or (e_event_type e) (e_type e)) (Some []));
     ev_time := e_time e;
     ev_location := e_location e;
     ev_participants := normalize_participants syn alias (e_participants e);
     ev_evidence := e_evidence e;
     ev_confidence := e_confidence e |}.

(** The events of a payload, by its keys: the list under [events] when it
    is not empty; otherwise, when [events] is missing, null or empty, the
    list under [event_plus_relation], or none when that is missing or
    null.  A payload that is not a dictionary has none. *)
Definition payload_events (obj : payload) (evs : list raw_event) : Prop :=
  match obj with
  | PayloadDict pd =>
      (pl_events pd = Some evs /\ evs <> [])
      \/ ((pl_events pd = None \/ pl_events pd = Some [])
          /\ (pl_event_plus_relation pd = Some evs
              \/ (pl_event_plus_relation pd = None /\ evs = [])))
  | _ => evs = []
  end.

(** [ev] is the normalized form of the raw event [e]: the event type is
    [event_type] if that is a non-empty string, else [type] if that is one,
    else the empty string; the other fields are passed through, and the
    participants are normalized. *)
Definition normalized_event `{Regex} (syn : dict str str)
    (alias : alias_rules) (e : raw_event) (ev : event_record) : Prop :=
  ev_event_type ev
  = match e_event_type e, e_type e with
    | Some (c :: s), _ => c :: s
    | _, Some (c :: s) => c :: s
    | _, _ => []
    end
  /\ ev_time ev = e_time e
  /\ ev_location ev = e_location e
  /\ ev_participants ev = normalize_participants syn alias (e_participants e)
  /\ ev_evidence ev = e_evidence e
  /\ ev_confidence ev = e_confidence e.

(** What the loops of [collect_entities] maintain on the pair of the set
    [seen] and the list [out]: the set holds the names of the list, no name
    occurs twice, and no name is empty. *)
Definition entities_inv (st : gset str * list entity) : Prop :=
  (forall n, n ∈ fst st <-> {| name := n |} ∈ snd st)
  /\ NoDup (snd st)
  /\ forall e, e ∈ snd st -> name e <> [].

(** [n] is a non-empty endpoint of one of the relations or the non-empty
    canonical name of a hinted entity. *)
Definition entity_source `{Regex} (rels : list relation_record)
    (hints : list entity_hint) (syn : dict str str) (alias : alias_rules)
    (n : str) : Prop :=
  n <> []
  /\ ((exists r, r ∈ rels /\ (r_head r = Some n \/ r_tail r = Some n))
      \/ (exists h, h ∈ hints /\ canonical_norm (hint_name h) syn alias = n)).

(** ** Notions used to state properties of the fusion *)



(** The key of the default grouping. *)
Definition head_tail_key (r : relation_record) : str :=
  py_str (r_head r) ++ py"|" ++ py_str (r_tail r).

(** The distinct elements of a list, in the order of their first
    occurrence. *)
Fixpoint first_occurrences (l : list str) : list str :=
  match l with
  | [] => []
  | x :: l' =>
      x :: List.filter (fun y => negb (bool_decide (y = x)))
             (first_occurrences l')
  end.

(** ** compare_service.py: configuration of the templates *)

(** An element of [settings["prompts"]["templates"]], with the two
    variables that the comparison reads: [variables.synonyms_map] (the empty
    dictionary when missing or null) and [variables.alias_rules] (the empty
    list when missing or null; its elements are any JSON values). *)
Record template := {
  tpl_id : option str;
  tpl_synonyms_map : dict str str;
  tpl_alias_rules : list json;
}.

(** [t.get("id") in tpl_ids] *)
Definition template_selected (tpl_ids : list str) (t : template) : bool :=
  match tpl_id t with
  | Some i => bool_decide (i ∈ tpl_ids)
  | None => false
  end.

(** [_merge_synonyms], on the list [settings["prompts"]["templates"]]. *)
Definition _merge_synonyms (templates : list template) (tpl_ids : list str)
    : dict str str :=
  fold_left
    (fun m t =>
       if template_selected tpl_ids t then
         fold_left (fun m kv => dict_set m (fst kv) (snd kv))
           (tpl_synonyms_map t) m
       else m)
    templates [].

Section CompareCanonical.
Context `{Regex}.

(** The body of [for r in rules] in [_collect_alias_rules]. *)
Definition collect_alias_rule (acc : alias_rules) (r : json) : alias_rules :=
  match r with
  | JStr r =>
      let s := strip r in
      if startswith s (py"strip:") then
        let tok := strip (split1_snd 0x3A%N s) in
        if negb (bool_decide (tok = [])) then
          {| strip_tokens := strip_tokens acc ++ [tok];
             regex_rules := regex_rules acc |}
        else acc
      else if startswith s (py"regex:") then
        let expr := split1_snd 0x3A%N s in
        if contains expr (py"=") then
          let pat := before_first 0x3D%N expr in
          let rep := split1_snd 0x3D%N expr in
          match re_compile (strip pat) with
          | Some p =>
              {| strip_tokens := strip_tokens acc;
                 regex_rules := regex_rules acc ++ [(p, rep)] |}
          | None => acc
          end
        else acc
      else acc
  | _ => acc
  end.

(** [_collect_alias_rules], on the list [settings["prompts"]["templates"]]. *)
Definition _collect_alias_rules (templates : list template)
    (tpl_ids : list str) : alias_rules :=
  fold_left
    (fun acc t =>
       if template_selected tpl_ids t then
         fold_left collect_alias_rule (tpl_alias_rules t) acc
       else acc)
    templates {| strip_tokens := []; regex_rules := [] |}.

(** [_canonical]: [name] is a string ([name.strip()] is called on it). *)
Definition _canonical (name : str) (syn : dict str str) (alias : alias_rules)
    : str :=
  let n := strip name in
  let n := fold_left apply_regex_rule (regex_rules alias) n in
  let n := default n (dict_get syn n) in
  let n := fold_left strip_token (strip_tokens alias) n in
  strip n.
End CompareCanonical.

(** The rules of the selected templates that are strings, in order. *)
Definition selected_rules (templates : list template) (tpl_ids : list str)
    : list str :=
  flat_map
    (fun t =>
       if template_selected tpl_ids t then
         omap (fun r => match r with JStr s => Some s | _ => None end)
           (tpl_alias_rules t)
       else [])
    templates.

(** The synonym entries of the selected templates, in order. *)
Definition selected_synonyms (templates : list template)
    (tpl_ids : list str) : list (str * str) :=
  flat_map
    (fun t => if template_selected tpl_ids t then tpl_synonyms_map t else [])
    templates.

(** The value of the last entry for [k] in a list of entries. *)
Definition last_binding (entries : list (str * str)) (k : str) : option str :=
  fold_left
    (fun acc kv => if decide (fst kv = k) then Some (snd kv) else acc)
    entries None.

(** ** compare_service.py: relation and event keys *)

(** A field read with [str(r.get(k, ""))]: the key is missing ([None]), or
    holds null ([Some None]) or a string. *)
Definition str_get (f : option (option str)) : str :=
  match f with
  | None => []
  | Some v => py_str v
  end.

(** A relation of a persisted result, as [_parse_relations] reads it. *)
Record cmp_raw_relation := {
  cr_head : option (option str);
  cr_head_type : option (option str);
  cr_relation : option (option str);
  cr_tail : option (option str);
  cr_tail_type : option (option str);
  cr_confidence : option Q;
  cr_qualifiers : json;
  cr_evidence : json;
}.

(** An event of a persisted result, as [_parse_events] reads it. *)
Record cmp_raw_event := {
  ce_event_type : option (option str);
  ce_participants : raw_participants;
  ce_evidence : json;
  ce_confidence : option Q;
}.

(** The data read from a result file: a list of relations, a dictionary,
    or another JSON value.  The keys [relations] and [events] of a
    dictionary are missing ([None]), hold null ([Some None]) or hold a list
    of records. *)
Inductive cmp_data :=
| CmpList (l : list cmp_raw_relation)
| CmpDict (rels : option (option (list cmp_raw_relation)))
          (evs : option (option (list cmp_raw_event)))
| CmpOther.

(** [data.get(k, [])] as the sequence of a [for] loop: the default for a
    missing key, and [None] for null, on which the loop raises TypeError. *)
Definition get_seq {A : Type} (f : option (option (list A)))
    : option (list A) :=
  match f with
  | None => Some []
  | Some None => None
  | Some (Some l) => Some l
  end.

Record cmp_relation := {
  ci_head : str;
  ci_head_type : str;
  ci_relation : str;
  ci_tail : str;
  ci_tail_type : str;
  ci_confidence : option Q;
  ci_qualifiers : json;
  ci_evidence : json;
}.

Record cmp_event := {
  cv_event_type : str;
  cv_participants : dict str (list str);
  cv_evidence : json;
  cv_confidence : option Q;
}.

(** [conf is not None and conf < confidence_min] *)
Definition below_min (conf : option Q) (confidence_min : Q) : bool :=
  match conf with
  | Some c => Qltb c confidence_min
  | None => false
  end.

(** The key of a relation item. *)
Definition relation_key (x : cmp_relation) : str :=
  join (py"|")
    [ci_head x; ci_head_type x; ci_relation x; ci_tail x; ci_tail_type x].

Section CompareParse.
Context `{Regex}.

(** The fields that [_parse_relations] computes before the confidence
    test. *)
Definition relation_item (syn : dict str str) (alias : alias_rules)
    (r : cmp_raw_relation) : cmp_relation :=
  {| ci_head := _canonical (str_get (cr_head r)) syn alias;
     ci_head_type := str_get (cr_head_type r);
     ci_relation := str_get (cr_relation r);
     ci_tail := _canonical (str_get (cr_tail r)) syn alias;
     ci_tail_type := str_get (cr_tail_type r);
     ci_confidence := cr_confidence r;
     ci_qualifiers := json_or (cr_qualifiers r) (JObj []);
     ci_evidence := cr_evidence r |}.

(** The body of [for r in seq] in [_parse_relations], on the triple
    [(items, keys, by_type)]. *)
Definition parse_relation (syn : dict str str) (alias : alias_rules)
    (confidence_min : Q)
    (st : list cmp_relation * gset str * dict str nat)
    (r : cmp_raw_relation) : list cmp_relation * gset str * dict str nat :=
  let '(items, keys, by_type) := st in
  let item := relation_item syn alias r in
  if below_min (cr_confidence r) confidence_min then st
  else
    (items ++ [item],
     {[ relation_key item ]} ∪ keys,
     dict_set by_type (ci_relation item)
       (default 0 (dict_get by_type (ci_relation item)) + 1)).

Definition relations_seq (data : cmp_data)
    : option (list cmp_raw_relation) :=
  match data with
  | CmpList l => Some l
  | CmpDict rels _ => get_seq rels
  | CmpOther => Some []
  end.

(** [None] when [for r in seq] raises. *)
Definition _parse_relations (data : cmp_data) (syn : dict str str)
    (alias : alias_rules) (confidence_min : Q)
    : option (list cmp_relation * gset str * dict str nat) :=
  seq ← relations_seq data;
  Some (fold_left (parse_relation syn alias confidence_min) seq ([], ∅, [])).

(** [norm_parts] of one event: [None] when the participants are a non-empty
    list, on which [parts.items()] raises AttributeError. *)
Definition event_parts (syn : dict str str) (alias : alias_rules)
    (parts : raw_participants) : option (dict str (list str)) :=
  match parts with
  | PartsNone => Some []
  | PartsList [] => Some []
  | PartsList (_ :: _) => None
  | PartsDict d =>
      Some (fold_left
              (fun norm_parts kv =>
                 dict_set norm_parts (fst kv)
                   (List.map (fun x => _canonical x syn alias)
                      (default [] (snd kv))))
              d [])
  end.

(** The key of an event from its type and normalized participants. *)
Definition event_key (et : str) (norm_parts : dict str (list str)) : str :=
  let role_sets :=
    join (py",")
      (List.map
         (fun role =>
            role ++ py":"
            ++ join (py",") (default [] (dict_get norm_parts role)))
         (sorted str_ltb (dict_keys norm_parts))) in
  join (py"|") [et; role_sets].

(** The body of [for e in seq] in [_parse_events]. *)
Definition parse_event (syn : dict str str) (alias : alias_rules)
    (confidence_min : Q)
    (st : option (list cmp_event * gset str)) (e : cmp_raw_event)
    : option (list cmp_event * gset str) :=
  st ← st;
  let et := str_get (ce_event_type e) in
  norm_parts ← event_parts syn alias (ce_participants e);
  if below_min (ce_confidence e) confidence_min then Some st
  else
    Some (fst st ++ [{| cv_event_type := et;
                        cv_participants := norm_parts;
                        cv_evidence := ce_evidence e;
                        cv_confidence := ce_confidence e |}],
          {[ event_key et norm_parts ]} ∪ snd st).

Definition events_seq (data : cmp_data) : option (list cmp_raw_event) :=
  match data with
  | CmpDict _ evs => get_seq evs
  | _ => Some []
  end.

(** [None] when [for e in seq] or [parts.items()] raises. *)
Definition _parse_events (data : cmp_data) (syn : dict str str)
    (alias : alias_rules) (confidence_min : Q)
    : option (list cmp_event * gset str) :=
  seq ← events_seq data;
  fold_left (parse_event syn alias confidence_min) seq (Some ([], ∅)).
End CompareParse.

(** The number of elements of [l] that satisfy [p]. *)
Definition count_of {A : Type} (p : A -> bool) (l : list A) : nat :=
  length (List.filter p l).

(** The raw relations that pass the confidence filter, in order. *)
Definition kept_relations (confidence_min : Q) (seq : list cmp_raw_relation)
    : list cmp_raw_relation :=
  List.filter (fun r => negb (below_min (cr_confidence r) confidence_min)) seq.

(** The participants of the event are a non-empty list of pairs. *)
Definition list_participants (e : cmp_raw_event) : bool :=
  match ce_participants e with
  | PartsList (_ :: _) => true
  | _ => false
  end.

(** ** compare_service.py: the metrics of [compare_chapter]

    [compare_chapter] is modelled from the loop over the requested
    templates to the metrics, diffs and samples.  Loading the settings and
    searching and reading the result files are inputs: [syn] and [alias] are
    the merged synonyms and alias rules, and [data_of tpl] is the value of
    [data] after the search for template [tpl] ([None] when no candidate
    file gave data, so that [data or []] and [data or {}] apply).  The
    [meta] block of the report (book, time stamp, filters) is formatting of
    the query and the clock and is not part of the model. *)

Record compare_state := {
  rel_counts : dict str nat;
  evt_counts : dict str nat;
  rel_sets : dict str (gset str);
  evt_sets : dict str (gset str);
  by_rel_type_all : dict str (dict str nat);
}.

Record compare_metrics := {
  relations_count_by_template : dict str nat;
  events_count_by_template : dict str nat;
  relations_union_count : nat;
  relations_intersection_count : nat;
  relations_jaccard : Q;
  events_union_count : nat;
  events_intersection_count : nat;
  events_jaccard : Q;
  by_relation_type : dict str (dict str nat);
}.

Record compare_diffs := {
  relations_unique : dict str (list str);
  relations_intersection : list str;
  events_unique : dict str (list str);
  events_intersection : list str;
}.

Record compare_report := {
  metrics : compare_metrics;
  diffs : compare_diffs;
  samples_relations : list str;
  samples_events : list str;
}.

(** [d.values()] *)
Definition dict_values {K V : Type} (d : dict K V) : list V := List.map snd d.

(** The union of all values of [sets]; the empty set for an empty
    dictionary. *)
Definition union_all (sets : dict str (gset str)) : gset str :=
  fold_left (fun acc s => acc ∪ s) (dict_values sets) ∅.

(** The intersection of all values of [sets] when it has more than one
    key; the empty set otherwise. *)
Definition inter_all (sets : dict str (gset str)) : gset str :=
  match dict_values sets with
  | s :: (_ :: _) as rest => fold_left (fun acc x => acc ∩ x) rest s
  | _ => ∅
  end.

(** The Jaccard value that [compare_chapter] reports: computed for exactly
    two requested templates, [0.0] otherwise.  [None] for a KeyError. *)
Definition jaccard_of (sets : dict str (gset str)) (tpl_ids : list str)
    : option Q :=
  match tpl_ids with
  | [t0; t1] =>
      a ← dict_get sets t0;
      b ← dict_get sets t1;
      Some (_jaccard a b)
  | _ => Some 0%Q
  end.

(** [for tpl in tpl_ids: diffs[tpl] = list(sets[tpl] - inter)] *)
Definition unique_diffs (sets : dict str (gset str)) (inter : gset str)
    (tpl_ids : list str) : option (dict str (list str)) :=
  fold_left
    (fun d tpl =>
       d ← d;
       s ← dict_get sets tpl;
       Some (dict_set d tpl (elements (s ∖ inter))))
    tpl_ids (Some []).

(** [[by_rel_type_all[tpl].get(t, 0) for tpl in tpl_ids]] *)
Definition type_counts (all : dict str (dict str nat)) (tpl_ids : list str)
    (t : str) : option (list nat) :=
  mapM (fun tpl => by_type ← dict_get all tpl;
                   Some (default 0 (dict_get by_type t))) tpl_ids.

(** [sum(l)] and [min(l)] on counts; [min] of the empty list is not
    called. *)
Definition sum_counts (l : list nat) : nat := fold_left Nat.add l 0.

Definition min_counts (first : nat) (rest : list nat) : nat :=
  fold_left (fun best x => if Nat.ltb x best then x else best) rest first.

(** The row of one relation type in [by_relation_type]. *)
Definition type_row (all : dict str (dict str nat)) (tpl_ids : list str)
    (t : str) : option (dict str nat) :=
  counts ← type_counts all tpl_ids t;
  let row :=
    fold_left (fun row kv => dict_set row (fst kv) (snd kv))
      (zip tpl_ids counts) [] in
  let row := dict_set row (py"union") (sum_counts counts) in
  Some (dict_set row (py"intersection")
          match counts with
          | c :: cs => min_counts c cs
          | [] => 0
          end).

(** [types |= set(by_rel_type_all[tpl].keys())] for every template. *)
Definition relation_types (all : dict str (dict str nat))
    (tpl_ids : list str) : option (gset str) :=
  fold_left
    (fun types tpl =>
       types ← types;
       by_type ← dict_get all tpl;
       Some (types ∪ list_to_set (dict_keys by_type)))
    tpl_ids (Some ∅).

Definition by_relation_type_of (all : dict str (dict str nat))
    (tpl_ids : list str) : option (dict str (dict str nat)) :=
  types ← relation_types all tpl_ids;
  fold_left
    (fun table t =>
       table ← table;
       row ← type_row all tpl_ids t;
       Some (dict_set table t row))
    (elements types) (Some []).

Section CompareChapter.
Context `{Regex}.

(** The body of [for tpl in tpl_ids]. *)
Definition compare_step (data_of : str -> option cmp_data)
    (syn : dict str str) (alias : alias_rules) (confidence_min : Q)
    (include_events : bool)
    (st : option compare_state) (tpl : str) : option compare_state :=
  st ← st;
  let data := data_of tpl in
  rels ←
    _parse_relations (default (CmpList []) data) syn alias confidence_min;
  evts ← (if include_events
          then _parse_events (default (CmpDict None None) data) syn alias
                 confidence_min
          else Some ([], ∅));
  Some {| rel_counts := dict_set (rel_counts st) tpl (length (fst (fst rels)));
          evt_counts := dict_set (evt_counts st) tpl (length (fst evts));
          rel_sets := dict_set (rel_sets st) tpl (snd (fst rels));
          evt_sets := dict_set (evt_sets st) tpl (snd evts);
          by_rel_type_all := dict_set (by_rel_type_all st) tpl (snd rels) |}.

Definition compare_loop (data_of : str -> option cmp_data)
    (syn : dict str str) (alias : alias_rules) (confidence_min : Q)
    (include_events : bool) (tpl_ids : list str) : option compare_state :=
  fold_left (compare_step data_of syn alias confidence_min include_events)
    tpl_ids
    (Some {| rel_counts := []; evt_counts := []; rel_sets := [];
             evt_sets := []; by_rel_type_all := [] |}).

Definition compare_chapter (data_of : str -> option cmp_data)
    (syn : dict str str) (alias : alias_rules) (tpl_ids : list str)
    (confidence_min : Q) (include_events : bool) : option compare_report :=
  st ← compare_loop data_of syn alias confidence_min include_events tpl_ids;
  let rel_union := union_all (rel_sets st) in
  let evt_union := union_all (evt_sets st) in
  let rel_inter := inter_all (rel_sets st) in
  let evt_inter := inter_all (evt_sets st) in
  rel_j ← jaccard_of (rel_sets st) tpl_ids;
  evt_j ← jaccard_of (evt_sets st) tpl_ids;
  diffs_rel_unique ← unique_diffs (rel_sets st) rel_inter tpl_ids;
  diffs_evt_unique ← unique_diffs (evt_sets st) evt_inter tpl_ids;
  by_relation_type ← by_relation_type_of (by_rel_type_all st) tpl_ids;
  Some {| metrics :=
            {| relations_count_by_template := rel_counts st;
               events_count_by_template := evt_counts st;
               relations_union_count := size rel_union;
               relations_intersection_count := size rel_inter;
               relations_jaccard := rel_j;
               events_union_count := size evt_union;
               events_intersection_count := size evt_inter;
               events_jaccard := evt_j;
               by_relation_type := by_relation_type |};
          diffs :=
            {| relations_unique := diffs_rel_unique;
               relations_intersection := elements rel_inter;
               events_unique := diffs_evt_unique;
               events_intersection := elements evt_inter |};
          samples_relations := take 10 (elements rel_union);
          samples_events := take 10 (elements evt_union) |}.
End CompareChapter.

(** The result of the relation branch of the loop body for one template:
    [_parse_relations(data or [], ...)]. *)
Definition template_relations `{Regex} (data_of : str -> option cmp_data)
    (syn : dict str str) (alias : alias_rules) (confidence_min : Q)
    (tpl : str) : option (list cmp_relation * gset str * dict str nat) :=
  _parse_relations (default (CmpList []) (data_of tpl)) syn alias
    confidence_min.

(** The relation key set of the data of one template. *)
Definition relation_keys_of `{Regex} (data_of : str -> option cmp_data)
    (syn : dict str str) (alias : alias_rules) (confidence_min : Q)
    (tpl : str) : gset str :=
  match template_relations data_of syn alias confidence_min tpl with
  | Some rels => snd (fst rels)
  | None => ∅
  end.

(** The number of relations of the data of one template that pass the
    confidence filter. *)
Definition relation_count_of `{Regex} (data_of : str -> option cmp_data)
    (syn : dict str str) (alias : alias_rules) (confidence_min : Q)
    (tpl : str) : nat :=
  match template_relations data_of syn alias confidence_min tpl with
  | Some rels => length (fst (fst rels))
  | None => 0
  end.

(** [tabulate g ids] is the dictionary built by [d[k] = g k] for the keys
    [ids] in order. *)
Definition tabulate {V : Type} (g : str -> V) (ids : list str) : dict str V :=
  fold_left (fun d k => dict_set d k (g k)) ids [].

(** The result of the event branch of the loop body for one template:
    [_parse_events(data or {}, ...) if include_events else ([], set())]. *)
Definition template_events `{Regex} (data_of : str -> option cmp_data)
    (syn : dict str str) (alias : alias_rules) (confidence_min : Q)
    (include_events : bool) (tpl : str)
    : option (list cmp_event * gset str) :=
  if include_events
  then _parse_events (default (CmpDict None None) (data_of tpl)) syn alias
         confidence_min
  else Some ([], ∅).

(** The event key set of the data of one template; empty when the events
    are not parsed. *)
Definition event_keys_of `{Regex} (data_of : str -> option cmp_data)
    (syn : dict str str) (alias : alias_rules) (confidence_min : Q)
    (include_events : bool) (tpl : str) : gset str :=
  match template_events data_of syn alias confidence_min include_events tpl with
  | Some evts => snd evts
  | None => ∅
  end.

(** [by_rel_type_all[tpl]] and [by_rel_type_all[tpl].get(t, 0)] for the data
    of one template. *)
Definition relation_types_of `{Regex} (data_of : str -> option cmp_data)
    (syn : dict str str) (alias : alias_rules) (confidence_min : Q)
    (tpl : str) : dict str nat :=
  match template_relations data_of syn alias confidence_min tpl with
  | Some rels => snd rels
  | None => []
  end.

Definition relation_type_count `{Regex} (data_of : str -> option cmp_data)
    (syn : dict str str) (alias : alias_rules) (confidence_min : Q)
    (tpl t : str) : nat :=
  default 0
    (dict_get (relation_types_of data_of syn alias confidence_min tpl) t).

(** At least two different templates are requested. *)
Definition several (ids : list str) : Prop :=
  exists a b, a ∈ ids /\ b ∈ ids /\ a <> b.

(** What the report says about the key sets [g tpl] of the requested
    templates [ids]: the intersection list and its count, the union count,
    the samples and the keys listed as unique to each template. *)
Definition set_report (g : str -> gset str) (ids : list str)
    (union_count inter_count : nat) (inter : list str)
    (unique : dict str (list str)) (samples : list str) : Prop :=
  NoDup inter
  /\ inter_count = length inter
  /\ (forall k, k ∈ inter <->
                several ids /\ forall tpl, tpl ∈ ids -> k ∈ g tpl)
  /\ union_count = size (⋃ (g <$> ids))
  /\ samples ⊆ elements (⋃ (g <$> ids))
  /\ length samples = Nat.min 10 union_count
  /\ forall tpl, tpl ∈ ids ->
       inter_count <= size (g tpl) <= union_count
       /\ exists u, dict_get unique tpl = Some u
                    /\ NoDup u
                    /\ forall k, k ∈ u <-> k ∈ g tpl /\ k ∉ inter.

(** The row of [by_relation_type] for per-template counts [c]. *)
Definition type_row_of (c : str -> nat) (ids : list str) : dict str nat :=
  dict_set
    (dict_set (tabulate c ids) (py"union") (sum_counts (List.map c ids)))
    (py"intersection")
    match List.map c ids with
    | x :: xs => min_counts x xs
    | [] => 0
    end.

(** The state after the loop over the templates, when no event parse
    raised. *)
Definition loop_state `{Regex} (data_of : str -> option cmp_data)
    (syn : dict str str) (alias : alias_rules) (confidence_min : Q)
    (include_events : bool) (ids : list str) : compare_state :=
  {| rel_counts :=
       tabulate (relation_count_of data_of syn alias confidence_min) ids;
     evt_counts :=
       tabulate
         (fun tpl =>
            match template_events data_of syn alias confidence_min
                    include_events tpl with
            | Some evts => length (fst evts)
            | None => 0
            end) ids;
     rel_sets :=
       tabulate (relation_keys_of data_of syn alias confidence_min) ids;
     evt_sets :=
       tabulate
         (event_keys_of data_of syn alias confidence_min include_events) ids;
     by_rel_type_all :=
       tabulate (relation_types_of data_of syn alias confidence_min) ids |}.

(** No relation parse and no event parse raises for the requested
    templates. *)
Definition templates_parse `{Regex} (data_of : str -> option cmp_data)
    (syn : dict str str) (alias : alias_rules) (confidence_min : Q)
    (include_events : bool) (ids : list str) : Prop :=
  Forall
    (fun tpl =>
       is_Some (template_relations data_of syn alias confidence_min tpl)
       /\ is_Some (template_events data_of syn alias confidence_min
                     include_events tpl))
    ids.

(** Sample results of two templates for one chapter. *)
Module CmpSample.
Definition mk (h rel t : string) (conf : option Q) : cmp_raw_relation :=
  {| cr_head := Some (Some (Lit.decode h)); cr_head_type := None;
     cr_relation := Some (Some (Lit.decode rel));
     cr_tail := Some (Some (Lit.decode t)); cr_tail_type := None;
     cr_confidence := conf; cr_qualifiers := JNull; cr_evidence := JNull |}.

Definition c1 : cmp_raw_relation := mk "悟空" "师徒" "唐僧" (Some (9 # 10)).
Definition c2 : cmp_raw_relation := mk "八戒" "师徒" "唐僧" None.
Definition c3 : cmp_raw_relation := mk "悟空" "敌对" "白骨精" (Some (1 # 2)).

Definition alias : @alias_rules whole_match_regex :=
  {| strip_tokens := []; regex_rules := [] |}.

Definition data_of (tpl : str) : option cmp_data :=
  if decide (tpl = py"a") then Some (CmpList [c1; c2])
  else if decide (tpl = py"b")
  then Some (CmpDict (Some (Some [c3; c1])) None)
  else None.
End CmpSample.

(** * Properties *)

(** ** Strings *)

Lemma lstrip_idem (s : str) : lstrip (lstrip s) = lstrip s.
Proof.
  induction s as [|c s IH]; simpl; [done|].
  destruct (is_space c) eqn:Hc; [done|]. simpl. by rewrite Hc.
Qed.

Lemma lstrip_length (s : str) : length (lstrip s) <= length s.
Proof.
  induction s as [|c s IH]; simpl; [lia|].
  destruct (is_space c); simpl; lia.
Qed.

Lemma lstrip_app_nonspace (s : str) (c : char) :
  is_space c = false -> lstrip (s ++ [c]) = lstrip s ++ [c].
Proof.
  intros Hc. induction s as [|a s IH]; simpl.
  - by rewrite Hc.
  - destruct (is_space a); [exact IH | done].
Qed.

Lemma rstrip_nil : rstrip [] = [].
Proof. reflexivity. Qed.

Lemma rstrip_snoc (s : str) (c : char) :
  rstrip (s ++ [c]) = if is_space c then rstrip s else s ++ [c].
Proof.
  unfold rstrip. rewrite rev_app_distr. simpl.
  destruct (is_space c); [done|].
  simpl. by rewrite rev_involutive.
Qed.

Lemma rstrip_length (s : str) : length (rstrip s) <= length s.
Proof.
  unfold rstrip. rewrite length_rev.
  etrans; [apply lstrip_length|]. by rewrite length_rev.
Qed.

Lemma rstrip_idem (s : str) : rstrip (rstrip s) = rstrip s.
Proof.
  unfold rstrip. by rewrite rev_involutive, lstrip_idem.
Qed.

(** Stripping on the left keeps a string that is stripped on the right
    stripped on the right. *)
Lemma rstrip_lstrip_fixed (t : str) :
  rstrip t = t -> rstrip (lstrip t) = lstrip t.
Proof.
  induction t as [|c t IH] using rev_ind; [done|].
  rewrite rstrip_snoc. destruct (is_space c) eqn:Hc.
  - intros Heq. pose proof (rstrip_length t) as Hlen.
    rewrite Heq, length_app in Hlen. simpl in Hlen. lia.
  - intros _. rewrite lstrip_app_nonspace by done.
    rewrite rstrip_snoc. by rewrite Hc.
Qed.

Lemma strip_idem (s : str) : strip (strip s) = strip s.
Proof.
  unfold strip.
  rewrite (rstrip_lstrip_fixed (rstrip s)) by apply rstrip_idem.
  apply lstrip_idem.
Qed.

Lemma after_first_startswith (c : char) (p s : str) :
  startswith s (p ++ [c]) = true -> c ∉ p ->
  after_first c s = Some (drop (S (length p)) s).
Proof.
  revert s. induction p as [|a p IH]; intros [|b s]; simpl; try done.
  - intros Hs _. apply andb_prop in Hs as [Hb _].
    apply bool_decide_eq_true in Hb as ->. by rewrite bool_decide_eq_true_2.
  - intros Hs Hnin. apply andb_prop in Hs as [Hb Hs].
    apply bool_decide_eq_true in Hb as ->.
    rewrite bool_decide_eq_false_2 by (intros ->; apply Hnin; left).
    apply IH; [done|]. intros Hin. apply Hnin. by right.
Qed.

(** The index [1] that [parse_alias_rules] takes after splitting at the
    first colon exists: the string starts with [strip:] or [regex:]. *)
Lemma split1_snd_prefixed (s : str) :
  startswith s (py"strip:") = true \/ startswith s (py"regex:") = true ->
  after_first 0x3A%N s = Some (drop 6 s)
  /\ split1_snd 0x3A%N s = drop 6 s.
Proof.
  assert (forall p : str,
            startswith s (p ++ [0x3A%N]) = true -> 0x3A%N ∉ p ->
            length p = 5 ->
            after_first 0x3A%N s = Some (drop 6 s)
            /\ split1_snd 0x3A%N s = drop 6 s) as Hp.
  { intros p Hs Hnin Hlen. unfold split1_snd.
    rewrite (after_first_startswith _ p s Hs Hnin), Hlen. done. }
  intros [Hs|Hs].
  - apply (Hp (py"strip")); [exact Hs | | reflexivity].
    vm_compute. intros Hin.
    repeat (apply elem_of_cons in Hin as [?|Hin]; [done|]).
    by inversion Hin.
  - apply (Hp (py"regex")); [exact Hs | | reflexivity].
    vm_compute. intros Hin.
    repeat (apply elem_of_cons in Hin as [?|Hin]; [done|]).
    by inversion Hin.
Qed.

(** ** Canonicalization *)

Section CanonicalizationFacts.
Context `{Regex}.




End CanonicalizationFacts.


(** Without the assumption the property fails: a strip token is removed
    once per side, so a doubled token leaves a residue that the next pass
    removes. *)
Example canonical_norm_residual_token :
  let alias :=
    {| strip_tokens := [py"大"];
       regex_rules := [] : list (@pattern whole_match_regex * str) |} in
  canonical_norm (Some (py"大大圣")) [] alias = py"大圣" /\
  canonical_norm (Some (py"大圣")) [] alias = py"圣".
Proof. split; vm_compute; reflexivity. Qed.

(** ** Relation normalization *)

Section NormalizationFacts.
Context `{Regex}.

Lemma normalize_relation_app (syn : dict str str) (alias : alias_rules)
    (labels : list str) (out : list relation_record) (r : raw_relation) :
  normalize_relation syn alias labels out r
    = out ++ normalize_relation syn alias labels [] r.
Proof.
  unfold normalize_relation.
  repeat case_match; by rewrite ?app_nil_r.
Qed.

Lemma fold_normalize_relation_app (syn : dict str str)
    (alias : alias_rules) (labels : list str) (l : list raw_relation)
    (out : list relation_record) :
  fold_left (normalize_relation syn alias labels) l out
    = out ++ fold_left (normalize_relation syn alias labels) l [].
Proof.
  revert out. induction l as [|r l IH]; intros out; simpl.
  - by rewrite app_nil_r.
  - rewrite IH, (IH (normalize_relation _ _ _ [] r)).
    by rewrite normalize_relation_app, app_assoc.
Qed.

(** [normalize_relations] handles each raw relation on its own: the
    records of a list are those of its parts, in order. *)
Lemma normalize_relations_app (syn : dict str str) (alias : alias_rules)
    (labels : list str) (l1 l2 : list raw_relation) :
  normalize_relations (PayloadList (l1 ++ l2)) syn alias labels
    = normalize_relations (PayloadList l1) syn alias labels
      ++ normalize_relations (PayloadList l2) syn alias labels.
Proof.
  unfold normalize_relations. simpl.
  rewrite fold_left_app. apply fold_normalize_relation_app.
Qed.

Lemma normalize_relation_alias_item (syn : dict str str)
    (alias : alias_rules) (labels : list str) (r : raw_relation) :
  str_truthy (raw_head r) = true ->
  str_truthy (raw_tail r) = true ->
  str_truthy (raw_type r) = true ->
  py_str (raw_type r) ∈ labels ->
  normalize_relation syn alias labels [] r
    = [alias_item r (raw_head r) (raw_tail r) syn alias].
Proof.
  intros Hh Ht Hl Hin. unfold normalize_relation.
  rewrite Hh, Ht, Hl. simpl. by rewrite bool_decide_eq_true_2.
Qed.

(** C2. A raw relation with non-empty head, tail and label whose label is
    an alias label yields exactly one record, in place: its relation is
    ALIAS; if the tail (after [canonical_original]) is a synonym key, the
    head of the record is that tail and its tail the canonical form of the
    key's target; else if the head is a synonym key, likewise with the
    head; else the record's head is the tail and its tail the canonical
    form of the head.  Confidence and evidence are kept, and missing (or
    empty) qualifiers become [{alias_source: evidence_trigger}].  In
    particular (head 悟空, relation 法名, tail 孙悟空), with 悟空 a synonym
    for 孙悟空, gives (head 悟空, ALIAS, tail canonicalize(孙悟空)) provided
    that [canonical_original] leaves 悟空 as it is and does not turn the
    tail 孙悟空 into a synonym key: the tail is looked up first. *)
Theorem normalize_relations_alias (syn : dict str str)
    (alias : alias_rules) (labels : list str) :
  (forall (obj : payload) (l1 l2 : list raw_relation) (r : raw_relation),
     _relations_from_obj obj = l1 ++ r :: l2 ->
     str_truthy (raw_head r) = true ->
     str_truthy (raw_tail r) = true ->
     str_truthy (raw_type r) = true ->
     py_str (raw_type r) ∈ labels ->
     exists item : relation_record,
       normalize_relations obj syn alias labels
         = normalize_relations (PayloadList l1) syn alias labels
           ++ item :: normalize_relations (PayloadList l2) syn alias labels
       /\ r_relation item = Some ALIAS
       /\ (let ah := canonical_original (raw_head r) alias in
           let at_ := canonical_original (raw_tail r) alias in
           (dict_mem syn at_ = true ->
            r_head item = Some at_ /\
            r_tail item = Some (canonical_norm (dict_get syn at_) syn alias))
           /\ (dict_mem syn at_ = false -> dict_mem syn ah = true ->
               r_head item = Some ah /\
               r_tail item
                 = Some (canonical_norm (dict_get syn ah) syn alias))
           /\ (dict_mem syn at_ = false -> dict_mem syn ah = false ->
               r_head item = Some at_ /\
               r_tail item = Some (canonical_norm (Some ah) syn alias)))
       /\ r_confidence item = rr_confidence r
       /\ r_evidence item = rr_evidence r
       /\ r_qualifiers item
          = (if truthy (rr_qualifiers r) then rr_qualifiers r
             else evidence_trigger_qualifiers))
  /\ (forall r : raw_relation,
        rr_head r = Some (py"悟空") ->
        rr_tail r = Some (py"孙悟空") ->
        str_or (rr_type r) (rr_relation r) = Some (py"法名") ->
        py"法名" ∈ labels ->
        dict_get syn (py"悟空") = Some (py"孙悟空") ->
        canonical_original (Some (py"悟空")) alias = py"悟空" ->
        dict_mem syn (canonical_original (Some (py"孙悟空")) alias) = false ->
        exists item : relation_record,
          normalize_relations (PayloadList [r]) syn alias labels = [item]
          /\ r_head item = Some (py"悟空")
          /\ r_relation item = Some ALIAS
          /\ r_tail item
             = Some (canonical_norm (Some (py"孙悟空")) syn alias)).
Proof.
  split.
  - intros obj l1 l2 r Hobj Hh Ht Hl Hin.
    exists (alias_item r (raw_head r) (raw_tail r) syn alias).
    split.
    { change (normalize_relations obj syn alias labels)
        with (normalize_relations (PayloadList (_relations_from_obj obj))
                syn alias labels).
      rewrite Hobj, normalize_relations_app.
      change (r :: l2) with ([r] ++ l2).
      rewrite (normalize_relations_app _ _ _ [r] l2).
      unfold normalize_relations at 2. simpl.
      by rewrite normalize_relation_alias_item. }
    unfold alias_item. simpl.
    destruct (dict_mem syn (canonical_original (raw_tail r) alias)) eqn:Hat;
      [|destruct (dict_mem syn (canonical_original (raw_head r) alias))
          eqn:Hah];
      simpl; repeat split; try done.
  - intros r Hhead Htail Hlabel Hin Hsyn Hch Hnot.
    assert (raw_head r = Some (py"悟空")) as Hrh
      by (unfold raw_head; by rewrite Hhead).
    assert (raw_tail r = Some (py"孙悟空")) as Hrt
      by (unfold raw_tail; by rewrite Htail).
    assert (raw_type r = Some (py"法名")) as Hry
      by (unfold raw_type; by rewrite Hlabel).
    exists (alias_item r (raw_head r) (raw_tail r) syn alias).
    split.
    { unfold normalize_relations. simpl.
      apply normalize_relation_alias_item;
        rewrite ?Hrh, ?Hrt, ?Hry; done. }
    unfold alias_item. rewrite Hrh, Hrt, Hnot, Hch.
    unfold dict_mem. rewrite Hsyn. simpl. done.
Qed.
End NormalizationFacts.

(** C2, as stated, fails on its example: when the tail 孙悟空 is itself a
    synonym key, the tail is taken as the alias side, because it is looked
    up before the head. *)
Lemma normalize_relations_alias_example_counterexample :
  let syn := [(py"悟空", py"孙悟空"); (py"孙悟空", py"美猴王")] in
  let alias :=
    {| strip_tokens := [];
       regex_rules := [] : list (@pattern whole_match_regex * str) |} in
  let labels := [py"法名"] in
  let r :=
    {| rr_head := Some (py"悟空"); rr_subject := None;
       rr_tail := Some (py"孙悟空"); rr_object := None;
       rr_type := None; rr_relation := Some (py"法名");
       rr_confidence := None; rr_evidence := None;
       rr_qualifiers := JNull |} in
  py"法名" ∈ labels
  /\ dict_get syn (py"悟空") = Some (py"孙悟空")
  /\ normalize_relations (PayloadList [r]) syn alias labels
     = [{| r_head := Some (py"孙悟空"); r_relation := Some ALIAS;
           r_tail := Some (py"美猴王"); r_confidence := None;
           r_evidence := None;
           r_qualifiers := evidence_trigger_qualifiers;
           r_chapter_id := None |}]
  /\ ~ (exists item,
          normalize_relations (PayloadList [r]) syn alias labels = [item]
          /\ r_head item = Some (py"悟空")
          /\ r_relation item = Some ALIAS
          /\ r_tail item
             = Some (canonical_norm (Some (py"孙悟空")) syn alias)).
Proof.
  intros syn alias labels r.
  assert (normalize_relations (PayloadList [r]) syn alias labels
          = [{| r_head := Some (py"孙悟空"); r_relation := Some ALIAS;
                r_tail := Some (py"美猴王"); r_confidence := None;
                r_evidence := None;
                r_qualifiers := evidence_trigger_qualifiers;
                r_chapter_id := None |}]) as Hout
    by (vm_compute; reflexivity).
  split; [apply list_elem_of_here|]. split; [reflexivity|].
  split; [exact Hout|].
  intros (item & Hitem & Hhead & _). rewrite Hout in Hitem.
  injection Hitem as <-. vm_compute in Hhead. discriminate.
Qed.

Lemma normalize_relations_alias_witness :
  let syn := [(py"悟空", py"孙悟空")] in
  let alias :=
    {| strip_tokens := [];
       regex_rules := [] : list (@pattern whole_match_regex * str) |} in
  let labels := [py"法名"] in
  let r :=
    {| rr_head := Some (py"悟空"); rr_subject := None;
       rr_tail := Some (py"孙悟空"); rr_object := None;
       rr_type := None; rr_relation := Some (py"法名");
       rr_confidence := Some (9 # 10); rr_evidence := Some (py"法名悟空");
       rr_qualifiers := JNull |} in
  exists item : relation_record,
    normalize_relations (PayloadList [r]) syn alias labels = [item]
    /\ r_head item = Some (py"悟空")
    /\ r_relation item = Some ALIAS
    /\ r_tail item = Some (canonical_norm (Some (py"孙悟空")) syn alias).
Proof.
  intros syn alias labels r.
  apply (proj2 (@normalize_relations_alias whole_match_regex syn alias labels) r);
    try (vm_compute; reflexivity).
  apply list_elem_of_here.
Defined.

(** ** Jaccard similarity *)

Lemma size_inter_le_union (a b : gset str) : size (a ∩ b) <= size (a ∪ b).
Proof.
  apply subseteq_size. intros x [Hx _]%elem_of_intersection.
  by apply elem_of_union_l.
Qed.

Lemma Q_of_nat_ratio_one (n : nat) :
  n <> 0 -> (inject_Z (Z.of_nat n) / inject_Z (Z.of_nat n) == 1)%Q.
Proof.
  intros Hn. apply Qmult_inv_r.
  intros Heq. unfold Qeq, inject_Z in Heq. simpl in Heq. lia.
Qed.

Lemma Q_of_nat_ratio_bounds (i n : nat) :
  n <> 0 -> i <= n ->
  (0 <= inject_Z (Z.of_nat i) / inject_Z (Z.of_nat n) <= 1)%Q.
Proof.
  intros Hn Hi.
  assert (0 < inject_Z (Z.of_nat n))%Q as Hpos.
  { change 0%Q with (inject_Z 0). rewrite <- Zlt_Qlt. lia. }
  split.
  - apply Qle_shift_div_l; [done|]. rewrite Qmult_0_l.
    change 0%Q with (inject_Z 0). rewrite <- Zle_Qle. lia.
  - apply Qle_shift_div_r; [done|]. rewrite Qmult_1_l.
    rewrite <- Zle_Qle. lia.
Qed.

(** C3. [_jaccard] of two empty sets is 1; of a non-empty set with itself
    is 1; it is symmetric; and it always lies between 0 and 1. *)
Theorem jaccard_properties :
  _jaccard ∅ ∅ = 1%Q
  /\ (forall A : gset str, A <> ∅ -> (_jaccard A A == 1)%Q)
  /\ (forall A B : gset str, _jaccard A B = _jaccard B A)
  /\ (forall A B : gset str, (0 <= _jaccard A B <= 1)%Q).
Proof.
  repeat split.
  - intros A HA. unfold _jaccard.
    rewrite (bool_decide_eq_false_2 (A = ∅)) by done. simpl.
    rewrite union_idemp_L, intersection_idemp_L.
    assert (size A <> 0) as Hsz by (by intros ?%size_empty_inv%leibniz_equiv).
    rewrite (proj2 (Nat.eqb_neq _ _) Hsz). simpl.
    by apply Q_of_nat_ratio_one.
  - intros A B. unfold _jaccard.
    rewrite (union_comm_L A B), (intersection_comm_L A B).
    by rewrite andb_comm.
  - unfold _jaccard. case_match; [done|].
    destruct (Nat.eqb_spec (size (A ∪ B)) 0) as [Hz|Hnz]; simpl; [done|].
    apply Q_of_nat_ratio_bounds; [done|apply size_inter_le_union].
  - unfold _jaccard. case_match; [done|].
    destruct (Nat.eqb_spec (size (A ∪ B)) 0) as [Hz|Hnz]; simpl; [done|].
    apply Q_of_nat_ratio_bounds; [done|apply size_inter_le_union].
Qed.

Lemma jaccard_properties_witness :
  ({[ py"k1"; py"k2" ]} : gset str) <> ∅
  /\ (_jaccard {[ py"k1"; py"k2" ]} {[ py"k1"; py"k2" ]} == 1)%Q.
Proof.
  assert (({[ py"k1"; py"k2" ]} : gset str) <> ∅) as Hne.
  { intros Heq. apply (not_elem_of_empty (C := gset str) (py"k1")).
    rewrite <- Heq. apply elem_of_union_l, elem_of_singleton. reflexivity. }
  split; [exact Hne|].
  exact (proj1 (proj2 jaccard_properties) _ Hne).
Defined.

(** ** Relation calibration *)

Lemma startswith_spec (s t : str) :
  startswith s t = true <-> exists b : str, s = t ++ b.
Proof.
  revert s. induction t as [|c t IH]; intros s; simpl.
  - split; [by exists s | done].
  - destruct s as [|a s].
    + split; [done | by intros [b Hb]].
    + rewrite andb_true_iff, bool_decide_eq_true, IH. split.
      * intros [-> [b ->]]. by exists b.
      * intros [b Hb]. injection Hb as -> ->. split; [done | by exists b].
Qed.

Lemma contains_spec (s t : str) :
  contains s t = true <-> is_substring t s.
Proof.
  unfold is_substring. induction s as [|c s IH]; simpl.
  - rewrite orb_false_r, startswith_spec. split.
    + intros [b Hb]. by exists [], b.
    + intros (a & b & Hab). symmetry in Hab.
      apply app_eq_nil in Hab as [-> Hab]. by exists b.
  - rewrite orb_true_iff, IH.
    change (match t with [] => true | b :: t' =>
              bool_decide (c = b) && startswith s t' end)
      with (startswith (c :: s) t).
    rewrite startswith_spec. split.
    + intros [[b Hb] | (a & b & Hab)].
      * by exists [], b.
      * exists (c :: a), b. by rewrite Hab.
    + intros (a & b & Hab). destruct a as [|x a].
      * left. by exists b.
      * right. injection Hab as _ ->. by exists a, b.
Qed.

Lemma existsb_contains_spec (ev : str) (keys : list str) :
  existsb (contains ev) keys = true <->
  exists k, k ∈ keys /\ is_substring k ev.
Proof.
  rewrite existsb_exists. split.
  - intros (k & Hin & Hk). exists k.
    by rewrite list_elem_of_In, <- contains_spec.
  - intros (k & Hin & Hk). exists k.
    by rewrite <- list_elem_of_In, contains_spec.
Qed.

(** A pattern matches when the evidence contains at least one include
    keyword and no exclude keyword. *)
Lemma pattern_matches_spec (ev : str) (p : cal_pattern) :
  pattern_matches ev p = true <->
  (exists k, k ∈ pat_include p /\ is_substring k ev)
  /\ ~ (exists x, x ∈ pat_exclude p /\ is_substring x ev).
Proof.
  unfold pattern_matches.
  rewrite !andb_true_iff, !negb_true_iff.
  rewrite <- (not_true_iff_false (existsb _ (pat_exclude p))).
  rewrite !existsb_contains_spec. split.
  - by intros [[_ Hinc] Hexc].
  - intros [Hinc Hexc]. repeat split; try done.
    apply bool_decide_eq_false. intros Hnil.
    destruct Hinc as (k & Hk & _). rewrite Hnil in Hk. by inversion Hk.
Qed.

Lemma fold_calibrate_pattern (r : relation_record) (ev : str)
    (pats : list cal_pattern) (out : list relation_record) (added : bool) :
  fold_left (calibrate_pattern r ev) pats (out, added)
  = (out ++ List.map (fun p => with_relation r (pat_relation p))
               (List.filter (pattern_matches ev) pats),
     added || negb (bool_decide (List.filter (pattern_matches ev) pats = []))).
Proof.
  revert out added. induction pats as [|p pats IH]; intros out added; simpl.
  - by rewrite app_nil_r, orb_false_r.
  - unfold calibrate_pattern at 2. destruct (pattern_matches ev p); simpl.
    + rewrite IH. simpl. by rewrite <- app_assoc, orb_true_r.
    + apply IH.
Qed.

Lemma calibrate_relation_fan_out (pats : list cal_pattern)
    (out : list relation_record) (r : relation_record) :
  calibrate_relation pats out r = out ++ fan_out pats r.
Proof.
  unfold calibrate_relation, fan_out, matching_patterns.
  rewrite fold_calibrate_pattern. simpl.
  destruct (List.filter (pattern_matches (evidence_text r)) pats); simpl.
  - by rewrite app_nil_r.
  - done.
Qed.

Lemma fold_calibrate_relation (pats : list cal_pattern)
    (rels out : list relation_record) :
  fold_left (calibrate_relation pats) rels out
  = out ++ flat_map (fan_out pats) rels.
Proof.
  revert out. induction rels as [|r rels IH]; intros out; simpl.
  - by rewrite app_nil_r.
  - by rewrite IH, calibrate_relation_fan_out, app_assoc.
Qed.

Lemma matching_patterns_spec (pats : list cal_pattern) (r : relation_record)
    (p : cal_pattern) :
  p ∈ matching_patterns pats r <->
  p ∈ pats
  /\ (exists k, k ∈ pat_include p /\ is_substring k (evidence_text r))
  /\ ~ (exists x, x ∈ pat_exclude p /\ is_substring x (evidence_text r)).
Proof.
  unfold matching_patterns.
  by rewrite list_elem_of_In, filter_In, <- list_elem_of_In,
    pattern_matches_spec.
Qed.

(** C4. With an empty allowed vocabulary, calibration replaces each input
    relation, in place, by its fan-out: the relation itself when no pattern
    matches, and otherwise one copy per matching pattern, in the order of
    the patterns, each with the label of its pattern and every other field
    of the relation.  The matching patterns are those whose include
    keywords have an occurrence in the evidence and whose exclude keywords
    have none.  A relation that matches two patterns gives exactly two
    records, the two copies, and not the relation itself. *)
Theorem calibrate_relations_fan_out (rels : list relation_record)
    (st : settings) :
  allowed st = [] ->
  calibrate_relations rels st = flat_map (fan_out (patterns st)) rels
  /\ (forall r p,
        p ∈ matching_patterns (patterns st) r <->
        p ∈ patterns st
        /\ (exists k, k ∈ pat_include p /\ is_substring k (evidence_text r))
        /\ ~ (exists x, x ∈ pat_exclude p
                        /\ is_substring x (evidence_text r)))
  /\ (forall r,
        (matching_patterns (patterns st) r = [] ->
         fan_out (patterns st) r = [r])
        /\ (matching_patterns (patterns st) r <> [] ->
            Forall2
              (fun p x =>
                 r_relation x = pat_relation p
                 /\ r_head x = r_head r /\ r_tail x = r_tail r
                 /\ r_confidence x = r_confidence r
                 /\ r_evidence x = r_evidence r
                 /\ r_qualifiers x = r_qualifiers r
                 /\ r_chapter_id x = r_chapter_id r)
              (matching_patterns (patterns st) r)
              (fan_out (patterns st) r)))
  /\ (forall r p1 p2,
        matching_patterns (patterns st) r = [p1; p2] ->
        calibrate_relations [r] st
        = [{| r_head := r_head r; r_relation := pat_relation p1;
              r_tail := r_tail r; r_confidence := r_confidence r;
              r_evidence := r_evidence r; r_qualifiers := r_qualifiers r;
              r_chapter_id := r_chapter_id r |};
           {| r_head := r_head r; r_relation := pat_relation p2;
              r_tail := r_tail r; r_confidence := r_confidence r;
              r_evidence := r_evidence r; r_qualifiers := r_qualifiers r;
              r_chapter_id := r_chapter_id r |}]).
Proof.
  intros Hallowed.
  assert (forall l, calibrate_relations l st
                    = flat_map (fan_out (patterns st)) l) as Hcal.
  { intros l. unfold calibrate_relations. rewrite Hallowed. simpl.
    by rewrite fold_calibrate_relation. }
  split; [apply Hcal|]. split; [intros r p; apply matching_patterns_spec|].
  split.
  - intros r. unfold fan_out.
    destruct (matching_patterns (patterns st) r) as [|p ms] eqn:Hms;
      [done|].
    split; [done|]. intros _.
    generalize (p :: ms). intros l.
    induction l as [|q l IH]; simpl; constructor; [|exact IH].
    by repeat split.
  - intros r p1 p2 Hms. rewrite Hcal. simpl.
    unfold fan_out. by rewrite Hms.
Qed.

Lemma calibrate_relations_fan_out_witness :
  let teacher :=
    {| pat_relation := Some (py"师徒");
       pat_include := [py"师父"; py"徒弟"]; pat_exclude := [] |} in
  let rescue :=
    {| pat_relation := Some (py"救助");
       pat_include := [py"救"]; pat_exclude := [py"不救"] |} in
  let fight :=
    {| pat_relation := Some (py"敌对");
       pat_include := [py"打"]; pat_exclude := [] |} in
  let st :=
    {| patterns := [teacher; fight; rescue]; allowed := []; precedence := [];
       fusion := {| group_by := None; key_format := None;
                    evidence_merge := None; confidence_merge := None;
                    chapter_strategy := None |} |} in
  let r :=
    {| r_head := Some (py"悟空"); r_relation := Some (py"相关");
       r_tail := Some (py"唐僧"); r_confidence := Some (9 # 10);
       r_evidence := Some (py"悟空救了师父"); r_qualifiers := JObj [];
       r_chapter_id := Some (py"001") |} in
  allowed st = []
  /\ matching_patterns (patterns st) r = [teacher; rescue]
  /\ calibrate_relations [r] st
     = [{| r_head := Some (py"悟空"); r_relation := Some (py"师徒");
           r_tail := Some (py"唐僧"); r_confidence := Some (9 # 10);
           r_evidence := Some (py"悟空救了师父"); r_qualifiers := JObj [];
           r_chapter_id := Some (py"001") |};
        {| r_head := Some (py"悟空"); r_relation := Some (py"救助");
           r_tail := Some (py"唐僧"); r_confidence := Some (9 # 10);
           r_evidence := Some (py"悟空救了师父"); r_qualifiers := JObj [];
           r_chapter_id := Some (py"001") |}].
Proof.
  intros teacher rescue fight st r.
  split; [reflexivity|]. split; [vm_compute; reflexivity|].
  apply (proj2 (proj2 (proj2 (calibrate_relations_fan_out [r] st eq_refl)))
           r teacher rescue).
  vm_compute. reflexivity.
Defined.

(** ** Order on strings and sorting *)

Lemma str_ltb_irrefl (a : str) : str_ltb a a = false.
Proof.
  induction a as [|x a IH]; simpl; [done|].
  by rewrite N.ltb_irrefl, N.eqb_refl, IH.
Qed.

Lemma str_ltb_trans (a b c : str) :
  str_ltb a b = true -> str_ltb b c = true -> str_ltb a c = true.
Proof.
  revert b c. induction a as [|x a IH]; intros [|y b] [|z c]; simpl;
    try done.
  rewrite !orb_true_iff, !andb_true_iff, !N.ltb_lt, !N.eqb_eq.
  intros [Hxy | [-> Hab]] [Hyz | [-> Hbc]].
  - left. lia.
  - by left.
  - by left.
  - right. split; [done|]. by eapply IH.
Qed.

Lemma str_ltb_total (a b : str) :
  str_ltb a b = false -> str_ltb b a = false -> a = b.
Proof.
  revert b. induction a as [|x a IH]; intros [|y b]; simpl; try done.
  rewrite !orb_false_iff, !andb_false_iff, !N.ltb_ge, !N.eqb_neq.
  intros [Hxy Hab] [Hyx Hba].
  assert (x = y) as -> by lia.
  f_equal. apply IH.
  - by destruct Hab.
  - by destruct Hba.
Qed.

Section SortedFacts.
Context {A : Type} (ltb : A -> A -> bool).
Hypothesis ltb_irrefl : forall x, ltb x x = false.
Hypothesis ltb_trans :
  forall x y z, ltb x y = true -> ltb y z = true -> ltb x z = true.
Hypothesis ltb_total :
  forall x y, ltb x y = false -> ltb y x = false -> x = y.

#[local] Abbreviation le := (not_gt ltb).

Lemma insert_sorted_perm (x : A) (l : list A) :
  insert_sorted ltb x l ≡ₚ x :: l.
Proof.
  induction l as [|y l IH]; simpl; [done|].
  destruct (ltb y x); [|done].
  rewrite IH. apply Permutation_swap.
Qed.

Lemma sorted_perm (l : list A) : sorted ltb l ≡ₚ l.
Proof.
  induction l as [|x l IH]; simpl; [done|].
  by rewrite insert_sorted_perm, IH.
Qed.

Lemma le_of_lt (x y : A) : ltb x y = true -> le x y.
Proof.
  unfold not_gt. intros Hxy. destruct (ltb y x) eqn:Hyx; [|done].
  by rewrite <- (ltb_irrefl x), <- (ltb_trans x y x Hxy Hyx).
Qed.

Lemma le_trans (x y z : A) : le x y -> le y z -> le x z.
Proof.
  unfold not_gt. intros Hxy Hyz. destruct (ltb z x) eqn:Hzx; [|done].
  destruct (ltb x y) eqn:Hlt.
  - by rewrite <- Hyz, (ltb_trans z x y Hzx Hlt).
  - rewrite (ltb_total x y Hlt Hxy) in Hzx. by rewrite <- Hyz, Hzx.
Qed.

Lemma insert_sorted_sorted (x : A) (l : list A) :
  StronglySorted le l -> StronglySorted le (insert_sorted ltb x l).
Proof.
  induction 1 as [|y l Hl IH Hy]; simpl.
  - repeat constructor.
  - destruct (ltb y x) eqn:Hyx.
    + constructor; [done|].
      rewrite insert_sorted_perm. constructor; [by apply le_of_lt | done].
    + constructor; [by constructor|].
      constructor; [done|].
      eapply Forall_impl; [exact Hy|]. intros z Hz.
      by apply (le_trans x y z).
Qed.

Lemma sorted_sorted (l : list A) : StronglySorted le (sorted ltb l).
Proof.
  induction l as [|x l IH]; simpl; [constructor|].
  by apply insert_sorted_sorted.
Qed.

Lemma sorted_strictly (l : list A) :
  NoDup l -> StronglySorted (fun x y => ltb x y = true) (sorted ltb l).
Proof.
  intros Hnd. rewrite <- (sorted_perm l) in Hnd.
  pose proof (sorted_sorted l) as Hs.
  induction Hs as [|x k Hk IH Hx]; [constructor|].
  apply NoDup_cons in Hnd as [Hnin Hnd].
  constructor; [by apply IH|].
  apply Forall_forall. intros y Hy.
  rewrite Forall_forall in Hx. specialize (Hx y Hy). unfold not_gt in Hx.
  destruct (ltb x y) eqn:Hxy; [done|].
  by rewrite (ltb_total x y Hxy Hx) in Hnin.
Qed.

Lemma sorted_nonempty (x : A) (l : list A) :
  exists w rest, sorted ltb (x :: l) = w :: rest.
Proof.
  pose proof (sorted_perm (x :: l)) as Hp.
  destruct (sorted ltb (x :: l)) as [|w rest]; [|by eauto].
  by apply Permutation_nil_cons in Hp.
Qed.
End SortedFacts.

(** ** Dictionaries *)

Section DictFacts.
Context {K V : Type} `{EqDecision K}.
Implicit Types (d : dict K V) (k : K) (v : V).

Lemma dict_get_Some_elem_of d k v : dict_get d k = Some v -> (k, v) ∈ d.
Proof.
  induction d as [|[k' v'] d IH]; simpl; [done|].
  destruct (decide (k' = k)) as [->|Hne].
  - intros [= ->]. left.
  - intros Hget. right. by apply IH.
Qed.

Lemma dict_get_None d k : dict_get d k = None <-> k ∉ dict_keys d.
Proof.
  induction d as [|[k' v'] d IH]; simpl.
  - split; [intros _ Hin; by inversion Hin | done].
  - rewrite not_elem_of_cons. destruct (decide (k' = k)) as [->|Hne].
    + split; [done | by intros [? _]].
    + rewrite IH. split; [by intros ? | by intros [_ ?]].
Qed.

Lemma elem_of_dict_keys d k v : (k, v) ∈ d -> k ∈ dict_keys d.
Proof.
  intros Hin. unfold dict_keys.
  apply list_elem_of_In, in_map_iff. exists (k, v).
  by rewrite <- list_elem_of_In.
Qed.

Lemma dict_keys_set d k v :
  k ∈ dict_keys d -> dict_keys (dict_set d k v) = dict_keys d.
Proof.
  induction d as [|[k' v'] d IH]; simpl; [by inversion 1|].
  destruct (decide (k' = k)) as [->|Hne]; simpl; [done|].
  intros Hin. apply elem_of_cons in Hin as [->|Hin]; [done|].
  by rewrite IH.
Qed.

Lemma elem_of_dict_set d k v k' v' :
  NoDup (dict_keys d) -> k ∈ dict_keys d ->
  (k', v') ∈ dict_set d k v ->
  (k' = k /\ v' = v) \/ (k' <> k /\ (k', v') ∈ d).
Proof.
  induction d as [|[k0 v0] d IH]; simpl; [by inversion 2|].
  intros [Hnin Hnd]%NoDup_cons Hin.
  destruct (decide (k0 = k)) as [->|Hne].
  - intros [[= -> ->]|Hel]%elem_of_cons; [by left|].
    right. split; [|by right].
    intros ->. by apply Hnin, (elem_of_dict_keys d k v').
  - apply elem_of_cons in Hin as [->|Hin]; [done|].
    intros [[= -> ->]|Hel]%elem_of_cons.
    + right. split; [done | left].
    + destruct (IH Hnd Hin Hel) as [?|[? ?]]; [by left|].
      right. split; [done | by right].
Qed.
End DictFacts.

(** ** Grouping *)

Section FusionFacts.
Context `{StrFormat}.

Lemma group_relations_snoc (fu : fusion_settings)
    (l : list relation_record) (r : relation_record) :
  group_relations fu (l ++ [r])
  = (groups ← group_relations fu l;
     k ← group_key fu r;
     Some (dict_append groups k r)).
Proof. unfold group_relations. by rewrite fold_left_app. Qed.

Lemma items_of_key_snoc (fu : fusion_settings) (l : list relation_record)
    (r : relation_record) (k : str) :
  items_of_key fu (l ++ [r]) k
  = items_of_key fu l k
    ++ (if bool_decide (group_key fu r = Some k) then [r] else []).
Proof. unfold items_of_key. by rewrite List.filter_app. Qed.

(** What the grouping loop builds: the keys are distinct, every group is
    non-empty and holds, in input order, the records with its key, and
    every record has its key among the groups. *)
Lemma group_relations_spec (fu : fusion_settings)
    (l : list relation_record) (groups : dict str (list relation_record)) :
  group_relations fu l = Some groups ->
  NoDup (dict_keys groups)
  /\ (forall k items, (k, items) ∈ groups ->
        items <> [] /\ items = items_of_key fu l k)
  /\ (forall r, r ∈ l ->
        exists k, group_key fu r = Some k /\ k ∈ dict_keys groups).
Proof.
  revert groups. induction l as [|r l IH] using rev_ind; intros groups.
  - intros [= <-]. split; [constructor|].
    split; intros ? Hin; [intros Hin'; by inversion Hin' | by inversion Hin].
  - rewrite group_relations_snoc.
    destruct (group_relations fu l) as [g|]; [|done]. simpl.
    destruct (group_key fu r) as [k|] eqn:Hk; [|done]. simpl.
    intros [= <-].
    destruct (IH g eq_refl) as (Hnd & Hitems & Hkeys).
    unfold dict_append.
    destruct (dict_get g k) as [its|] eqn:Hget.
    + assert (k ∈ dict_keys g) as Hkin.
      { by eapply elem_of_dict_keys, dict_get_Some_elem_of. }
      rewrite dict_keys_set by done.
      split; [done|]. split.
      * intros k' items' Hel.
        apply elem_of_dict_set in Hel as [[-> ->]|[Hne Hel]]; try done.
        -- split; [by destruct its|].
           rewrite items_of_key_snoc, bool_decide_eq_true_2 by done.
           f_equal. by apply Hitems, dict_get_Some_elem_of.
        -- destruct (Hitems k' items' Hel) as [Hnil ->].
           split; [done|].
           rewrite items_of_key_snoc, bool_decide_eq_false_2
             by congruence.
           by rewrite app_nil_r.
      * intros r' [Hr'|Hr']%elem_of_app.
        -- by apply Hkeys.
        -- apply list_elem_of_singleton in Hr' as ->. by exists k.
    + apply dict_get_None in Hget.
      assert (dict_keys (g ++ [(k, [r])]) = dict_keys g ++ [k]) as ->
        by (unfold dict_keys; by rewrite map_app).
      split.
      { apply NoDup_app. split; [done|].
        split; [|apply NoDup_singleton].
        intros k' Hk' ->%list_elem_of_singleton. done. }
      split.
      * intros k' items' [Hel|Hel]%elem_of_app.
        -- destruct (Hitems k' items' Hel) as [Hnil ->].
           split; [done|].
           rewrite items_of_key_snoc, bool_decide_eq_false_2.
           ++ by rewrite app_nil_r.
           ++ intros Heq. rewrite Hk in Heq. injection Heq as <-.
              by apply Hget, (elem_of_dict_keys g k (items_of_key fu l k)).
        -- apply list_elem_of_singleton in Hel. injection Hel as -> ->.
           split; [done|].
           rewrite items_of_key_snoc, bool_decide_eq_true_2 by done.
           assert (items_of_key fu l k = []) as ->; [|done].
           unfold items_of_key.
           destruct (List.filter _ l) as [|r' l'] eqn:Hf; [done|exfalso].
           assert (In r' (List.filter
             (fun r0 => bool_decide (group_key fu r0 = Some k)) l)) as Hin
             by (rewrite Hf; left; done).
           apply filter_In in Hin as [Hin Hkey].
           apply bool_decide_eq_true in Hkey.
           apply list_elem_of_In, Hkeys in Hin as (k' & Hk' & Hin').
           rewrite Hkey in Hk'. injection Hk' as <-. done.
      * intros r' [Hr'|Hr']%elem_of_app.
        -- destruct (Hkeys r' Hr') as (k' & Hk' & Hin).
           exists k'. split; [done|]. apply elem_of_app. by left.
        -- apply list_elem_of_singleton in Hr' as ->. exists k.
           split; [done|]. apply elem_of_app. right. left.
Qed.

(** Grouping by head and tail, the default, never fails. *)
Lemma group_relations_head_tail (fu : fusion_settings)
    (l : list relation_record) :
  default (py"head_tail") (group_by fu) = py"head_tail" ->
  is_Some (group_relations fu l).
Proof.
  intros Hby. induction l as [|r l IH] using rev_ind; [by eexists|].
  rewrite group_relations_snoc. destruct IH as [g ->]. simpl.
  unfold group_key. rewrite bool_decide_eq_true_2 by done. by eexists.
Qed.
End FusionFacts.

(** ** Fusion of one group *)

Lemma Qltb_true (a b : Q) : Qltb a b = true -> (a <= b)%Q.
Proof.
  unfold Qltb. rewrite negb_true_iff, <- not_true_iff_false, Qle_bool_iff.
  intros Hnle. apply Qlt_le_weak. by apply Qnot_le_lt.
Qed.

Lemma Qltb_false (a b : Q) : Qltb a b = false -> (b <= a)%Q.
Proof.
  unfold Qltb. rewrite negb_false_iff. apply Qle_bool_iff.
Qed.

Lemma py_max_elem_of (first : Q) (rest : list Q) :
  py_max first rest ∈ first :: rest.
Proof.
  revert first. induction rest as [|y rest IH]; intros first; [left|].
  unfold py_max. simpl.
  change (fold_left _ rest ?b) with (py_max b rest).
  destruct (Qltb first y).
  - right. apply IH.
  - specialize (IH first). apply elem_of_cons in IH as [->|IH]; [left|].
    right. by right.
Qed.

Lemma py_max_ge (first : Q) (rest : list Q) (x : Q) :
  x ∈ first :: rest -> (x <= py_max first rest)%Q.
Proof.
  revert first x. induction rest as [|y rest IH]; intros first x.
  - intros ->%list_elem_of_singleton. apply Qle_refl.
  - unfold py_max. simpl.
    change (fold_left _ rest ?b) with (py_max b rest).
    intros Hx.
    assert (first <= (if Qltb first y then y else first)
            /\ y <= (if Qltb first y then y else first))%Q as [Hf Hy].
    { destruct (Qltb first y) eqn:Hlt.
      - split; [by apply Qltb_true | apply Qle_refl].
      - split; [apply Qle_refl | by apply Qltb_false]. }
    apply elem_of_cons in Hx as [->|Hx];
      [|apply elem_of_cons in Hx as [->|Hx]].
    + eapply Qle_trans; [exact Hf|]. apply IH. left.
    + eapply Qle_trans; [exact Hy|]. apply IH. left.
    + apply IH. by right.
Qed.

Lemma confidence_or_zero_default (it : relation_record) :
  (confidence_or_zero it == default 0 (r_confidence it))%Q.
Proof.
  unfold confidence_or_zero. destruct (r_confidence it) as [q|]; simpl.
  - destruct (Qeq_bool q 0) eqn:Hq; [|reflexivity].
    symmetry. by apply Qeq_bool_iff.
  - reflexivity.
Qed.

Lemma elem_of_evidence_set (em : str) (items : list relation_record)
    (s : str) :
  s ∈ evidence_set em items <->
  em = py"union" /\ exists it, it ∈ items /\ r_evidence it = Some s.
Proof.
  unfold evidence_set.
  assert (forall acc : gset str,
    s ∈ fold_left
          (fun (ev_set : gset str) it =>
             match r_evidence it with
             | Some ev =>
                 if bool_decide (em = py"union")
                 then {[ ev ]} ∪ ev_set else ev_set
             | None => ev_set
             end) items acc
    <-> s ∈ acc
        \/ (em = py"union"
            /\ exists it, it ∈ items /\ r_evidence it = Some s)) as Hgen.
  { induction items as [|it items IH]; intros acc; simpl.
    - split; [by left|]. intros [?|(_ & it & Hin & _)]; [done|].
      by inversion Hin.
    - rewrite IH. split.
      + intros [Hacc|(Hem & it' & Hin & Hev)].
        * destruct (r_evidence it) as [ev|] eqn:Hev; [|by left].
          case_bool_decide as Hem; [|by left].
          apply elem_of_union in Hacc as [->%elem_of_singleton|?];
            [|by left].
          right. split; [done|]. exists it. split; [left | done].
        * right. split; [done|]. exists it'. split; [by right | done].
      + intros [Hacc|(Hem & it' & Hin & Hev)].
        * left. destruct (r_evidence it); [|done].
          case_bool_decide; [|done]. by apply elem_of_union_r.
        * apply elem_of_cons in Hin as [->|Hin].
          -- left. rewrite Hev, bool_decide_eq_true_2 by done.
             by apply elem_of_union_l, elem_of_singleton.
          -- right. split; [done|]. by exists it'. }
  rewrite Hgen. split; [|by right].
  intros [Hin|?]; [|done]. by apply not_elem_of_empty in Hin.
Qed.

Lemma first_chapter_spec (items : list relation_record) (c : str) :
  first_chapter items c <-> head (chapters_of items) = Some c.
Proof.
  unfold first_chapter, chapters_of. split.
  - intros (pre & it & post & -> & Hpre & Hit & Hc).
    induction Hpre as [|x pre Hx Hpre IH]; simpl.
    + rewrite Hit. by destruct c.
    + by rewrite Hx.
  - induction items as [|x items IH]; simpl; [done|].
    destruct (str_truthy (r_chapter_id x)) eqn:Hx.
    + destruct (r_chapter_id x) as [cx|] eqn:Hcx; [|done]. simpl.
      intros [= ->]. exists [], x, items.
      repeat split; try done. by intros ->.
    + intros Hhd. destruct (IH Hhd) as (pre & it & post & -> & ? & ? & ?).
      exists (x :: pre), it, post. repeat split; try done.
      by constructor.
Qed.

Lemma elem_of_chapters_of (items : list relation_record) (c : str) :
  c ∈ chapters_of items <->
  c <> [] /\ exists it, it ∈ items /\ r_chapter_id it = Some c.
Proof.
  unfold chapters_of. rewrite list_elem_of_omap. split.
  - intros (it & Hin & Hc).
    destruct (r_chapter_id it) as [[|a cx]|] eqn:Hit; simpl in Hc; try done.
    injection Hc as <-. split; [done|]. by exists it.
  - intros (Hc & it & Hin & Hit). exists it. split; [done|].
    rewrite Hit. by destruct c.
Qed.

Section FuseGroupFacts.
Context `{StrFormat}.

(** The record that [fuse_group] builds for a non-empty group. *)
Lemma fuse_group_cons (st : settings) (x : relation_record)
    (rest : list relation_record) :
  let items := x :: rest in
  exists winner confidence,
    winner ∈ items
    /\ (default (py"max") (confidence_merge (fusion st)) = py"max" ->
        confidence = py_max (confidence_or_zero x)
                       (List.map confidence_or_zero rest))
    /\ fuse_group st items
       = Some
           {| r_head := r_head winner;
              r_tail := r_tail winner;
              r_relation := r_relation winner;
              r_confidence := Some confidence;
              r_evidence :=
                Some (join (py" | ")
                        (sorted str_ltb
                           (elements
                              (evidence_set
                                 (default (py"union")
                                    (evidence_merge (fusion st)))
                                 items))));
              r_qualifiers :=
                JObj [(py"chapters",
                       JArr (List.map JStr (chapters_of items)))];
              r_chapter_id :=
                match chapters_of items with
                | c :: _ =>
                    if bool_decide
                         (default (py"first") (chapter_strategy (fusion st))
                          = py"first")
                    then Some c else None
                | [] => None
                end |}.
Proof.
  intros items. unfold fuse_group. fold items.
  pose proof (sorted_perm
    (fun a b => rank_ltb (rel_rank (precedence st) a)
                         (rel_rank (precedence st) b)) items) as Hperm.
  destruct (sorted _ items) as [|winner others] eqn:Hsorted.
  { unfold items in Hperm. by apply Permutation_nil_cons in Hperm. }
  assert (winner ∈ items) as Hwin by (rewrite <- Hperm; left).
  exists winner.
  destruct (bool_decide (default (py"max") (confidence_merge (fusion st))
                         = py"max")) eqn:Hmax.
  - exists (py_max (confidence_or_zero x)
              (List.map confidence_or_zero rest)).
    split; [done|]. split; [done|]. reflexivity.
  - exists (py_sum (List.map confidence_or_zero items)
            / inject_Z (Z.of_nat (length (List.map confidence_or_zero items))))%Q.
    split; [done|]. split; [|reflexivity].
    intros Heq. by apply bool_decide_eq_false in Hmax.
Qed.

(** [fuse_relations] returns one record per group, in the order of the
    groups, each built by [fuse_group] from a non-empty group. *)
Lemma fuse_relations_each (P : str * list relation_record ->
                               relation_record -> Prop)
    (rels : list relation_record) (st : settings)
    (groups : dict str (list relation_record)) :
  group_relations (fusion st) rels = Some groups ->
  (forall kv f,
     kv ∈ groups -> snd kv <> [] ->
     snd kv = items_of_key (fusion st) rels (fst kv) ->
     fuse_group st (snd kv) = Some f -> P kv f) ->
  exists out,
    fuse_relations rels st = Some out /\ Forall2 P groups out.
Proof.
  intros Hgroups HP. unfold fuse_relations. rewrite Hgroups. simpl.
  destruct (group_relations_spec _ _ _ Hgroups) as (_ & Hitems & _).
  assert (forall kv, kv ∈ groups ->
            snd kv <> []
            /\ snd kv = items_of_key (fusion st) rels (fst kv)) as Hall.
  { intros [k items] Hin. by apply Hitems. }
  clear Hgroups Hitems.
  induction groups as [|kv groups IH]; simpl.
  - exists []. split; [done | constructor].
  - destruct (Hall kv) as [Hne Hkey]; [left|].
    destruct (snd kv) as [|x rest] eqn:Hkv; [done|].
    destruct (fuse_group_cons st x rest) as (w & c & _ & _ & Hfuse).
    rewrite Hfuse. simpl.
    destruct IH as (out & -> & Hout).
    + intros kv' f Hin. apply HP. by right.
    + intros kv' Hin. apply Hall. by right.
    + eexists. split; [done|]. constructor; [|done].
      apply HP; [left | by rewrite Hkv | by rewrite Hkv | ].
      by rewrite Hkv.
Qed.
End FuseGroupFacts.

(** ** Fusion: evidence, chapters, confidence *)

Section FusionClaims.
Context `{StrFormat}.

Lemma fuse_group_evidence_union (st : settings)
    (items : list relation_record) (f : relation_record) :
  default (py"union") (evidence_merge (fusion st)) = py"union" ->
  fuse_group st items = Some f ->
  exists ev, r_evidence f = Some ev
             /\ sorted_join_of (fun _ => True) items ev.
Proof.
  intros Hunion Hfuse. destruct items as [|x rest]; [done|].
  destruct (fuse_group_cons st x rest) as (w & c & _ & _ & Heq).
  rewrite Heq in Hfuse. apply (inj Some) in Hfuse as <-. simpl.
  eexists. split; [done|]. eexists. split; [done|]. split.
  - apply (sorted_strictly str_ltb str_ltb_irrefl str_ltb_trans
             str_ltb_total), NoDup_elements.
  - intros s. rewrite (sorted_perm str_ltb), elem_of_elements.
    rewrite elem_of_evidence_set. split.
    + by intros [_ Hit].
    + by intros [_ Hit].
Qed.

(** C5 (amended). Under the union policy the evidence of each fused record
    is the [" | "]-join of the sorted list of the distinct evidence
    strings of its group; every evidence value that is a string counts,
    the empty string included. *)
Theorem fuse_relations_evidence_union (rels : list relation_record)
    (st : settings) (groups : dict str (list relation_record)) :
  default (py"union") (evidence_merge (fusion st)) = py"union" ->
  group_relations (fusion st) rels = Some groups ->
  exists out,
    fuse_relations rels st = Some out
    /\ Forall2
         (fun kv f =>
            exists ev, r_evidence f = Some ev
                       /\ sorted_join_of (fun _ => True) (snd kv) ev)
         groups out.
Proof.
  intros Hunion Hgroups.
  apply (fuse_relations_each _ rels st groups Hgroups).
  intros kv f _ _ _ Hfuse. by apply (fuse_group_evidence_union st).
Qed.

(** C6. The [chapters] qualifier of each fused record lists the chapter
    ids of the records of its group (one entry per record that has one,
    in input order), so it contains every chapter id present in the
    group.  Under the [first] strategy the record's [chapter_id] is the
    chapter id of the first record of the group, in input order, that has
    one, and is absent when none has; under any other strategy it is
    absent. *)
Theorem fuse_relations_chapters (rels : list relation_record)
    (st : settings) (groups : dict str (list relation_record)) :
  group_relations (fusion st) rels = Some groups ->
  exists out,
    fuse_relations rels st = Some out
    /\ Forall2
         (fun kv f =>
            snd kv = items_of_key (fusion st) rels (fst kv)
            /\ qualifier_chapters f
               = Some (List.map JStr (chapters_of (snd kv)))
            /\ (forall c, c ∈ chapters_of (snd kv) <->
                          c <> [] /\ exists it, it ∈ snd kv
                                      /\ r_chapter_id it = Some c)
            /\ (default (py"first") (chapter_strategy (fusion st))
                = py"first" ->
                forall c, r_chapter_id f = Some c
                          <-> first_chapter (snd kv) c)
            /\ (default (py"first") (chapter_strategy (fusion st))
                <> py"first" ->
                r_chapter_id f = None))
         groups out.
Proof.
  intros Hgroups.
  apply (fuse_relations_each _ rels st groups Hgroups).
  intros [k items] f _ _ Hkey Hfuse. simpl in *.
  split; [done|].
  destruct items as [|x rest]; [done|].
  destruct (fuse_group_cons st x rest) as (w & c & _ & _ & Heq).
  rewrite Heq in Hfuse. apply (inj Some) in Hfuse as <-.
  split; [reflexivity|]. split; [apply elem_of_chapters_of|].
  split.
  - intros Hfirst c'. rewrite first_chapter_spec.
    remember (chapters_of (x :: rest)) as chapters.
    destruct chapters; simpl; [by split|].
    by rewrite bool_decide_eq_true_2.
  - intros Hother. remember (chapters_of (x :: rest)) as chapters.
    destruct chapters; simpl; [done|].
    by rewrite bool_decide_eq_false_2.
Qed.

(** C8. Under the max policy the confidence of each fused record is the
    confidence of one of the records of its group and is at least the
    confidence of every record of the group, a missing confidence
    counting as 0. *)
Theorem fuse_relations_confidence_max (rels : list relation_record)
    (st : settings) (groups : dict str (list relation_record)) :
  default (py"max") (confidence_merge (fusion st)) = py"max" ->
  group_relations (fusion st) rels = Some groups ->
  exists out,
    fuse_relations rels st = Some out
    /\ Forall2
         (fun kv f =>
            snd kv <> []
            /\ exists c,
                 r_confidence f = Some c
                 /\ (forall it, it ∈ snd kv ->
                       (default 0 (r_confidence it) <= c)%Q)
                 /\ (exists it, it ∈ snd kv
                                /\ c = confidence_or_zero it))
         groups out.
Proof.
  intros Hmax Hgroups.
  apply (fuse_relations_each _ rels st groups Hgroups).
  intros [k items] f _ Hne _ Hfuse. simpl in *. split; [done|].
  destruct items as [|x rest]; [done|].
  destruct (fuse_group_cons st x rest) as (w & c & _ & Hc & Heq).
  rewrite Heq in Hfuse. apply (inj Some) in Hfuse as <-.
  specialize (Hc Hmax). exists c. split; [done|]. split.
  - intros it Hit. rewrite <- confidence_or_zero_default, Hc.
    apply py_max_ge.
    change (confidence_or_zero it
            ∈ List.map confidence_or_zero (x :: rest)).
    apply list_elem_of_In, in_map. by apply list_elem_of_In.
  - pose proof (py_max_elem_of (confidence_or_zero x)
                  (List.map confidence_or_zero rest)) as Hin.
    rewrite <- Hc in Hin.
    change (c ∈ List.map confidence_or_zero (x :: rest)) in Hin.
    apply list_elem_of_In, in_map_iff in Hin as (it & <- & Hit).
    exists it. by rewrite list_elem_of_In.
Qed.
End FusionClaims.

Lemma fuse_relations_evidence_union_witness :
  exists out,
    @fuse_relations default_key_format Sample.rels Sample.st = Some out
    /\ Forall2
         (fun kv f =>
            exists ev, r_evidence f = Some ev
                       /\ sorted_join_of (fun _ => True) (snd kv) ev)
         Sample.groups out.
Proof.
  apply (@fuse_relations_evidence_union default_key_format
           Sample.rels Sample.st Sample.groups);
    vm_compute; reflexivity.
Defined.

(** C5, as stated, fails: an empty evidence string is a member of the
    evidence set, so it is joined with the others. *)
Lemma fuse_relations_evidence_nonempty_counterexample :
  exists f,
    @fuse_relations default_key_format [Sample.r1; Sample.r2] Sample.st
      = Some [f]
    /\ r_evidence f = Some (py" | 师父")
    /\ ~ sorted_join_of (fun s => s <> []) [Sample.r1; Sample.r2]
           (py" | 师父").
Proof.
  eexists. split; [vm_compute; reflexivity|]. split; [reflexivity|].
  intros (l & Hjoin & Hsorted & Hmem).
  assert (forall s, s ∈ l -> s = py"师父") as Hall.
  { intros s (Hne & it & Hit & Hev)%Hmem.
    apply elem_of_cons in Hit as [->|Hit].
    - by injection Hev as <-.
    - apply list_elem_of_singleton in Hit as ->. by injection Hev as <-. }
  destruct l as [|a [|b l]].
  - vm_compute in Hjoin. discriminate.
  - rewrite (Hall a) in Hjoin by left. vm_compute in Hjoin. discriminate.
  - apply StronglySorted_inv in Hsorted as [_ Hab].
    apply Forall_cons in Hab as [Hab _]. unfold str_lt in Hab.
    rewrite (Hall a), (Hall b) in Hab by (try left; right; left).
    by rewrite str_ltb_irrefl in Hab.
Qed.

Lemma fuse_relations_chapters_witness :
  exists out,
    @fuse_relations default_key_format Sample.rels Sample.st = Some out
    /\ Forall2
         (fun kv f =>
            snd kv = @items_of_key default_key_format
                       (fusion Sample.st) Sample.rels (fst kv)
            /\ qualifier_chapters f
               = Some (List.map JStr (chapters_of (snd kv)))
            /\ (forall c, c ∈ chapters_of (snd kv) <->
                          c <> [] /\ exists it, it ∈ snd kv
                                      /\ r_chapter_id it = Some c)
            /\ (default (py"first") (chapter_strategy (fusion Sample.st))
                = py"first" ->
                forall c, r_chapter_id f = Some c
                          <-> first_chapter (snd kv) c)
            /\ (default (py"first") (chapter_strategy (fusion Sample.st))
                <> py"first" ->
                r_chapter_id f = None))
         Sample.groups out.
Proof.
  apply (@fuse_relations_chapters default_key_format
           Sample.rels Sample.st Sample.groups).
  vm_compute. reflexivity.
Defined.

Lemma fuse_relations_confidence_max_witness :
  exists out,
    @fuse_relations default_key_format Sample.rels Sample.st = Some out
    /\ Forall2
         (fun kv f =>
            snd kv <> []
            /\ exists c,
                 r_confidence f = Some c
                 /\ (forall it, it ∈ snd kv ->
                       (default 0 (r_confidence it) <= c)%Q)
                 /\ (exists it, it ∈ snd kv /\ c = confidence_or_zero it))
         Sample.groups out.
Proof.
  apply (@fuse_relations_confidence_max default_key_format
           Sample.rels Sample.st Sample.groups);
    vm_compute; reflexivity.
Defined.

(** The fused records of the sample: the group of 悟空 and 唐僧 keeps the
    label that has precedence, the highest confidence, both distinct
    evidence strings next to the empty one, and the chapter ids of its
    records, one entry per record. *)
Example fuse_relations_sample :
  @fuse_relations default_key_format Sample.rels Sample.st
  = Some
      [ {| r_head := Some (py"悟空"); r_relation := Some (py"师徒");
           r_tail := Some (py"唐僧"); r_confidence := Some (95 # 100);
           r_evidence := Some (py" | 不识好歹 | 师父");
           r_qualifiers :=
             JObj [(py"chapters",
                    JArr [JStr (py"001"); JStr (py"002"); JStr (py"002")])];
           r_chapter_id := Some (py"001") |};
        {| r_head := Some (py"八戒"); r_relation := Some (py"师徒");
           r_tail := Some (py"唐僧"); r_confidence := Some (7 # 10);
           r_evidence := Some [];
           r_qualifiers := JObj [(py"chapters", JArr [JStr (py"001")])];
           r_chapter_id := Some (py"001") |} ].
Proof. vm_compute. reflexivity. Qed.

(** ** Output of normalization *)

Lemma add_entity_elem_of (st : gset str * list entity) (n : option str)
    (e : entity) :
  e ∈ snd (add_entity st n) -> e ∈ snd st \/ n = Some (name e).
Proof.
  unfold add_entity. destruct n as [[|c n]|]; try by left.
  case_bool_decide; [by left|]. simpl.
  intros [Hin|Hin]%elem_of_app; [by left|].
  apply list_elem_of_singleton in Hin as ->. by right.
Qed.

Section OutputFacts.
Context `{Regex}.

(** Every collected entity is an endpoint of one of the relations or the
    canonical name of a hinted entity. *)
Lemma collect_entities_elem_of (rels : list relation_record)
    (hints : list entity_hint) (syn : dict str str) (alias : alias_rules)
    (e : entity) :
  e ∈ collect_entities rels hints syn alias ->
  (exists r, r ∈ rels
             /\ (r_head r = Some (name e) \/ r_tail r = Some (name e)))
  \/ (exists h, h ∈ hints
                /\ canonical_norm (hint_name h) syn alias = name e).
Proof.
  unfold collect_entities.
  assert (forall l st,
    e ∈ snd (fold_left
               (fun st r =>
                  add_entity (add_entity st (r_head r)) (r_tail r)) l st) ->
    e ∈ snd st
    \/ exists r, r ∈ l
         /\ (r_head r = Some (name e) \/ r_tail r = Some (name e)))
    as Hrels.
  { induction l as [|r l IH]; intros st; cbn [fold_left]; [by left|].
    intros [Hin|(r' & Hr' & Hends)]%IH.
    - apply add_entity_elem_of in Hin as [Hin|Ht].
      + apply add_entity_elem_of in Hin as [Hin|Hh]; [by left|].
        right. exists r. split; [left | by left].
      + right. exists r. split; [left | by right].
    - right. exists r'. split; [by right | done]. }
  assert (forall l st,
    e ∈ snd (fold_left
               (fun st h =>
                  add_entity st
                    (Some (canonical_norm (hint_name h) syn alias))) l st) ->
    e ∈ snd st
    \/ exists h, h ∈ l /\ canonical_norm (hint_name h) syn alias = name e)
    as Hhints.
  { induction l as [|h l IH]; intros st; cbn [fold_left]; [by left|].
    intros [Hin|(h' & Hh' & Hname)]%IH.
    - apply add_entity_elem_of in Hin as [Hin|Hn]; [by left|].
      right. exists h. split; [left | congruence].
    - right. exists h'. split; [by right | done]. }
  intros [Hin|Hin]%Hhints; [|by right].
  apply Hrels in Hin as [Hin|Hin]; [by inversion Hin | by left].
Qed.

Lemma fold_left_snoc_map {A B : Type} (f : A -> B) (l : list A)
    (acc : list B) :
  fold_left (fun acc x => acc ++ [f x]) l acc = acc ++ List.map f l.
Proof.
  revert acc. induction l as [|x l IH]; intros acc; simpl.
  - by rewrite app_nil_r.
  - by rewrite IH, <- app_assoc.
Qed.

Lemma synonym_record_in_output (raw : payload) (tpl_id : str)
    (synonyms_map : dict str str) (rules labels : list str) (ac : str * str) :
  ac ∈ synonyms_map ->
  synonym_alias_record ac
  ∈ relations (normalize_output raw tpl_id synonyms_map rules labels).
Proof.
  intros Hin. unfold normalize_output. simpl.
  apply elem_of_app. right.
  rewrite (fold_left_snoc_map synonym_alias_record). simpl.
  apply list_elem_of_In, in_map. by apply list_elem_of_In.
Qed.

(** C7 (amended). [normalize_output] appends to the normalized relations
    one ALIAS record per entry of the synonym table, in the order of the
    table: its head is the raw key, its tail is the target as the table
    gives it (it is not canonicalized), its confidence is 0.99 and its
    qualifiers are [{alias_source: synonyms_map}]. *)
Theorem normalize_output_synonym_records (raw : payload) (tpl_id : str)
    (synonyms_map : dict str str) (rules labels : list str) :
  relations (normalize_output raw tpl_id synonyms_map rules labels)
  = normalize_relations raw synonyms_map (parse_alias_rules rules) labels
    ++ List.map synonym_alias_record synonyms_map.
Proof.
  unfold normalize_output. simpl. f_equal.
  apply (fold_left_snoc_map synonym_alias_record).
Qed.

(** C10. The entities of the output are collected from the normalized
    relations and the hinted entities, without the synthetic ALIAS
    records.  So the raw key of a synonym entry that is neither an
    endpoint of a normalized relation nor the canonical name of a hinted
    entity is the head of an ALIAS record of the output and is not among
    its entities. *)
Theorem normalize_output_alias_key_not_entity (raw : payload)
    (tpl_id : str) (synonyms_map : dict str str) (rules labels : list str) :
  let alias := parse_alias_rules rules in
  let rels := normalize_relations raw synonyms_map alias labels in
  let hints := default [] (entities_hint_of raw) in
  let out := normalize_output raw tpl_id synonyms_map rules labels in
  entities out = collect_entities rels hints synonyms_map alias
  /\ forall a c,
       (a, c) ∈ synonyms_map ->
       (forall r, r ∈ rels -> r_head r <> Some a /\ r_tail r <> Some a) ->
       (forall h, h ∈ hints ->
          canonical_norm (hint_name h) synonyms_map alias <> a) ->
       (exists r, r ∈ relations out
                  /\ r_head r = Some a /\ r_relation r = Some ALIAS)
       /\ {| name := a |} ∉ entities out.
Proof.
  intros alias rels hints out. split; [reflexivity|].
  intros a c Hac Hrels Hhints. split.
  - exists (synonym_alias_record (a, c)). split; [|done].
    by apply synonym_record_in_output.
  - intros Hin. change (entities out)
      with (collect_entities rels hints synonyms_map alias) in Hin.
    apply collect_entities_elem_of in Hin
      as [(r & Hr & Hends)|(h & Hh & Hname)].
    + destruct (Hrels r Hr) as [Hhead Htail]. by destruct Hends.
    + by apply (Hhints h Hh).
Qed.
End OutputFacts.

(** C7, as stated, fails: the tail of a synthetic record is the target as
    written in the table, which need not be its canonical form. *)
Lemma normalize_output_synonym_tail_counterexample :
  let syn := [(py"行者", py"悟空"); (py"悟空", py"孙悟空")] in
  let out :=
    @normalize_output whole_match_regex (PayloadList []) (py"t1") syn [] [] in
  relations out
  = [synonym_alias_record (py"行者", py"悟空");
     synonym_alias_record (py"悟空", py"孙悟空")]
  /\ @canonical_norm whole_match_regex (Some (py"悟空")) syn
       (parse_alias_rules []) = py"孙悟空"
  /\ forall r, r ∈ relations out -> r_head r = Some (py"行者") ->
       r_tail r = Some (py"悟空")
       /\ r_tail r
          <> Some (@canonical_norm whole_match_regex (Some (py"悟空")) syn
                     (parse_alias_rules [])).
Proof.
  intros syn out.
  assert (relations out
          = [synonym_alias_record (py"行者", py"悟空");
             synonym_alias_record (py"悟空", py"孙悟空")]) as Hrel
    by (vm_compute; reflexivity).
  split; [exact Hrel|]. split; [vm_compute; reflexivity|].
  intros r Hr Hhead. rewrite Hrel in Hr.
  apply elem_of_cons in Hr as [->|Hr].
  - split; [reflexivity|]. vm_compute. discriminate.
  - apply list_elem_of_singleton in Hr as ->. vm_compute in Hhead.
    discriminate.
Qed.

Lemma normalize_output_alias_key_not_entity_witness :
  let syn := [(py"行者", py"悟空")] in
  let raw :=
    PayloadList
      [{| rr_head := Some (py"行者"); rr_subject := None;
          rr_tail := Some (py"唐僧"); rr_object := None;
          rr_type := Some (py"师徒"); rr_relation := None;
          rr_confidence := Some (9 # 10); rr_evidence := None;
          rr_qualifiers := JNull |}] in
  let out :=
    @normalize_output whole_match_regex raw (py"t1") syn [] [] in
  (exists r, r ∈ relations out
             /\ r_head r = Some (py"行者") /\ r_relation r = Some ALIAS)
  /\ {| name := py"行者" |} ∉ entities out.
Proof.
  intros syn raw out.
  apply (proj2 (@normalize_output_alias_key_not_entity whole_match_regex
                  raw (py"t1") syn [] []) (py"行者") (py"悟空")).
  - left.
  - intros r Hr. vm_compute in Hr.
    apply list_elem_of_singleton in Hr as ->. split; vm_compute; discriminate.
  - intros h Hh. vm_compute in Hh. by inversion Hh.
Defined.

(** ** Event participants *)

Lemma elem_of_dict_keys_inv {K V : Type} (d : dict K V) (k : K) :
  k ∈ dict_keys d -> exists v, (k, v) ∈ d.
Proof.
  unfold dict_keys. intros Hin.
  apply list_elem_of_In, in_map_iff in Hin as ([k' v] & <- & Hin).
  exists v. by apply list_elem_of_In.
Qed.

Section ParticipantFacts.
Context `{Regex}.

Lemma normalize_participants_list (syn : dict str str)
    (alias : alias_rules) (l : list participant) :
  normalize_participants syn alias (PartsList l)
  = fold_left (add_participant syn alias) l [].
Proof. by destruct l. Qed.

Lemma names_of_role_snoc (syn : dict str str) (alias : alias_rules)
    (l : list participant) (p : participant) (role : str) :
  names_of_role syn alias (l ++ [p]) role
  = names_of_role syn alias l role
    ++ (if bool_decide (role_of p = role) then [entity_of syn alias p]
        else []).
Proof.
  unfold names_of_role. rewrite List.filter_app, map_app. simpl.
  by destruct (bool_decide (role_of p = role)).
Qed.

Lemma names_of_role_nil_iff (syn : dict str str) (alias : alias_rules)
    (l : list participant) (role : str) :
  names_of_role syn alias l role <> [] <->
  exists p, p ∈ l /\ role_of p = role.
Proof.
  unfold names_of_role. split.
  - destruct (List.filter _ l) as [|p l'] eqn:Hf; [done|]. intros _.
    assert (In p (List.filter
                    (fun p => bool_decide (role_of p = role)) l)) as Hin
      by (rewrite Hf; by left).
    apply filter_In in Hin as [Hin Hrole]. exists p.
    split; [by apply list_elem_of_In | by apply bool_decide_eq_true in Hrole].
  - intros (p & Hin & Hrole) Hnil. apply map_eq_nil in Hnil.
    assert (In p (List.filter
                    (fun p => bool_decide (role_of p = role)) l)) as Hin'.
    { apply filter_In. split; [by apply list_elem_of_In|].
      by apply bool_decide_eq_true. }
    by rewrite Hnil in Hin'.
Qed.

(** What the loop over a list of pairs builds. *)
Lemma fold_add_participant_spec (syn : dict str str) (alias : alias_rules)
    (l : list participant) :
  let d := fold_left (add_participant syn alias) l [] in
  NoDup (dict_keys d)
  /\ (forall role names, (role, names) ∈ d ->
        role <> [] /\ names <> []
        /\ names = names_of_role syn alias l role)
  /\ (forall p, p ∈ l -> role_of p <> [] -> role_of p ∈ dict_keys d).
Proof.
  induction l as [|p l IH] using rev_ind.
  - simpl. split; [constructor|]. split.
    + intros role names Hin. by inversion Hin.
    + intros p Hin. by inversion Hin.
  - rewrite fold_left_app. simpl.
    destruct IH as (Hnd & Hitems & Hkeys).
    set (d := fold_left (add_participant syn alias) l []) in *.
    unfold add_participant.
    destruct (bool_decide (role_of p = [])) eqn:Hrole; simpl.
    { apply bool_decide_eq_true in Hrole.
      split; [done|]. split.
      - intros role names Hin.
        destruct (Hitems role names Hin) as (Hne & Hnames & ->).
        repeat split; try done.
        rewrite names_of_role_snoc, bool_decide_eq_false_2 by congruence.
        by rewrite app_nil_r.
      - intros p' [Hp'|Hp']%elem_of_app; [by apply Hkeys|].
        apply list_elem_of_singleton in Hp' as ->. done. }
    apply bool_decide_eq_false in Hrole.
    unfold dict_append.
    destruct (dict_get d (role_of p)) as [names0|] eqn:Hget.
    + assert (role_of p ∈ dict_keys d) as Hkin.
      { by eapply elem_of_dict_keys, dict_get_Some_elem_of. }
      rewrite dict_keys_set by done.
      split; [done|]. split.
      * intros role names Hel.
        apply elem_of_dict_set in Hel as [[-> ->]|[Hne Hel]]; try done.
        -- split; [done|]. split; [by destruct names0|].
           rewrite names_of_role_snoc, bool_decide_eq_true_2 by done.
           f_equal. by apply Hitems, dict_get_Some_elem_of.
        -- destruct (Hitems role names Hel) as (? & ? & ->).
           repeat split; try done.
           rewrite names_of_role_snoc, bool_decide_eq_false_2 by done.
           by rewrite app_nil_r.
      * intros p' [Hp'|Hp']%elem_of_app; [by apply Hkeys|].
        apply list_elem_of_singleton in Hp' as ->. done.
    + apply dict_get_None in Hget.
      assert (dict_keys (d ++ [(role_of p, [entity_of syn alias p])])
              = dict_keys d ++ [role_of p]) as ->
        by (unfold dict_keys; by rewrite map_app).
      split.
      { apply NoDup_app. split; [done|].
        split; [|apply NoDup_singleton].
        intros k' Hk' ->%list_elem_of_singleton. done. }
      split.
      * intros role names [Hel|Hel]%elem_of_app.
        -- destruct (Hitems role names Hel) as (? & ? & ->).
           repeat split; try done.
           rewrite names_of_role_snoc, bool_decide_eq_false_2.
           ++ by rewrite app_nil_r.
           ++ intros Heq. apply Hget. rewrite Heq.
              by eapply elem_of_dict_keys.
        -- apply list_elem_of_singleton in Hel. injection Hel as -> ->.
           repeat split; try done.
           rewrite names_of_role_snoc, bool_decide_eq_true_2 by done.
           destruct (names_of_role syn alias l (role_of p)) eqn:Hn; [done|].
           exfalso.
           assert (names_of_role syn alias l (role_of p) <> []) as Hne
             by (by rewrite Hn).
           apply names_of_role_nil_iff in Hne as (p' & Hp' & Heq).
           apply Hget. rewrite <- Heq. apply Hkeys; [done|]. by rewrite Heq.
      * intros p' [Hp'|Hp']%elem_of_app Hne.
        -- apply elem_of_app. left. by apply Hkeys.
        -- apply list_elem_of_singleton in Hp' as ->.
           apply elem_of_app. right. left.
Qed.

Lemma fold_add_participant_filter (syn : dict str str)
    (alias : alias_rules) (l : list participant) (d : dict str (list str)) :
  fold_left (add_participant syn alias) (List.filter has_role l) d
  = fold_left (add_participant syn alias) l d.
Proof.
  revert d. induction l as [|p l IH]; intros d; simpl; [done|].
  unfold has_role at 1. destruct (bool_decide (role_of p = [])) eqn:Hp.
  - simpl. rewrite IH. f_equal. unfold add_participant. by rewrite Hp.
  - simpl. apply IH.
Qed.

Lemma normalize_events_payload (syn : dict str str) (alias : alias_rules)
    (obj : payload) (evs : list raw_event) :
  payload_events obj evs ->
  normalize_events obj syn alias = List.map (event_of syn alias) evs.
Proof.
  intros Hevs.
  assert (events_of obj = evs) as <-.
  { destruct obj as [pd| |]; simpl in *; try done.
    destruct Hevs as [[-> Hne]|[Hnone Hplus]].
    - by destruct evs.
    - assert (match pl_events pd with
              | Some (e :: l) => e :: l
              | _ => default [] (pl_event_plus_relation pd)
              end = default [] (pl_event_plus_relation pd)) as ->
        by (by destruct Hnone as [-> | ->]).
      by destruct Hplus as [-> |[-> ->]]. }
  unfold normalize_events.
  change (normalize_event syn alias)
    with (fun out e => out ++ [event_of syn alias e]).
  by rewrite (fold_left_snoc_map (event_of syn alias)).
Qed.

(** C9. When the participants of an event of the payload are a list of
    pairs, the output of [normalize_events] has, at the position of that
    event, an event whose participants mapping is built from the pairs
    with a non-empty role alone: the pairs whose role is missing or empty
    are dropped.  The keys of the mapping are the distinct non-empty roles,
    and each role is mapped to the canonical names of the pairs with that
    role, in the order of the list. *)
Theorem normalize_events_participants_list (syn : dict str str)
    (alias : alias_rules) (l : list participant) :
  let d := normalize_participants syn alias (PartsList l) in
  (forall obj evs i e,
     payload_events obj evs ->
     evs !! i = Some e -> e_participants e = PartsList l ->
     length (normalize_events obj syn alias) = length evs
     /\ exists ev, normalize_events obj syn alias !! i = Some ev
                   /\ ev_participants ev = d)
  /\ (forall out e, e_participants e = PartsList l ->
     exists ev, normalize_event syn alias out e = out ++ [ev]
                /\ ev_participants ev = d)
  /\ d = normalize_participants syn alias
           (PartsList (List.filter has_role l))
  /\ NoDup (dict_keys d)
  /\ (forall role names,
        (role, names) ∈ d <->
        role <> [] /\ names <> []
        /\ names = names_of_role syn alias l role)
  /\ (forall role names n,
        (role, names) ∈ d -> n ∈ names ->
        exists p, p ∈ l /\ has_role p = true /\ role_of p = role
                  /\ n = entity_of syn alias p).
Proof.
  intros d. unfold d. rewrite !normalize_participants_list.
  destruct (fold_add_participant_spec syn alias l) as (Hnd & Hitems & Hkeys).
  assert (forall role names,
    (role, names) ∈ fold_left (add_participant syn alias) l [] <->
    role <> [] /\ names <> [] /\ names = names_of_role syn alias l role)
    as Hiff.
  { intros role names. split; [apply Hitems|].
    intros (Hrole & Hne & ->).
    apply names_of_role_nil_iff in Hne as (p & Hp & <-).
    destruct (elem_of_dict_keys_inv _ _ (Hkeys p Hp Hrole))
      as [names' Hel].
    by destruct (Hitems _ _ Hel) as (_ & _ & <-). }
  split; [|split; [|split; [|split; [|split]]]]; try done.
  - intros obj evs i e Hevs Hi He.
    rewrite (normalize_events_payload syn alias obj evs Hevs).
    split; [apply length_map|].
    exists (event_of syn alias e). split.
    + change (List.map (event_of syn alias) evs)
        with (event_of syn alias <$> evs).
      by rewrite list_lookup_fmap, Hi.
    + simpl. by rewrite He, normalize_participants_list.
  - intros out e He. eexists. split; [reflexivity|]. simpl.
    by rewrite He, normalize_participants_list.
  - by rewrite fold_add_participant_filter.
  - intros role names n (Hrole & _ & ->)%Hiff Hn.
    unfold names_of_role in Hn.
    apply list_elem_of_In, in_map_iff in Hn as (p & <- & Hp).
    apply filter_In in Hp as [Hp Hpr]. apply bool_decide_eq_true in Hpr.
    exists p. split; [by apply list_elem_of_In|].
    split; [|done]. unfold has_role.
    rewrite bool_decide_eq_false_2; [done | by rewrite Hpr].
Qed.
End ParticipantFacts.

Lemma normalize_events_participants_list_witness :
  let syn := [(py"行者", py"孙悟空")] in
  let alias :=
    {| strip_tokens := [];
       regex_rules := [] : list (@pattern whole_match_regex * str) |} in
  let l :=
    [{| p_role := Some (py"主角"); p_entity := Some (py"行者") |};
     {| p_role := None; p_entity := Some (py"土地") |};
     {| p_role := Some (py"对手"); p_entity := Some (py"白骨精") |};
     {| p_role := Some []; p_entity := Some (py"山神") |};
     {| p_role := Some (py"主角"); p_entity := Some (py"唐僧") |}] in
  let e :=
    {| e_event_type := Some (py"战斗"); e_type := None; e_time := JNull;
       e_location := JStr (py"白虎岭"); e_participants := PartsList l;
       e_evidence := JNull; e_confidence := JNum (9 # 10) |} in
  let obj :=
    PayloadDict
      {| pl_relations := None; pl_relation_with_meta := None;
         pl_events := Some [e]; pl_event_plus_relation := None;
         pl_entities := None; pl_meta := JNull |} in
  normalize_events obj syn alias
  = [{| ev_event_type := py"战斗"; ev_time := JNull;
        ev_location := JStr (py"白虎岭");
        ev_participants :=
          [(py"主角", [py"孙悟空"; py"唐僧"]); (py"对手", [py"白骨精"])];
        ev_evidence := JNull; ev_confidence := JNum (9 # 10) |}]
  /\ length (normalize_events obj syn alias) = length [e]
  /\ exists ev, normalize_events obj syn alias !! 0 = Some ev
                /\ ev_participants ev
                   = normalize_participants syn alias (PartsList l).
Proof.
  intros syn alias l e obj. split; [vm_compute; reflexivity|].
  apply (proj1 (@normalize_events_participants_list whole_match_regex
                  syn alias l) obj [e] 0 e).
  - left. split; [reflexivity | discriminate].
  - reflexivity.
  - reflexivity.
Defined.

(** * Further properties of the code *)

(** ** Stripping and strip tokens *)

Lemma lstrip_head (s : str) (c : char) :
  head (lstrip s) = Some c -> is_space c = false.
Proof.
  induction s as [|a s IH]; simpl; [done|].
  destruct (is_space a) eqn:Ha; [exact IH|].
  simpl. by intros [= <-].
Qed.

Lemma lstrip_last (s : str) :
  lstrip s = [] \/ last (lstrip s) = last s.
Proof.
  induction s as [|a s IH]; simpl; [by left|].
  destruct (is_space a); [|by right].
  destruct IH as [IH|IH]; [by left|].
  destruct s as [|b s]; [by left|]. right. by rewrite IH.
Qed.

Lemma rstrip_last (s : str) (c : char) :
  last (rstrip s) = Some c -> is_space c = false.
Proof.
  unfold rstrip. destruct (lstrip (rev s)) as [|a l] eqn:Hl; [done|].
  simpl. rewrite last_snoc. intros [= <-].
  apply (lstrip_head (rev s)). by rewrite Hl.
Qed.

Lemma strip_head (s : str) (c : char) :
  head (strip s) = Some c -> is_space c = false.
Proof. apply lstrip_head. Qed.

Lemma strip_last (s : str) (c : char) :
  last (strip s) = Some c -> is_space c = false.
Proof.
  unfold strip. destruct (lstrip_last (rstrip s)) as [-> | ->]; [done|].
  apply rstrip_last.
Qed.

Lemma startswith_app (t x : str) : startswith (t ++ x) t = true.
Proof. apply startswith_spec. by exists x. Qed.

Lemma endswith_app (x t : str) : endswith (x ++ t) t = true.
Proof.
  unfold endswith. rewrite rev_app_distr. apply startswith_app.
Qed.

Lemma strip_token_nil (n : str) : strip_token n [] = [].
Proof.
  unfold strip_token. simpl. unfold endswith. simpl.
  by destruct (rev (slice_from n 0)).
Qed.

Lemma strip_token_of_nil (tok : str) : strip_token [] tok = [].
Proof.
  unfold strip_token, slice_from, slice_to_neg, endswith.
  destruct tok as [|c tok]; [done|]. simpl.
  by destruct (startswith [] (rev tok ++ [c])).
Qed.

Lemma fold_strip_token_of_nil (toks : list str) :
  fold_left strip_token toks [] = [].
Proof.
  induction toks as [|tok toks IH]; simpl; [done|].
  by rewrite strip_token_of_nil.
Qed.

Lemma strip_token_length (n tok : str) :
  length (strip_token n tok) <= length n.
Proof.
  unfold strip_token, slice_from, slice_to_neg. cbv zeta.
  destruct (startswith n tok);
    (destruct (endswith _ tok);
     [destruct (length tok) eqn:Hlen; simpl;
      rewrite ?length_take, ?length_drop; lia
     |rewrite ?length_drop; lia]).
Qed.

Section StripTokenFacts.
Context `{Regex}.

(** X1. A name never begins or ends with a whitespace character after
    [canonical_norm] or [canonical_original]. *)
Theorem canonical_names_trimmed (name : option str) (syn : dict str str)
    (alias : alias_rules) (c : char) :
  (head (canonical_norm name syn alias) = Some c -> is_space c = false)
  /\ (last (canonical_norm name syn alias) = Some c -> is_space c = false)
  /\ (head (canonical_original name alias) = Some c -> is_space c = false)
  /\ (last (canonical_original name alias) = Some c -> is_space c = false).
Proof.
  unfold canonical_norm, canonical_original.
  repeat split; first [apply strip_head | apply strip_last].
Qed.

(** X2. An empty strip token erases every name: [n[:-len(tok)]] is [n[:0]]
    when [tok] is empty, and the empty string stays empty under the tokens
    that follow. *)
Theorem canonical_norm_empty_strip_token (name : option str)
    (syn : dict str str) (alias : alias_rules) :
  [] ∈ strip_tokens alias ->
  canonical_norm name syn alias = [].
Proof.
  intros Hin. apply list_elem_of_split in Hin as (l1 & l2 & Hsplit).
  unfold canonical_norm. rewrite Hsplit, fold_left_app. simpl.
  by rewrite strip_token_nil, fold_strip_token_of_nil.
Qed.

(** X3. One pass of a non-empty strip token removes it once from the front
    and once from the back; a name without the token at either end is left
    as it is; and no pass makes a name longer. *)
Theorem strip_token_once (tok m n : str) :
  tok <> [] ->
  strip_token (tok ++ m ++ tok) tok = m
  /\ (startswith n tok = false -> endswith n tok = false ->
      strip_token n tok = n)
  /\ length (strip_token n tok) <= length n.
Proof.
  intros Htok. split; [|split].
  - unfold strip_token, slice_from, slice_to_neg.
    rewrite startswith_app, drop_app_length, endswith_app.
    destruct tok as [|c tok]; [done|].
    change (length (c :: tok)) with (S (length tok)).
    rewrite length_app. simpl length.
    replace (length m + S (length tok) - S (length tok)) with (length m)
      by lia.
    by rewrite take_app_length.
  - intros Hs He. unfold strip_token. by rewrite Hs, He.
  - apply strip_token_length.
Qed.
End StripTokenFacts.

Lemma canonical_norm_empty_strip_token_witness :
  let alias :=
    {| strip_tokens := [py"大圣"; []];
       regex_rules := [] : list (@pattern whole_match_regex * str) |} in
  canonical_norm (Some (py"齐天大圣")) [] alias = [].
Proof.
  intros alias.
  apply (@canonical_norm_empty_strip_token whole_match_regex).
  right. left.
Defined.

Lemma strip_token_once_witness :
  @strip_token (py"《西游记》") (py"《") = py"西游记》"
  /\ @strip_token (py"大" ++ py"圣" ++ py"大") (py"大") = py"圣".
Proof.
  split; [vm_compute; reflexivity|].
  apply (strip_token_once (py"大") (py"圣") []).
  vm_compute. discriminate.
Defined.

(** ** Parsing of alias rules *)

Lemma lit_strip : py"strip:" = [0x73; 0x74; 0x72; 0x69; 0x70; 0x3A]%N.
Proof. reflexivity. Qed.

Lemma lit_regex : py"regex:" = [0x72; 0x65; 0x67; 0x65; 0x78; 0x3A]%N.
Proof. reflexivity. Qed.

Lemma before_first_app (c : char) (p rest : str) :
  c ∉ p -> before_first c (p ++ c :: rest) = p.
Proof.
  induction p as [|a p IH]; simpl.
  - intros _. by rewrite bool_decide_eq_true_2.
  - intros [Hne Hnin]%not_elem_of_cons.
    rewrite bool_decide_eq_false_2 by done. by rewrite IH.
Qed.

Lemma after_first_app (c : char) (p rest : str) :
  c ∉ p -> after_first c (p ++ c :: rest) = Some rest.
Proof.
  induction p as [|a p IH]; simpl.
  - intros _. by rewrite bool_decide_eq_true_2.
  - intros [Hne Hnin]%not_elem_of_cons.
    rewrite bool_decide_eq_false_2 by done. by apply IH.
Qed.

Lemma after_first_None (c : char) (s : str) :
  c ∉ s -> after_first c s = None.
Proof.
  induction s as [|a s IH]; simpl; [done|].
  intros [Hne Hnin]%not_elem_of_cons.
  rewrite bool_decide_eq_false_2 by done. by apply IH.
Qed.

Lemma contains_singleton (s : str) (c : char) :
  contains s [c] = true <-> c ∈ s.
Proof.
  rewrite contains_spec. unfold is_substring. split.
  - intros (a & b & ->). apply elem_of_app. right. left.
  - intros (a & b & ->)%list_elem_of_split. by exists a, b.
Qed.

Section ParseFacts.
Context `{Regex}.

Lemma parse_alias_rule_acc (acc : alias_rules) (s : str) :
  parse_alias_rule acc s
  = {| strip_tokens :=
         strip_tokens acc ++ strip_tokens (parse_alias_rule no_alias_rules s);
       regex_rules :=
         regex_rules acc ++ regex_rules (parse_alias_rule no_alias_rules s) |}.
Proof.
  unfold parse_alias_rule, no_alias_rules. destruct acc as [toks res].
  repeat case_match; simpl; by rewrite ?app_nil_r.
Qed.

Lemma fold_parse_alias_rule (l : list str) (acc : alias_rules) :
  fold_left parse_alias_rule l acc
  = {| strip_tokens := strip_tokens acc ++ strip_tokens (parse_alias_rules l);
       regex_rules := regex_rules acc ++ regex_rules (parse_alias_rules l) |}.
Proof.
  unfold parse_alias_rules. revert acc.
  induction l as [|s l IH]; intros acc; simpl.
  - destruct acc. simpl. by rewrite !app_nil_r.
  - rewrite IH, (IH (parse_alias_rule _ s)).
    rewrite (parse_alias_rule_acc acc s). simpl.
    fold no_alias_rules. by rewrite !app_assoc.
Qed.

Lemma parse_alias_rules_single_tokens (s : str) :
  Forall (fun tok => tok <> [] /\ strip tok = tok)
    (strip_tokens (parse_alias_rules [s])).
Proof.
  unfold parse_alias_rules. simpl. unfold parse_alias_rule.
  repeat case_match; simpl; try by constructor.
  constructor; [|constructor]. split.
  - match goal with
    | Hb : negb (bool_decide _) = true |- _ =>
        apply negb_true_iff, bool_decide_eq_false in Hb
    end. done.
  - apply strip_idem.
Qed.

(** X4. The rules are parsed one by one and kept in order: the rule set of
    a concatenation is the concatenation of the rule sets. *)
Theorem parse_alias_rules_app (l1 l2 : list str) :
  strip_tokens (parse_alias_rules (l1 ++ l2))
  = strip_tokens (parse_alias_rules l1) ++ strip_tokens (parse_alias_rules l2)
  /\ regex_rules (parse_alias_rules (l1 ++ l2))
     = regex_rules (parse_alias_rules l1)
       ++ regex_rules (parse_alias_rules l2).
Proof.
  unfold parse_alias_rules at 1 4. rewrite !fold_left_app.
  fold (parse_alias_rules l1). by rewrite fold_parse_alias_rule.
Qed.

Lemma parse_alias_rules_cons_tokens (s : str) (l : list str) :
  strip_tokens (parse_alias_rules (s :: l))
  = strip_tokens (parse_alias_rules [s]) ++ strip_tokens (parse_alias_rules l).
Proof.
  unfold parse_alias_rules at 1. simpl fold_left.
  rewrite fold_parse_alias_rule. reflexivity.
Qed.

(** X5. Every strip token that [parse_alias_rules] keeps is non-empty and
    has no surrounding whitespace, so a parsed rule set never erases a name
    through an empty token. *)
Theorem parse_alias_rules_tokens (rules : list str) :
  Forall (fun tok => tok <> [] /\ strip tok = tok)
    (strip_tokens (parse_alias_rules rules)).
Proof.
  induction rules as [|s rules IH]; [constructor|].
  rewrite parse_alias_rules_cons_tokens. apply Forall_app. split; [|done].
  apply parse_alias_rules_single_tokens.
Qed.

(** X6. The grammar of one rule.  [strip:TOK] keeps the stripped token
    unless it is blank.  [regex:PAT=REP] is split at the first [=]; the
    stripped pattern is compiled and the replacement kept verbatim, and a
    pattern that does not compile is dropped without an error.  A [regex:]
    rule without [=] and a rule with neither prefix are ignored. *)
Theorem parse_alias_rule_grammar (s : str) :
  (forall t, strip s = py"strip:" ++ t ->
     parse_alias_rules [s]
     = if bool_decide (strip t = []) then no_alias_rules
       else {| strip_tokens := [strip t]; regex_rules := [] |})
  /\ (forall pat rep,
        strip s = py"regex:" ++ pat ++ py"=" ++ rep -> 0x3D%N ∉ pat ->
        parse_alias_rules [s]
        = match re_compile (strip pat) with
          | Some p => {| strip_tokens := []; regex_rules := [(p, rep)] |}
          | None => no_alias_rules
          end)
  /\ (forall expr,
        strip s = py"regex:" ++ expr -> 0x3D%N ∉ expr ->
        parse_alias_rules [s] = no_alias_rules)
  /\ (startswith (strip s) (py"strip:") = false ->
      startswith (strip s) (py"regex:") = false ->
      parse_alias_rules [s] = no_alias_rules).
Proof.
  unfold parse_alias_rules. simpl fold_left. unfold parse_alias_rule.
  fold no_alias_rules.
  assert (forall x, split1_snd 0x3A%N (py"strip:" ++ x) = x) as Hstrip.
  { intros x.
    destruct (split1_snd_prefixed (py"strip:" ++ x)) as [_ ->].
    - left. apply startswith_app.
    - change 6 with (length (py"strip:")). apply drop_app_length. }
  assert (forall x, split1_snd 0x3A%N (py"regex:" ++ x) = x) as Hregex.
  { intros x.
    destruct (split1_snd_prefixed (py"regex:" ++ x)) as [_ ->].
    - right. apply startswith_app.
    - change 6 with (length (py"regex:")). apply drop_app_length. }
  assert (forall x, startswith (py"regex:" ++ x) (py"strip:") = false)
    as Hnot by (intros x; reflexivity).
  repeat split.
  - intros t ->. rewrite startswith_app, Hstrip.
    by destruct (bool_decide (strip t = [])).
  - intros pat rep -> Hnin. rewrite Hnot, startswith_app, Hregex.
    change (py"=") with [0x3D%N].
    rewrite (proj2 (contains_singleton _ _)).
    2:{ apply elem_of_app. right. left. }
    simpl app. rewrite before_first_app by done.
    unfold split1_snd. rewrite after_first_app by done. simpl.
    by destruct (re_compile (strip pat)).
  - intros expr -> Hnin. rewrite Hnot, startswith_app, Hregex.
    change (py"=") with [0x3D%N].
    destruct (contains expr [0x3D%N]) eqn:Hc; [|done].
    by apply contains_singleton in Hc.
  - intros -> ->. done.
Qed.
End ParseFacts.

Lemma parse_alias_rule_grammar_witness :
  @parse_alias_rules whole_match_regex [py"  strip: 大圣 "]
  = {| strip_tokens := [py"大圣"]; regex_rules := [] |}
  /\ @parse_alias_rules whole_match_regex [py"regex: 行者 =悟空"]
     = {| strip_tokens := [];
          regex_rules := [(py"行者", py"悟空")]
                         : list (@pattern whole_match_regex * str) |}
  /\ @parse_alias_rules whole_match_regex [py"regex:行者"]
     = @no_alias_rules whole_match_regex
  /\ @parse_alias_rules whole_match_regex [py"别名:行者"]
     = @no_alias_rules whole_match_regex.
Proof.
  split; [|split; [|split]].
  - apply (proj1 (@parse_alias_rule_grammar whole_match_regex
                    (py"  strip: 大圣 ")) (py" 大圣")).
    vm_compute. reflexivity.
  - apply (proj1 (proj2 (@parse_alias_rule_grammar whole_match_regex
                           (py"regex: 行者 =悟空"))) (py" 行者 ") (py"悟空")).
    + vm_compute. reflexivity.
    + vm_compute. intros Hin.
      repeat (apply elem_of_cons in Hin as [?|Hin]; [done|]).
      by inversion Hin.
  - apply (proj1 (proj2 (proj2 (@parse_alias_rule_grammar whole_match_regex
                                  (py"regex:行者")))) (py"行者")).
    + vm_compute. reflexivity.
    + vm_compute. intros Hin.
      repeat (apply elem_of_cons in Hin as [?|Hin]; [done|]).
      by inversion Hin.
  - apply (proj2 (proj2 (proj2 (@parse_alias_rule_grammar whole_match_regex
                                  (py"别名:行者")))));
      vm_compute; reflexivity.
Defined.

(** ** Relation normalization: which records are kept *)

Section RelationFacts.
Context `{Regex}.

Lemma normalize_relation_cases (syn : dict str str) (alias : alias_rules)
    (labels : list str) (r : raw_relation) :
  normalize_relation syn alias labels [] r
  = if skipped syn alias labels r then []
    else if bool_decide (py_str (raw_type r) ∈ labels)
         then [alias_item r (raw_head r) (raw_tail r) syn alias]
         else [plain_item r syn alias].
Proof.
  unfold normalize_relation, skipped, plain_item.
  destruct (str_truthy (raw_head r)), (str_truthy (raw_tail r)),
    (str_truthy (raw_type r)); simpl; try done.
  destruct (bool_decide (py_str (raw_type r) ∈ labels)); simpl; [done|].
  destruct (bool_decide (canonical_norm (raw_head r) syn alias ∈ TYPE_ENUM)),
    (bool_decide (canonical_norm (raw_tail r) syn alias ∈ TYPE_ENUM));
    simpl; done.
Qed.

Lemma normalize_relations_flat_map (obj : payload) (syn : dict str str)
    (alias : alias_rules) (labels : list str) :
  normalize_relations obj syn alias labels
  = flat_map (normalize_relation syn alias labels []) (_relations_from_obj obj).
Proof.
  unfold normalize_relations.
  induction (_relations_from_obj obj) as [|r l IH]; simpl; [done|].
  by rewrite fold_normalize_relation_app, IH.
Qed.

Lemma raw_type_label_nonempty (r : raw_relation) :
  str_truthy (raw_type r) = true -> py_str (raw_type r) <> [].
Proof. by destruct (raw_type r) as [[|c l]|]. Qed.

(** X7. [normalize_relations] emits at most one record per raw relation.
    Every record has a head, a tail and a non-empty label (no nulls) and no
    chapter id; a record that is not an ALIAS record never has a reserved
    entity-type token as an endpoint. *)
Theorem normalize_relations_records (obj : payload) (syn : dict str str)
    (alias : alias_rules) (labels : list str) :
  length (normalize_relations obj syn alias labels)
    <= length (_relations_from_obj obj)
  /\ forall item, item ∈ normalize_relations obj syn alias labels ->
       (exists h t l,
          r_head item = Some h /\ r_tail item = Some t
          /\ r_relation item = Some l /\ l <> []
          /\ (l = ALIAS \/ ((h ∉ TYPE_ENUM) /\ (t ∉ TYPE_ENUM))))
       /\ r_chapter_id item = None.
Proof.
  rewrite normalize_relations_flat_map. split.
  - induction (_relations_from_obj obj) as [|r l IH]; simpl; [done|].
    rewrite length_app, normalize_relation_cases.
    repeat case_match; simpl; lia.
  - intros item Hin. apply list_elem_of_In, in_flat_map in Hin as (r & _ & Hr).
    rewrite normalize_relation_cases in Hr.
    destruct (skipped syn alias labels r) eqn:Hskip; [done|].
    unfold skipped in Hskip.
    apply orb_false_iff in Hskip as [Hskip Htypes].
    apply orb_false_iff in Hskip as [Hskip Hlabel].
    apply negb_false_iff in Hlabel.
    destruct (bool_decide (py_str (raw_type r) ∈ labels)) eqn:Hal;
      destruct Hr as [<-|[]].
    + unfold alias_item.
      destruct (if dict_mem syn (canonical_original (raw_tail r) alias)
                then _ else _) as [a c].
      split; [|done].
      exists a, (canonical_norm c syn alias), ALIAS.
      repeat split; try done. by left.
    + split; [|done].
      exists (canonical_norm (raw_head r) syn alias),
        (canonical_norm (raw_tail r) syn alias), (py_str (raw_type r)).
      repeat split; try done; [by apply raw_type_label_nonempty|].
      right. simpl in Htypes.
      apply orb_false_iff in Htypes as [Hh Ht].
      by apply bool_decide_eq_false in Hh, Ht.
Qed.

(** X8. A skipped raw relation leaves no trace: the output is that of the
    list without it.  A relation that is not skipped and has no alias label
    gives, in place, one record with both endpoints canonicalized, its
    label, confidence and evidence kept, and [{}] for missing qualifiers. *)
Theorem normalize_relations_skip_or_keep (syn : dict str str)
    (alias : alias_rules) (labels : list str)
    (l1 l2 : list raw_relation) (r : raw_relation) :
  (skipped syn alias labels r = true ->
   normalize_relations (PayloadList (l1 ++ r :: l2)) syn alias labels
   = normalize_relations (PayloadList (l1 ++ l2)) syn alias labels)
  /\ (skipped syn alias labels r = false ->
      py_str (raw_type r) ∉ labels ->
      normalize_relations (PayloadList (l1 ++ r :: l2)) syn alias labels
      = normalize_relations (PayloadList l1) syn alias labels
        ++ plain_item r syn alias
           :: normalize_relations (PayloadList l2) syn alias labels).
Proof.
  rewrite !normalize_relations_flat_map. simpl.
  rewrite !flat_map_app. simpl. rewrite normalize_relation_cases. split.
  - by intros ->.
  - intros -> Hnot. by rewrite bool_decide_eq_false_2.
Qed.
End RelationFacts.

Lemma normalize_relations_skip_or_keep_witness :
  let alias :=
    {| strip_tokens := [];
       regex_rules := [] : list (@pattern whole_match_regex * str) |} in
  let mk h rel t :=
    {| rr_head := Some h; rr_subject := None; rr_tail := Some t;
       rr_object := None; rr_type := Some rel; rr_relation := None;
       rr_confidence := None; rr_evidence := None; rr_qualifiers := JNull |} in
  normalize_relations
    (PayloadList [mk (py"悟空") (py"师徒") (py"唐僧");
                  mk (py"悟空") (py"类型") (py"Person")]) [] alias []
  = normalize_relations
      (PayloadList [mk (py"悟空") (py"师徒") (py"唐僧")]) [] alias []
  /\ normalize_relations
       (PayloadList [mk (py" 悟空") (py"师徒") (py"唐僧 ")]) [] alias []
     = [plain_item (mk (py" 悟空") (py"师徒") (py"唐僧 ")) [] alias].
Proof.
  intros alias mk. split.
  - apply (proj1 (@normalize_relations_skip_or_keep whole_match_regex
                    [] alias [] [mk (py"悟空") (py"师徒") (py"唐僧")] []
                    (mk (py"悟空") (py"类型") (py"Person")))).
    vm_compute. reflexivity.
  - apply (proj2 (@normalize_relations_skip_or_keep whole_match_regex
                    [] alias [] [] []
                    (mk (py" 悟空") (py"师徒") (py"唐僧 ")))).
    + vm_compute. reflexivity.
    + intros Hin. by inversion Hin.
Defined.

(** ** Event normalization *)

Section EventFacts.
Context `{Regex}.

Lemma dict_set_fresh {V : Type} (d : dict str V) (k : str) (v : V) :
  k ∉ dict_keys d -> dict_set d k v = d ++ [(k, v)].
Proof.
  induction d as [|[k' v'] d IH]; simpl; [done|].
  intros [Hne Hnin]%not_elem_of_cons.
  destruct (decide (k' = k)) as [->|_]; [done|]. by rewrite IH.
Qed.

Lemma fold_add_role (syn : dict str str) (alias : alias_rules)
    (d : dict str (option (list str))) (acc : dict str (list str)) :
  NoDup (dict_keys acc ++ dict_keys d) ->
  fold_left (add_role syn alias) d acc
  = acc ++ List.map
             (fun kv => (fst kv,
                         List.map (fun x => canonical_norm (Some x) syn alias)
                           (default [] (snd kv)))) d.
Proof.
  revert acc. induction d as [|[k v] d IH]; intros acc Hnd; simpl.
  - by rewrite app_nil_r.
  - simpl in Hnd. unfold add_role at 2. simpl.
    rewrite dict_set_fresh.
    + rewrite IH.
      * by rewrite <- app_assoc.
      * unfold dict_keys. rewrite map_app. simpl.
        rewrite <- app_assoc. exact Hnd.
    + apply NoDup_app in Hnd as (_ & Hdisj & _).
      intros Hin. apply (Hdisj k Hin). left.
Qed.

(** X9. [normalize_events] reads the events from the key [events] of a
    dictionary payload, and from [event_plus_relation] when [events] is
    missing, null or empty; a payload that is not a dictionary has no
    events.  The events are normalized one to one and in order: none is
    dropped, time, location, evidence and confidence are passed through,
    and the event type falls back from [event_type] to [type] to the empty
    string. *)
Theorem normalize_events_map (obj : payload) (evs : list raw_event)
    (syn : dict str str) (alias : alias_rules) :
  payload_events obj evs ->
  Forall2 (normalized_event syn alias) evs (normalize_events obj syn alias)
  /\ length (normalize_events obj syn alias) = length evs.
Proof.
  intros Hevs. rewrite (normalize_events_payload syn alias obj evs Hevs).
  split; [|apply length_map].
  clear Hevs. induction evs as [|e evs IH]; simpl; constructor; [|exact IH].
  unfold normalized_event. simpl. split; [|done].
  by destruct (e_event_type e) as [[|c s]|], (e_type e) as [[|c' s']|].
Qed.

(** X10. Participants given as a mapping keep their roles, in order, and
    every name is canonicalized; a null list of names becomes the empty
    list.  Missing participants and an empty list of pairs give the empty
    mapping. *)
Theorem normalize_participants_dict (syn : dict str str)
    (alias : alias_rules) (d : dict str (option (list str))) :
  NoDup (dict_keys d) ->
  normalize_participants syn alias (PartsDict d)
  = List.map
      (fun kv => (fst kv,
                  List.map (fun x => canonical_norm (Some x) syn alias)
                    (default [] (snd kv)))) d
  /\ dict_keys (normalize_participants syn alias (PartsDict d)) = dict_keys d
  /\ normalize_participants syn alias PartsNone = []
  /\ normalize_participants syn alias (PartsList []) = [].
Proof.
  intros Hnd.
  assert (normalize_participants syn alias (PartsDict d)
          = List.map
              (fun kv => (fst kv,
                          List.map (fun x => canonical_norm (Some x) syn alias)
                            (default [] (snd kv)))) d) as Heq.
  { simpl. by rewrite fold_add_role. }
  split; [done|]. split; [|done].
  rewrite Heq. unfold dict_keys. rewrite map_map. simpl. done.
Qed.
End EventFacts.

Lemma normalize_events_map_witness :
  let alias :=
    {| strip_tokens := [];
       regex_rules := [] : list (@pattern whole_match_regex * str) |} in
  let e1 :=
    {| e_event_type := Some []; e_type := Some (py"战斗"); e_time := JNull;
       e_location := JStr (py"白虎岭"); e_participants := PartsNone;
       e_evidence := JStr (py"三打白骨精"); e_confidence := JNum (9 # 10) |} in
  let e2 :=
    {| e_event_type := None; e_type := None; e_time := JStr (py"次日");
       e_location := JNull; e_participants := PartsNone;
       e_evidence := JNull; e_confidence := JNull |} in
  let obj :=
    PayloadDict
      {| pl_relations := None; pl_relation_with_meta := None;
         pl_events := Some []; pl_event_plus_relation := Some [e1; e2];
         pl_entities := None; pl_meta := JNull |} in
  normalize_events obj [] alias
  = [{| ev_event_type := py"战斗"; ev_time := JNull;
        ev_location := JStr (py"白虎岭"); ev_participants := [];
        ev_evidence := JStr (py"三打白骨精");
        ev_confidence := JNum (9 # 10) |};
     {| ev_event_type := []; ev_time := JStr (py"次日");
        ev_location := JNull; ev_participants := [];
        ev_evidence := JNull; ev_confidence := JNull |}]
  /\ Forall2 (normalized_event [] alias) [e1; e2]
       (normalize_events obj [] alias)
  /\ length (normalize_events obj [] alias) = length [e1; e2].
Proof.
  intros alias e1 e2 obj. split; [vm_compute; reflexivity|].
  apply (@normalize_events_map whole_match_regex obj [e1; e2] [] alias).
  right. split; [by right | by left].
Defined.

Lemma normalize_participants_dict_witness :
  let alias :=
    {| strip_tokens := [py"大圣"];
       regex_rules := [] : list (@pattern whole_match_regex * str) |} in
  let syn := [(py"行者", py"孙悟空")] in
  normalize_participants syn alias
    (PartsDict [(py"主角", Some [py"行者"; py" 齐天大圣"]); (py"对手", None)])
  = [(py"主角", [py"孙悟空"; py"齐天"]); (py"对手", [])].
Proof.
  intros alias syn.
  apply (proj1 (@normalize_participants_dict whole_match_regex syn alias
                  [(py"主角", Some [py"行者"; py" 齐天大圣"]);
                   (py"对手", None)]
                  ltac:(vm_compute; repeat constructor;
                        rewrite ?list_elem_of_In; simpl; intuition discriminate))).
Defined.

(** ** Entity collection *)

Lemma add_entity_inv (st : gset str * list entity) (n : option str) :
  entities_inv st ->
  entities_inv (add_entity st n)
  /\ forall e, e ∈ snd (add_entity st n) <->
               e ∈ snd st \/ (n = Some (name e) /\ name e <> []).
Proof.
  intros (Hseen & Hnd & Hne). unfold add_entity.
  destruct n as [[|c n]|].
  - split; [done|]. intros e. split; [by left|].
    intros [?|[[= Heq] Hn]]; [done|]. by rewrite <- Heq in Hn.
  - case_bool_decide as Hin.
    + split; [done|]. intros e. split; [by left|].
      intros [?|[[= Heq] _]]; [done|]. apply Hseen in Hin.
      destruct e as [m]. simpl in Heq. by rewrite <- Heq.
    + assert ({| name := c :: n |} ∉ snd st) as Hnin
        by (intros ?; by apply Hin, Hseen).
      split.
      * split; [|split]; simpl.
        -- intros m. rewrite elem_of_union, elem_of_singleton, elem_of_app,
             list_elem_of_singleton, Hseen. split.
           ++ intros [-> |?]; [by right | by left].
           ++ intros [?|[= ->]]; [by right | by left].
        -- apply NoDup_app. split; [done|]. split; [|apply NoDup_singleton].
           intros e He ->%list_elem_of_singleton. done.
        -- intros e [He| ->%list_elem_of_singleton]%elem_of_app;
             [by apply Hne | done].
      * intros e. simpl. rewrite elem_of_app, list_elem_of_singleton. split.
        -- intros [?| ->]; [by left|]. by right.
        -- intros [?|[[= Heq] _]]; [by left|]. right.
           destruct e as [m]. simpl in Heq. by rewrite Heq.
  - split; [done|]. intros e. split; [by left|]. by intros [?|[? _]].
Qed.

Section EntityFacts.
Context `{Regex}.

(** The state of [collect_entities] after both loops. *)
Lemma collect_entities_inv (rels : list relation_record)
    (hints : list entity_hint) (syn : dict str str) (alias : alias_rules) :
  NoDup (collect_entities rels hints syn alias)
  /\ forall e, e ∈ collect_entities rels hints syn alias <->
               entity_source rels hints syn alias (name e).
Proof.
  unfold collect_entities, entity_source.
  assert (forall l st, entities_inv st ->
    let st' := fold_left
      (fun st r => add_entity (add_entity st (r_head r)) (r_tail r)) l st in
    entities_inv st'
    /\ forall e, e ∈ snd st' <->
         e ∈ snd st
         \/ (name e <> []
             /\ exists r, r ∈ l
                  /\ (r_head r = Some (name e) \/ r_tail r = Some (name e))))
    as Hrels.
  { induction l as [|r l IH]; intros st Hinv; cbn [fold_left].
    - split; [done|]. intros e. split; [by left|].
      intros [?|(_ & r & Hr & _)]; [done | by inversion Hr].
    - destruct (add_entity_inv st (r_head r) Hinv) as [Hinv1 Hmem1].
      destruct (add_entity_inv _ (r_tail r) Hinv1) as [Hinv2 Hmem2].
      destruct (IH _ Hinv2) as [Hinv3 Hmem3].
      split; [done|]. intros e. rewrite Hmem3, Hmem2, Hmem1. split.
      + intros [[[?|[Hh Hn]]|[Ht Hn]]|(Hn & r' & Hr' & Hends)].
        * by left.
        * right. split; [done|]. exists r. split; [left | by left].
        * right. split; [done|]. exists r. split; [left | by right].
        * right. split; [done|]. exists r'. split; [by right | done].
      + intros [?|(Hn & r' & [->|Hr']%elem_of_cons & Hends)].
        * by left; left; left.
        * destruct Hends as [Hh|Ht].
          -- by left; left; right.
          -- by left; right.
        * right. split; [done|]. by exists r'. }
  assert (forall l st, entities_inv st ->
    let st' := fold_left
      (fun st h =>
         add_entity st (Some (canonical_norm (hint_name h) syn alias))) l st in
    entities_inv st'
    /\ forall e, e ∈ snd st' <->
         e ∈ snd st
         \/ (name e <> []
             /\ exists h, h ∈ l
                  /\ canonical_norm (hint_name h) syn alias = name e))
    as Hhints.
  { induction l as [|h l IH]; intros st Hinv; cbn [fold_left].
    - split; [done|]. intros e. split; [by left|].
      intros [?|(_ & h & Hh & _)]; [done | by inversion Hh].
    - destruct (add_entity_inv st
                  (Some (canonical_norm (hint_name h) syn alias)) Hinv)
        as [Hinv1 Hmem1].
      destruct (IH _ Hinv1) as [Hinv2 Hmem2].
      split; [done|]. intros e. rewrite Hmem2, Hmem1. split.
      + intros [[?|[[= Hh] Hn]]|(Hn & h' & Hh' & Hname)].
        * by left.
        * right. split; [done|]. exists h. split; [left | done].
        * right. split; [done|]. exists h'. split; [by right | done].
      + intros [?|(Hn & h' & [->|Hh']%elem_of_cons & Hname)].
        * by left; left.
        * left. right. split; [by rewrite Hname | done].
        * right. split; [done|]. by exists h'. }
  assert (entities_inv (∅, [])) as Hinit.
  { split; [|split]; simpl.
    - intros n. split; [by intros ?%not_elem_of_empty | by inversion 1].
    - constructor.
    - intros e He. by inversion He. }
  destruct (Hrels rels _ Hinit) as [Hinv1 Hmem1].
  destruct (Hhints hints _ Hinv1) as [(_ & Hnd & _) Hmem2].
  split; [done|]. intros e. rewrite Hmem2, Hmem1. split.
  - intros [[He|[Hn Hr]]|[Hn Hh]].
    + by inversion He.
    + split; [done | by left].
    + split; [done | by right].
  - intros [Hn [Hr|Hh]].
    + left. right. by split.
    + right. by split.
Qed.

(** X11. [collect_entities] returns each name once and never the empty
    name; a name is returned exactly when it is a non-empty head or tail of
    one of the relations or the non-empty canonical name of a hint. *)
Theorem collect_entities_spec (rels : list relation_record)
    (hints : list entity_hint) (syn : dict str str) (alias : alias_rules) :
  NoDup (List.map name (collect_entities rels hints syn alias))
  /\ ([] ∉ List.map name (collect_entities rels hints syn alias))
  /\ forall n, n ∈ List.map name (collect_entities rels hints syn alias) <->
               entity_source rels hints syn alias n.
Proof.
  destruct (collect_entities_inv rels hints syn alias) as [Hnd Hmem].
  assert (forall n, n ∈ List.map name (collect_entities rels hints syn alias)
            <-> entity_source rels hints syn alias n) as Hnames.
  { intros n. rewrite list_elem_of_In, in_map_iff. split.
    - intros (e & <- & He). by apply Hmem, list_elem_of_In.
    - intros Hsrc. exists {| name := n |}. split; [done|].
      by apply list_elem_of_In, Hmem. }
  split; [|split; [|done]].
  - clear Hmem Hnames.
    induction Hnd as [|e l Hnin Hnd IH]; simpl; constructor; [|done].
    rewrite list_elem_of_In, in_map_iff. intros ([m] & Hm & Hin).
    destruct e as [n]. simpl in Hm. subst m.
    by apply Hnin, list_elem_of_In.
  - intros Hin. apply Hnames in Hin as [Hne _]. done.
Qed.

(** X12. In the output of [normalize_output] every non-empty endpoint of a
    normalized relation (the synthetic synonym records apart) is one of the
    entities, each entity occurs once, and the events and the meta block are
    those of the payload. *)
Theorem normalize_output_endpoints_are_entities (raw : payload)
    (tpl_id : str) (synonyms_map : dict str str) (rules labels : list str) :
  let alias := parse_alias_rules rules in
  let out := normalize_output raw tpl_id synonyms_map rules labels in
  NoDup (entities out)
  /\ (forall r n,
        r ∈ normalize_relations raw synonyms_map alias labels ->
        r_head r = Some n \/ r_tail r = Some n -> n <> [] ->
        {| name := n |} ∈ entities out)
  /\ events out = normalize_events raw synonyms_map alias
  /\ meta out = match raw with PayloadDict d => pl_meta d | _ => JObj [] end.
Proof.
  intros alias out.
  destruct (collect_entities_inv
              (normalize_relations raw synonyms_map alias labels)
              (default [] (entities_hint_of raw)) synonyms_map alias)
    as [Hnd Hmem].
  split; [exact Hnd|]. split; [|done].
  intros r n Hr Hends Hn.
  apply (Hmem {| name := n |}). split; [done|]. left. by exists r.
Qed.
End EntityFacts.

(** ** Calibration: the vocabulary filter and what is preserved *)

Lemma with_relation_same (r : relation_record) :
  with_relation r (r_relation r) = r.
Proof. by destruct r. Qed.

Lemma fan_out_relabels (pats : list cal_pattern) (r x : relation_record) :
  x ∈ fan_out pats r -> x = with_relation r (r_relation x).
Proof.
  unfold fan_out. destruct (matching_patterns pats r) as [|p ms] eqn:Hms.
  - intros ->%list_elem_of_singleton. by rewrite with_relation_same.
  - rewrite list_elem_of_In, in_map_iff. by intros (q & <- & _).
Qed.

Lemma fan_out_nonempty (pats : list cal_pattern) (r : relation_record) :
  exists x, x ∈ fan_out pats r.
Proof.
  unfold fan_out. destruct (matching_patterns pats r) as [|p ms].
  - exists r. left.
  - eexists. left.
Qed.

Lemma calibrate_relations_unfiltered (rels : list relation_record)
    (st : settings) :
  allowed st = [] ->
  calibrate_relations rels st = flat_map (fan_out (patterns st)) rels.
Proof.
  intros Hal. unfold calibrate_relations. rewrite Hal. simpl.
  by rewrite fold_calibrate_relation.
Qed.

Lemma calibrate_relations_filtered (rels : list relation_record)
    (st : settings) :
  allowed st <> [] ->
  calibrate_relations rels st
  = List.filter (fun x => bool_decide (py_str (r_relation x) ∈ allowed st))
      (flat_map (fan_out (patterns st)) rels).
Proof.
  intros Hal. unfold calibrate_relations.
  rewrite !(bool_decide_eq_false_2 (allowed st = [])) by done. simpl.
  rewrite fold_calibrate_relation. simpl.
  apply filter_ext. intros x. by rewrite orb_false_r.
Qed.

(** X13. With a non-empty allowed vocabulary, calibration keeps of the
    fan-out exactly the records whose label, read as a string, is in the
    vocabulary; a record without a label counts as labelled ["None"].  So
    every output label is allowed, and a relation whose copies all carry
    other labels is dropped. *)
Theorem calibrate_relations_allowed (rels : list relation_record)
    (st : settings) :
  allowed st <> [] ->
  calibrate_relations rels st
  = List.filter (fun x => bool_decide (py_str (r_relation x) ∈ allowed st))
      (flat_map (fan_out (patterns st)) rels)
  /\ (forall x, x ∈ calibrate_relations rels st ->
        py_str (r_relation x) ∈ allowed st)
  /\ length (calibrate_relations rels st)
     <= length (flat_map (fan_out (patterns st)) rels).
Proof.
  intros Hal. rewrite calibrate_relations_filtered by done.
  split; [done|]. split.
  - intros x Hx. apply list_elem_of_In, filter_In in Hx as [_ Hx].
    by apply bool_decide_eq_true in Hx.
  - apply filter_length_le.
Qed.

(** X14. Calibration changes nothing but labels: every output record is an
    input record with, at most, another label.  With an empty vocabulary no
    input relation is lost, and without patterns the input is returned as it
    is. *)
Theorem calibrate_relations_relabels_only (rels : list relation_record)
    (st : settings) :
  (forall x, x ∈ calibrate_relations rels st ->
     exists r, r ∈ rels /\ x = with_relation r (r_relation x))
  /\ (allowed st = [] ->
      length rels <= length (calibrate_relations rels st)
      /\ forall r, r ∈ rels ->
           exists x, x ∈ calibrate_relations rels st
                     /\ x = with_relation r (r_relation x))
  /\ (allowed st = [] -> patterns st = [] ->
      calibrate_relations rels st = rels).
Proof.
  assert (forall x, x ∈ flat_map (fan_out (patterns st)) rels ->
            exists r, r ∈ rels /\ x = with_relation r (r_relation x)) as Hfan.
  { intros x (r & Hr & Hx)%list_elem_of_In%in_flat_map.
    exists r. split; [by apply list_elem_of_In|].
    by apply (fan_out_relabels (patterns st)), list_elem_of_In. }
  split; [|split].
  - intros x Hx. destruct (decide (allowed st = [])) as [Hal|Hal].
    + rewrite calibrate_relations_unfiltered in Hx by done. by apply Hfan.
    + rewrite calibrate_relations_filtered in Hx by done.
      apply list_elem_of_In, filter_In in Hx as [Hx _].
      by apply Hfan, list_elem_of_In.
  - intros Hal. rewrite calibrate_relations_unfiltered by done. split.
    + clear Hfan. induction rels as [|r rels IH]; simpl; [done|].
      rewrite length_app.
      destruct (fan_out_nonempty (patterns st) r) as [x Hx].
      destruct (fan_out (patterns st) r); [by inversion Hx|]. simpl. lia.
    + intros r Hr. destruct (fan_out_nonempty (patterns st) r) as [x Hx].
      exists x. split.
      * apply list_elem_of_In, in_flat_map. exists r.
        by rewrite <- !list_elem_of_In.
      * by apply (fan_out_relabels (patterns st)).
  - intros Hal Hpat. rewrite calibrate_relations_unfiltered by done.
    rewrite Hpat. clear. induction rels as [|r rels IH]; simpl; [done|].
    by rewrite IH.
Qed.

Lemma calibrate_relations_allowed_witness :
  let st :=
    {| patterns :=
         [{| pat_relation := Some (py"师徒");
             pat_include := [py"师父"]; pat_exclude := [] |}];
       allowed := [py"师徒"; py"敌对"]; precedence := [];
       fusion := fusion Sample.st |} in
  let friend := Sample.mk "八戒" "朋友" "沙僧" None None None in
  calibrate_relations [Sample.r1; friend; Sample.r5] st
  = [Sample.r1; Sample.r5]
  /\ forall x, x ∈ calibrate_relations [Sample.r1; friend; Sample.r5] st ->
       py_str (r_relation x) ∈ allowed st.
Proof.
  intros st friend. split; [vm_compute; reflexivity|].
  apply (calibrate_relations_allowed [Sample.r1; friend; Sample.r5] st).
  vm_compute. discriminate.
Defined.

Lemma calibrate_relations_relabels_only_witness :
  length Sample.rels <= length (calibrate_relations Sample.rels Sample.st)
  /\ calibrate_relations Sample.rels Sample.st = Sample.rels.
Proof.
  split.
  - apply (proj1 (proj2 (calibrate_relations_relabels_only
                           Sample.rels Sample.st))). reflexivity.
  - apply (proj2 (proj2 (calibrate_relations_relabels_only
                           Sample.rels Sample.st))); reflexivity.
Defined.

(** ** Fusion: number of records, winner, failure *)






Section SortedHead.
Context {A : Type} (ltb : A -> A -> bool).
Hypothesis ltb_trans :
  forall x y z, ltb x y = true -> ltb y z = true -> ltb x z = true.
Hypothesis ltb_negtrans :
  forall x y z, ltb x y = false -> ltb y z = false -> ltb x z = false.

End SortedHead.

Section FusionExtras.
Context `{StrFormat}.



Lemma group_keys_of_relations (fu : fusion_settings)
    (rels : list relation_record)
    (groups : dict str (list relation_record)) :
  group_relations fu rels = Some groups ->
  forall k, k ∈ dict_keys groups <->
            exists r, r ∈ rels /\ group_key fu r = Some k.
Proof.
  intros Hg k.
  destruct (group_relations_spec fu rels groups Hg) as (_ & Hitems & Hkeys).
  split.
  - intros [items Hin]%elem_of_dict_keys_inv.
    destruct (Hitems k items Hin) as [Hne Heq].
    destruct items as [|r items]; [done|].
    assert (In r (items_of_key fu rels k)) as Hr by (rewrite <- Heq; by left).
    apply filter_In in Hr as [Hr Hk]. exists r.
    split; [by apply list_elem_of_In | by apply bool_decide_eq_true in Hk].
  - intros (r & Hr & Hk). destruct (Hkeys r Hr) as (k' & Hk' & Hin).
    congruence.
Qed.

Lemma elem_of_first_occurrences (l : list str) (k : str) :
  k ∈ first_occurrences l <-> k ∈ l.
Proof.
  induction l as [|x l IH]; simpl; [done|].
  rewrite !elem_of_cons, list_elem_of_In, filter_In, <- list_elem_of_In, IH.
  rewrite negb_true_iff, bool_decide_eq_false.
  destruct (decide (k = x)) as [->|Hne]; [by split; left | tauto].
Qed.

Lemma first_occurrences_snoc (l : list str) (k : str) :
  first_occurrences (l ++ [k])
  = if bool_decide (k ∈ l) then first_occurrences l
    else first_occurrences l ++ [k].
Proof.
  induction l as [|x l IH]; simpl; [done|].
  rewrite IH. destruct (decide (k = x)) as [->|Hne].
  - rewrite (bool_decide_eq_true_2 (x ∈ x :: l)) by left.
    case_bool_decide as Hin; [done|].
    rewrite List.filter_app. simpl.
    rewrite (bool_decide_eq_true_2 (x = x)) by done. simpl.
    by rewrite app_nil_r.
  - case_bool_decide as Hin.
    + rewrite bool_decide_eq_true_2; [done | by right].
    + rewrite bool_decide_eq_false_2 by (by intros [?|?]%elem_of_cons).
      rewrite List.filter_app. simpl.
      by rewrite (bool_decide_eq_false_2 (k = x)).
Qed.

Lemma dict_append_keys {V : Type} (d : dict str (list V)) (k : str) (x : V) :
  dict_keys (dict_append d k x)
  = if bool_decide (k ∈ dict_keys d) then dict_keys d else dict_keys d ++ [k].
Proof.
  unfold dict_append. destruct (dict_get d k) as [l|] eqn:Hget.
  - assert (k ∈ dict_keys d) as Hin
      by (by eapply elem_of_dict_keys, dict_get_Some_elem_of).
    by rewrite dict_keys_set, bool_decide_eq_true_2.
  - apply dict_get_None in Hget.
    rewrite bool_decide_eq_false_2 by done.
    unfold dict_keys. by rewrite map_app.
Qed.

Lemma group_relations_keys (fu : fusion_settings)
    (rels : list relation_record)
    (groups : dict str (list relation_record)) :
  group_relations fu rels = Some groups ->
  dict_keys groups = first_occurrences (omap (group_key fu) rels).
Proof.
  revert groups. induction rels as [|r rels IH] using rev_ind; intros groups.
  - by intros [= <-].
  - rewrite group_relations_snoc.
    destruct (group_relations fu rels) as [g|]; [|done]. simpl.
    destruct (group_key fu r) as [k|] eqn:Hk; [|done]. simpl.
    intros [= <-]. rewrite omap_app. simpl. rewrite Hk. simpl.
    rewrite first_occurrences_snoc, dict_append_keys, (IH g eq_refl).
    destruct (decide (k ∈ omap (group_key fu) rels)) as [Hin|Hnin].
    + rewrite (bool_decide_eq_true_2 _ Hin).
      rewrite bool_decide_eq_true_2; [done|].
      by apply elem_of_first_occurrences.
    + rewrite (bool_decide_eq_false_2 _ Hnin).
      rewrite bool_decide_eq_false_2; [done|].
      by rewrite elem_of_first_occurrences.
Qed.

(** X16. Fusion gives exactly one record per distinct grouping key, in the
    order in which the keys first occur among the relations: the i-th
    record has the head, tail and label of a relation with the i-th
    distinct key.  There are never more records than input relations, and
    at least one when the input is not empty. *)
Theorem fuse_relations_one_per_key (rels : list relation_record)
    (st : settings) (groups : dict str (list relation_record)) :
  group_relations (fusion st) rels = Some groups ->
  exists out,
    fuse_relations rels st = Some out
    /\ dict_keys groups
       = first_occurrences (omap (group_key (fusion st)) rels)
    /\ Forall2
         (fun k f =>
            exists w, w ∈ rels /\ group_key (fusion st) w = Some k
                      /\ r_head f = r_head w /\ r_tail f = r_tail w
                      /\ r_relation f = r_relation w)
         (first_occurrences (omap (group_key (fusion st)) rels)) out
    /\ length out = length (dict_keys groups)
    /\ NoDup (dict_keys groups)
    /\ (forall k, k ∈ dict_keys groups <->
                  exists r, r ∈ rels /\ group_key (fusion st) r = Some k)
    /\ length out <= length rels
    /\ (rels <> [] -> out <> []).
Proof.
  intros Hgroups.
  destruct (fuse_relations_each
              (fun kv f =>
                 exists w, w ∈ rels /\ group_key (fusion st) w = Some (fst kv)
                           /\ r_head f = r_head w /\ r_tail f = r_tail w
                           /\ r_relation f = r_relation w)
              rels st groups Hgroups)
    as (out & Hout & Hall).
  { intros kv f _ Hne Hitems Hfuse.
    destruct (snd kv) as [|x rest] eqn:Hkv; [done|].
    destruct (fuse_group_cons st x rest) as (w & c & Hw & _ & Hf).
    rewrite Hf in Hfuse. injection Hfuse as <-.
    rewrite Hitems in Hw.
    apply list_elem_of_In, filter_In in Hw as [Hw Hk].
    apply bool_decide_eq_true in Hk.
    exists w. split; [by apply list_elem_of_In|]. by split. }
  exists out. split; [done|].
  pose proof (group_relations_keys _ _ _ Hgroups) as Hkeys'.
  split; [done|]. split.
  { rewrite <- Hkeys'. unfold dict_keys.
    change (List.map fst groups) with (fst <$> groups).
    by apply Forall2_fmap_l. }
  apply Forall2_length in Hall.
  destruct (group_relations_spec _ _ _ Hgroups) as (Hnd & _ & Hkeys).
  pose proof (group_keys_of_relations _ _ _ Hgroups) as Hiff.
  assert (length (dict_keys groups) = length groups) as Hlen
    by (unfold dict_keys; apply length_map).
  split; [lia|]. split; [done|]. split; [done|].
  assert (length (dict_keys groups) <= length rels) as Hle.
  { rewrite <- (length_map
                  (fun r => default [] (group_key (fusion st) r)) rels).
    apply submseteq_length, NoDup_submseteq; [exact Hnd|].
    intros k (r & Hr & Hk)%Hiff.
    apply list_elem_of_In, in_map_iff. exists r. rewrite Hk.
    split; [done | by apply list_elem_of_In]. }
  split; [lia|].
  intros Hne ->. destruct rels as [|r rels]; [done|].
  destruct (Hkeys r) as (k & _ & Hin); [left|].
  simpl in Hall. rewrite Hall in Hlen.
  destruct (dict_keys groups); [by inversion Hin | done].
Qed.

(** X17. Under the default grouping the key is the string
    [head|tail], a missing endpoint reading ["None"].  Two relations with
    the same key string are fused into one record, whether or not their
    endpoints agree; with different key strings they stay apart. *)
Theorem fuse_relations_pair (st : settings) (r1 r2 : relation_record) :
  default (py"head_tail") (group_by (fusion st)) = py"head_tail" ->
  (head_tail_key r1 = head_tail_key r2 ->
   exists f, fuse_relations [r1; r2] st = Some [f])
  /\ (head_tail_key r1 <> head_tail_key r2 ->
      exists f1 f2, fuse_relations [r1; r2] st = Some [f1; f2]).
Proof.
  intros Hby.
  assert (forall r, group_key (fusion st) r = Some (head_tail_key r)) as Hkey.
  { intros r. unfold group_key. by rewrite bool_decide_eq_true_2. }
  split.
  - intros Heq.
    assert (group_relations (fusion st) [r1; r2]
            = Some [(head_tail_key r1, [r1; r2])]) as Hg.
    { unfold group_relations. simpl. rewrite !Hkey. simpl.
      unfold dict_append. simpl.
      destruct (decide (head_tail_key r1 = head_tail_key r2)); [|done].
      simpl. by rewrite Heq. }
    destruct (fuse_relations_each (fun _ _ => True) _ st _ Hg)
      as (out & Hout & Hall); [done|].
    apply Forall2_length in Hall.
    destruct out as [|f [|? ?]]; try done. by exists f.
  - intros Hne.
    assert (group_relations (fusion st) [r1; r2]
            = Some [(head_tail_key r1, [r1]); (head_tail_key r2, [r2])])
      as Hg.
    { unfold group_relations. simpl. rewrite !Hkey. simpl.
      unfold dict_append. simpl.
      by destruct (decide (head_tail_key r1 = head_tail_key r2)). }
    destruct (fuse_relations_each (fun _ _ => True) _ st _ Hg)
      as (out & Hout & Hall); [done|].
    apply Forall2_length in Hall.
    destruct out as [|f1 [|f2 [|? ?]]]; try done. by exists f1, f2.
Qed.

(** X18. Under any evidence policy other than [union] the evidence of every
    fused record is the empty string: the evidence of the group is
    discarded. *)
Theorem fuse_relations_evidence_discarded (rels : list relation_record)
    (st : settings) (groups : dict str (list relation_record)) :
  default (py"union") (evidence_merge (fusion st)) <> py"union" ->
  group_relations (fusion st) rels = Some groups ->
  exists out,
    fuse_relations rels st = Some out
    /\ Forall (fun f => r_evidence f = Some []) out.
Proof.
  intros Hpol Hgroups.
  destruct (fuse_relations_each (fun _ f => r_evidence f = Some [])
              rels st groups Hgroups) as (out & Hout & Hall).
  - intros [k items] f _ _ _ Hfuse. simpl in *.
    destruct items as [|x rest]; [done|].
    destruct (fuse_group_cons st x rest) as (w & c & _ & _ & Heq).
    rewrite Heq in Hfuse. apply (inj Some) in Hfuse as <-. simpl.
    assert (evidence_set (default (py"union") (evidence_merge (fusion st)))
              (x :: rest) = ∅) as ->.
    { apply leibniz_equiv, elem_of_equiv_empty. intros s Hs.
      apply elem_of_evidence_set in Hs as [Hs _]. done. }
    by rewrite elements_empty.
  - exists out. split; [done|].
    clear Hout Hgroups.
    induction Hall as [|kv f groups out Hf _ IH];
      [apply Forall_nil_2 | by apply Forall_cons_2].
Qed.

(** X19. Fusion fails exactly when the key of some relation cannot be
    formatted; under the default grouping, which formats nothing, it never
    fails. *)
Theorem fuse_relations_failure (rels : list relation_record)
    (st : settings) :
  (fuse_relations rels st = None <->
   exists r, r ∈ rels /\ group_key (fusion st) r = None)
  /\ (default (py"head_tail") (group_by (fusion st)) = py"head_tail" ->
      is_Some (fuse_relations rels st)).
Proof.
  assert (group_relations (fusion st) rels = None <->
          exists r, r ∈ rels /\ group_key (fusion st) r = None) as Hgroup.
  { induction rels as [|r rels IH] using rev_ind.
    - split; [done|]. intros (r & Hr & _). by inversion Hr.
    - rewrite group_relations_snoc.
      destruct (group_relations (fusion st) rels) as [g|] eqn:Hg; simpl.
      + destruct (group_key (fusion st) r) as [k|] eqn:Hk; simpl.
        * split; [done|]. intros (r' & [Hr'|Hr']%elem_of_app & Hnone).
          -- assert (Some g = None) as Habs by (apply IH; by exists r').
             done.
          -- apply list_elem_of_singleton in Hr' as ->. congruence.
        * split; [|done]. intros _. exists r.
          split; [|done]. apply elem_of_app. right. left.
      + split; [|done]. intros _.
        destruct (proj1 IH eq_refl) as (r' & Hr' & Hnone).
        exists r'. split; [|done]. apply elem_of_app. by left. }
  assert (fuse_relations rels st = None
          <-> group_relations (fusion st) rels = None) as Hfuse.
  { destruct (group_relations (fusion st) rels) as [g|] eqn:Hg.
    - destruct (fuse_relations_each (fun _ _ => True) rels st g Hg)
        as (out & -> & _); done.
    - unfold fuse_relations. by rewrite Hg. }
  split; [by rewrite Hfuse|].
  intros Hby. destruct (group_relations_head_tail (fusion st) rels Hby)
    as [g Hg].
  destruct (fuse_relations_each (fun _ _ => True) rels st g Hg)
    as (out & -> & _); done.
Qed.
End FusionExtras.


Lemma fuse_relations_one_per_key_witness :
  first_occurrences
    (omap (@group_key default_key_format (fusion Sample.st)) Sample.rels)
  = [py"悟空|唐僧"; py"八戒|唐僧"]
  /\ exists out,
    @fuse_relations default_key_format Sample.rels Sample.st = Some out
    /\ dict_keys Sample.groups
       = first_occurrences
           (omap (@group_key default_key_format (fusion Sample.st))
              Sample.rels)
    /\ Forall2
         (fun k f =>
            exists w, w ∈ Sample.rels
                      /\ @group_key default_key_format
                           (fusion Sample.st) w = Some k
                      /\ r_head f = r_head w /\ r_tail f = r_tail w
                      /\ r_relation f = r_relation w)
         (first_occurrences
            (omap (@group_key default_key_format (fusion Sample.st))
               Sample.rels)) out
    /\ length out = length (dict_keys Sample.groups)
    /\ NoDup (dict_keys Sample.groups)
    /\ (forall k, k ∈ dict_keys Sample.groups <->
                  exists r, r ∈ Sample.rels
                            /\ @group_key default_key_format
                                 (fusion Sample.st) r = Some k)
    /\ length out <= length Sample.rels
    /\ (Sample.rels <> [] -> out <> []).
Proof.
  split; [vm_compute; reflexivity|].
  apply (@fuse_relations_one_per_key default_key_format
           Sample.rels Sample.st Sample.groups).
  vm_compute. reflexivity.
Defined.

Lemma fuse_relations_pair_witness :
  let r1 := Sample.mk "悟空|八戒" "同行" "唐僧" None None None in
  let r2 := Sample.mk "悟空" "同行" "八戒|唐僧" None None None in
  head_tail_key r1 = head_tail_key r2
  /\ exists f, @fuse_relations default_key_format [r1; r2] Sample.st
               = Some [f].
Proof.
  intros r1 r2. split; [vm_compute; reflexivity|].
  apply (proj1 (@fuse_relations_pair default_key_format Sample.st r1 r2
                  eq_refl)).
  vm_compute. reflexivity.
Defined.

Lemma fuse_relations_evidence_discarded_witness :
  let st :=
    {| patterns := []; allowed := []; precedence := [];
       fusion := {| group_by := None; key_format := None;
                    evidence_merge := Some (py"first");
                    confidence_merge := None; chapter_strategy := None |} |} in
  exists out,
    @fuse_relations default_key_format Sample.rels st = Some out
    /\ Forall (fun f => r_evidence f = Some []) out.
Proof.
  intros st.
  apply (@fuse_relations_evidence_discarded default_key_format
           Sample.rels st Sample.groups).
  - vm_compute. discriminate.
  - vm_compute. reflexivity.
Defined.

Lemma fuse_relations_failure_witness :
  is_Some (@fuse_relations default_key_format Sample.rels Sample.st).
Proof.
  apply (proj2 (@fuse_relations_failure default_key_format
                  Sample.rels Sample.st)).
  reflexivity.
Defined.

(** ** Jaccard similarity: the extreme values *)

Lemma Q_ratio_eq_one (i n : nat) :
  n <> 0 ->
  (inject_Z (Z.of_nat i) / inject_Z (Z.of_nat n) == 1)%Q <-> i = n.
Proof.
  intros Hn.
  assert (~ (inject_Z (Z.of_nat n) == 0)%Q) as Hnz.
  { unfold Qeq, inject_Z. simpl. lia. }
  split.
  - intros Heq.
    assert (inject_Z (Z.of_nat i) == inject_Z (Z.of_nat n))%Q as Hin.
    { rewrite <- (Qmult_div_r (inject_Z (Z.of_nat i)) _ Hnz).
      rewrite Heq. apply Qmult_1_r. }
    unfold Qeq, inject_Z in Hin. simpl in Hin. lia.
  - intros ->. by apply Q_of_nat_ratio_one.
Qed.

Lemma Q_ratio_eq_zero (i n : nat) :
  n <> 0 ->
  (inject_Z (Z.of_nat i) / inject_Z (Z.of_nat n) == 0)%Q <-> i = 0.
Proof.
  intros Hn.
  assert (~ (inject_Z (Z.of_nat n) == 0)%Q) as Hnz.
  { unfold Qeq, inject_Z. simpl. lia. }
  split.
  - intros Heq.
    assert (inject_Z (Z.of_nat i) == 0)%Q as Hin.
    { rewrite <- (Qmult_div_r (inject_Z (Z.of_nat i)) _ Hnz).
      rewrite Heq. apply Qmult_0_r. }
    unfold Qeq, inject_Z in Hin. simpl in Hin. lia.
  - intros ->. unfold Qdiv. apply Qmult_0_l.
Qed.

(** X20. [_jaccard] is 1 exactly when the two sets are equal, and 0 exactly
    when they are disjoint and not both empty. *)
Theorem jaccard_extremes (A B : gset str) :
  ((_jaccard A B == 1)%Q <-> A = B)
  /\ ((_jaccard A B == 0)%Q <-> A ∩ B = ∅ /\ ~ (A = ∅ /\ B = ∅)).
Proof.
  unfold _jaccard.
  destruct (bool_decide (A = ∅) && bool_decide (B = ∅)) eqn:Hempty.
  - apply andb_prop in Hempty as [HA HB].
    apply bool_decide_eq_true in HA, HB. subst. split.
    + split; [done | reflexivity].
    + split; [done|]. by intros [_ []].
  - assert (~ (A = ∅ /\ B = ∅)) as Hne.
    { intros [-> ->]. by rewrite !bool_decide_eq_true_2 in Hempty. }
    assert (size (A ∪ B) <> 0) as Hsz.
    { intros Hz%size_empty_inv%leibniz_equiv. apply Hne.
      by apply empty_union_L. }
    rewrite (proj2 (Nat.eqb_neq _ _) Hsz). simpl.
    rewrite Q_ratio_eq_one, Q_ratio_eq_zero by done. split.
    + split.
      * intros Hsize.
        assert (A ∩ B ≡ A ∪ B) as Heq.
        { apply set_subseteq_size_equiv; [|lia].
          intros x [Hx _]%elem_of_intersection. by apply elem_of_union_l. }
        apply set_eq. intros x. split; intros Hx.
        -- assert (x ∈ A ∩ B) as Hin
             by (apply Heq; by apply elem_of_union_l).
           by apply elem_of_intersection in Hin as [_ ?].
        -- assert (x ∈ A ∩ B) as Hin
             by (apply Heq; by apply elem_of_union_r).
           by apply elem_of_intersection in Hin as [? _].
      * intros ->.
        assert (B ∪ B = B) as -> by apply union_idemp_L.
        assert (B ∩ B = B) as -> by apply intersection_idemp_L.
        done.
    + split.
      * intros Hz%size_empty_inv%leibniz_equiv. done.
      * intros [-> _]. apply size_empty.
Qed.

(** ** compare_service: merged synonyms and alias rules *)

Section DictSetFacts.
Context {K V : Type} `{EqDecision K}.
Implicit Types (d : dict K V) (k : K) (v : V).

Lemma dict_get_set d k v k' :
  dict_get (dict_set d k v) k'
  = if decide (k = k') then Some v else dict_get d k'.
Proof.
  induction d as [|[k0 v0] d IH]; simpl.
  - by destruct (decide (k = k')).
  - destruct (decide (k0 = k)) as [->|Hne]; simpl.
    + by destruct (decide (k = k')).
    + destruct (decide (k0 = k')) as [->|Hne'].
      * by rewrite decide_False by done.
      * exact IH.
Qed.

Lemma dict_keys_set_cases d k v :
  dict_keys (dict_set d k v)
  = if bool_decide (k ∈ dict_keys d) then dict_keys d else dict_keys d ++ [k].
Proof.
  induction d as [|[k0 v0] d IH]; simpl; [done|].
  destruct (decide (k0 = k)) as [->|Hne]; simpl.
  - rewrite bool_decide_eq_true_2; [done | left].
  - rewrite IH. case_bool_decide as Hin.
    + rewrite bool_decide_eq_true_2; [done | by right].
    + rewrite bool_decide_eq_false_2; [done|].
      by intros [?|?]%elem_of_cons.
Qed.

Lemma dict_set_NoDup d k v :
  NoDup (dict_keys d) -> NoDup (dict_keys (dict_set d k v)).
Proof.
  intros Hnd. rewrite dict_keys_set_cases. case_bool_decide as Hin; [done|].
  apply NoDup_app. split; [done|]. split; [|apply NoDup_singleton].
  intros k' Hk' ->%list_elem_of_singleton. done.
Qed.
End DictSetFacts.

Lemma fold_dict_set_spec (entries : list (str * str)) (m : dict str str) :
  NoDup (dict_keys m) ->
  let m' := fold_left (fun m kv => dict_set m (fst kv) (snd kv)) entries m in
  NoDup (dict_keys m')
  /\ forall k, dict_get m' k
               = match last_binding entries k with
                 | Some v => Some v
                 | None => dict_get m k
                 end.
Proof.
  revert m. induction entries as [|[k0 v0] entries IH] using rev_ind;
    intros m Hnd; simpl.
  - done.
  - rewrite fold_left_app. simpl.
    destruct (IH m Hnd) as [Hnd' Hget]. split.
    + by apply dict_set_NoDup.
    + intros k. rewrite dict_get_set. unfold last_binding.
      rewrite fold_left_app. simpl.
      destruct (decide (k0 = k)); [done|]. apply Hget.
Qed.

Lemma merge_synonyms_fold (templates : list template) (tpl_ids : list str)
    (m : dict str str) :
  fold_left
    (fun m t =>
       if template_selected tpl_ids t then
         fold_left (fun m kv => dict_set m (fst kv) (snd kv))
           (tpl_synonyms_map t) m
       else m)
    templates m
  = fold_left (fun m kv => dict_set m (fst kv) (snd kv))
      (selected_synonyms templates tpl_ids) m.
Proof.
  revert m. induction templates as [|t templates IH]; intros m; simpl.
  - done.
  - unfold selected_synonyms. simpl. fold (selected_synonyms templates tpl_ids).
    rewrite fold_left_app. destruct (template_selected tpl_ids t); apply IH.
Qed.

Lemma template_selected_ext (ids ids' : list str) (t : template) :
  (forall i, i ∈ ids <-> i ∈ ids') ->
  template_selected ids t = template_selected ids' t.
Proof.
  intros Hiff. unfold template_selected. destruct (tpl_id t) as [i|]; [|done].
  apply bool_decide_ext, Hiff.
Qed.

(** X21. The merged synonym table has no key twice, and a key is mapped to
    the value of its last entry among the selected templates, in the order
    of the settings (last write wins).  Only the set of requested template
    ids matters, not their order or multiplicity. *)
Theorem merge_synonyms_last_wins (templates : list template)
    (tpl_ids : list str) :
  NoDup (dict_keys (_merge_synonyms templates tpl_ids))
  /\ (forall k, dict_get (_merge_synonyms templates tpl_ids) k
                = last_binding (selected_synonyms templates tpl_ids) k)
  /\ (forall ids', (forall i, i ∈ tpl_ids <-> i ∈ ids') ->
        _merge_synonyms templates ids' = _merge_synonyms templates tpl_ids).
Proof.
  unfold _merge_synonyms. rewrite merge_synonyms_fold.
  destruct (fold_dict_set_spec (selected_synonyms templates tpl_ids) [])
    as [Hnd Hget]; [constructor|].
  split; [done|]. split.
  - intros k. rewrite Hget. simpl. by destruct (last_binding _ k).
  - intros ids' Hiff. rewrite merge_synonyms_fold. f_equal.
    unfold selected_synonyms. clear Hnd Hget.
    induction templates as [|t templates IH]; simpl; [done|].
    by rewrite IH, (template_selected_ext tpl_ids ids' t Hiff).
Qed.

Section CompareCanonicalFacts.
Context `{Regex}.

Lemma collect_alias_rule_parse (acc : alias_rules) (s : str) :
  collect_alias_rule acc (JStr s) = parse_alias_rule acc s.
Proof. reflexivity. Qed.

Lemma fold_collect_alias_rule (rules : list json) (acc : alias_rules) :
  fold_left collect_alias_rule rules acc
  = fold_left parse_alias_rule
      (omap (fun r => match r with JStr s => Some s | _ => None end) rules)
      acc.
Proof.
  revert acc. induction rules as [|r rules IH]; intros acc; simpl; [done|].
  destruct r; simpl; apply IH.
Qed.

(** X22. The comparison parses alias rules as the normalization does: the
    rule set of [_collect_alias_rules] is that of [parse_alias_rules] on the
    string rules of the selected templates, in the order of the settings;
    rules that are not strings are skipped.  [_canonical] is
    [canonical_norm] on strings. *)
Theorem collect_alias_rules_parse (templates : list template)
    (tpl_ids : list str) :
  _collect_alias_rules templates tpl_ids
  = parse_alias_rules (selected_rules templates tpl_ids)
  /\ forall name syn alias,
       _canonical name syn alias = canonical_norm (Some name) syn alias.
Proof.
  split; [|done].
  unfold _collect_alias_rules, parse_alias_rules.
  generalize {| strip_tokens := []; regex_rules := [] |}.
  induction templates as [|t templates IH]; intros acc; simpl; [done|].
  unfold selected_rules. simpl. fold (selected_rules templates tpl_ids).
  rewrite fold_left_app.
  destruct (template_selected tpl_ids t); simpl; [|apply IH].
  rewrite fold_collect_alias_rule. apply IH.
Qed.
End CompareCanonicalFacts.

(** ** compare_service: relation keys and counts *)

Lemma count_of_snoc {A : Type} (p : A -> bool) (l : list A) (x : A) :
  count_of p (l ++ [x]) = count_of p l + (if p x then 1 else 0).
Proof.
  unfold count_of. rewrite List.filter_app, length_app. simpl.
  by destruct (p x).
Qed.

Lemma count_of_perm {A : Type} (p : A -> bool) (l l' : list A) :
  l ≡ₚ l' -> count_of p l = count_of p l'.
Proof.
  unfold count_of. induction 1 as [|x l l' _ IH|x y l|l l' l'' _ IH1 _ IH2];
    simpl; try done.
  - destruct (p x); simpl; by rewrite IH.
  - by destruct (p x), (p y).
  - by rewrite IH1.
Qed.

Section ParseRelationsFacts.
Context `{Regex}.

Lemma parse_relations_inv (syn : dict str str) (alias : alias_rules)
    (confidence_min : Q) (seq : list cmp_raw_relation) :
  let st := fold_left (parse_relation syn alias confidence_min) seq
              ([], ∅, []) in
  fst (fst st)
  = List.map (relation_item syn alias) (kept_relations confidence_min seq)
  /\ (forall k, k ∈ snd (fst st) <->
                exists x, x ∈ fst (fst st) /\ relation_key x = k)
  /\ NoDup (dict_keys (snd st))
  /\ (forall t, default 0 (dict_get (snd st) t)
                = count_of (fun x => bool_decide (ci_relation x = t))
                    (fst (fst st))).
Proof.
  induction seq as [|r seq IH] using rev_ind.
  - simpl. split; [done|]. split; [|split; [constructor|done]].
    intros k. split; [by intros ?%not_elem_of_empty|].
    intros (x & Hx & _). by inversion Hx.
  - rewrite fold_left_app. simpl.
    destruct (fold_left _ seq _) as [[items keys] by_type].
    simpl in IH. destruct IH as (Hitems & Hkeys & Hnd & Hcount).
    unfold kept_relations. rewrite List.filter_app. simpl.
    fold (kept_relations confidence_min seq).
    unfold parse_relation.
    destruct (below_min (cr_confidence r) confidence_min); simpl.
    + rewrite app_nil_r. done.
    + rewrite map_app. simpl. split; [by rewrite Hitems|]. split; [|split].
      * intros k. rewrite elem_of_union, elem_of_singleton, Hkeys. split.
        -- intros [->|(x & Hx & Hk)].
           ++ eexists. split; [|done]. apply elem_of_app. right. left.
           ++ exists x. split; [|done]. apply elem_of_app. by left.
        -- intros (x & [Hx| ->%list_elem_of_singleton]%elem_of_app & Hk).
           ++ right. by exists x.
           ++ by left.
      * by apply dict_set_NoDup.
      * intros t. rewrite dict_get_set, count_of_snoc. simpl.
        destruct (decide (str_get (cr_relation r) = t)) as [->|Hne].
        -- rewrite bool_decide_eq_true_2 by done. simpl. by rewrite Hcount.
        -- rewrite bool_decide_eq_false_2 by done. rewrite Hcount. lia.
Qed.

(** X23. [_parse_relations] raises exactly when the data is a dictionary
    whose [relations] key holds null.  Otherwise it keeps, in order, the
    relations whose confidence is missing or not below the minimum.  The
    key set holds exactly the keys of the kept items, so it is never larger
    than their number, and [by_type] counts the kept items of each label. *)
Theorem parse_relations_spec (data : cmp_data) (syn : dict str str)
    (alias : alias_rules) (confidence_min : Q) :
  (_parse_relations data syn alias confidence_min = None
   <-> exists evs, data = CmpDict (Some None) evs)
  /\ (forall evs, relations_seq (CmpDict None evs) = Some [])
  /\ (forall l evs, relations_seq (CmpDict (Some (Some l)) evs) = Some l)
  /\ (forall l, relations_seq (CmpList l) = Some l)
  /\ relations_seq CmpOther = Some []
  /\ forall seq, relations_seq data = Some seq ->
       exists items keys by_type,
         _parse_relations data syn alias confidence_min
         = Some (items, keys, by_type)
         /\ items = List.map (relation_item syn alias)
                      (kept_relations confidence_min seq)
         /\ (forall x, x ∈ items ->
               below_min (ci_confidence x) confidence_min = false)
         /\ (forall k, k ∈ keys <->
                       exists x, x ∈ items /\ relation_key x = k)
         /\ size keys <= length items
         /\ NoDup (dict_keys by_type)
         /\ (forall t, default 0 (dict_get by_type t)
                       = count_of (fun x => bool_decide (ci_relation x = t))
                           items).
Proof.
  split.
  { unfold _parse_relations. destruct data as [l|[[l|]|] evs|]; simpl;
      (split; [try done; intros _; by eexists | try done]);
      intros (evs' & Heq); discriminate. }
  do 4 (split; [done|]).
  intros seq Hseq. unfold _parse_relations. rewrite Hseq. simpl.
  pose proof (parse_relations_inv syn alias confidence_min seq) as Hinv.
  destruct (fold_left _ seq _) as [[items keys] by_type].
  simpl in Hinv. destruct Hinv as (Hitems & Hkeys & Hnd & Hcount).
  exists items, keys, by_type. split; [done|].
  split; [done|]. split; [|split; [done|split; [|done]]].
  - intros x Hx. rewrite Hitems in Hx.
    apply list_elem_of_In, in_map_iff in Hx as (r & <- & Hr).
    apply filter_In in Hr as [_ Hr]. by apply negb_true_iff in Hr.
  - rewrite <- (length_map relation_key items).
    apply submseteq_length, NoDup_submseteq; [apply NoDup_elements|].
    intros k (x & Hx & <-)%elem_of_elements%Hkeys.
    apply list_elem_of_In, in_map. by apply list_elem_of_In.
Qed.

(** X24. The key set and the per-label counts do not depend on the order
    of the relations in the result file. *)
Theorem parse_relations_permutation (l l' : list cmp_raw_relation)
    (syn : dict str str) (alias : alias_rules) (confidence_min : Q) :
  l ≡ₚ l' ->
  exists st st',
    _parse_relations (CmpList l) syn alias confidence_min = Some st
    /\ _parse_relations (CmpList l') syn alias confidence_min = Some st'
    /\ snd (fst st) = snd (fst st')
    /\ length (fst (fst st)) = length (fst (fst st'))
    /\ forall t, default 0 (dict_get (snd st) t)
                 = default 0 (dict_get (snd st') t).
Proof.
  intros Hperm. unfold _parse_relations. simpl.
  eexists _, _. split; [done|]. split; [done|].
  pose proof (parse_relations_inv syn alias confidence_min l) as Hl.
  pose proof (parse_relations_inv syn alias confidence_min l') as Hl'.
  destruct (fold_left _ l _) as [[items keys] by_type].
  destruct (fold_left _ l' _) as [[items' keys'] by_type'].
  simpl in *.
  destruct Hl as (Hitems & Hkeys & _ & Hcount).
  destruct Hl' as (Hitems' & Hkeys' & _ & Hcount').
  assert (items ≡ₚ items') as Hip.
  { rewrite Hitems, Hitems'. apply Permutation_map.
    unfold kept_relations. clear -Hperm.
    induction Hperm as [|x l l' _ IH|x y l|l l' l'' _ IH1 _ IH2];
      simpl; try done.
    - destruct (negb _); [by constructor | done].
    - destruct (negb _), (negb _); try done. apply Permutation_swap.
    - by rewrite IH1. }
  split; [|split].
  - apply set_eq. intros k. rewrite Hkeys, Hkeys'. split.
    + intros (x & Hx & Hk). exists x. by rewrite <- Hip.
    + intros (x & Hx & Hk). exists x. by rewrite Hip.
  - by apply Permutation_length.
  - intros t. rewrite Hcount, Hcount'. by apply count_of_perm.
Qed.
End ParseRelationsFacts.

Lemma parse_relations_spec_witness :
  @_parse_relations whole_match_regex (CmpDict (Some None) None) []
    CmpSample.alias 0 = None
  /\ exists items keys by_type,
       @_parse_relations whole_match_regex
         (CmpDict (Some (Some [CmpSample.c3; CmpSample.c1; CmpSample.c2]))
            None)
         [] CmpSample.alias (6 # 10)
       = Some (items, keys, by_type)
       /\ List.map ci_head items = [py"悟空"; py"八戒"]
       /\ size keys = 2
       /\ by_type = [(py"师徒", 2)].
Proof.
  split.
  - apply (proj1 (@parse_relations_spec whole_match_regex
                    (CmpDict (Some None) None) [] CmpSample.alias 0)).
    by exists None.
  - destruct (proj2 (proj2 (proj2 (proj2 (proj2
                (@parse_relations_spec whole_match_regex
                   (CmpDict
                      (Some (Some [CmpSample.c3; CmpSample.c1;
                                   CmpSample.c2])) None)
                   [] CmpSample.alias (6 # 10))))))
              [CmpSample.c3; CmpSample.c1; CmpSample.c2] eq_refl)
      as (items & keys & by_type & Heq & _).
    exists items, keys, by_type. split; [exact Heq|].
    vm_compute in Heq. injection Heq as <- <- <-.
    split; [reflexivity|]. split; [vm_compute; reflexivity | reflexivity].
Defined.

Lemma parse_relations_permutation_witness :
  exists st st',
    @_parse_relations whole_match_regex
      (CmpList [CmpSample.c1; CmpSample.c2; CmpSample.c3]) []
      CmpSample.alias (1 # 2) = Some st
    /\ @_parse_relations whole_match_regex
         (CmpList [CmpSample.c3; CmpSample.c1; CmpSample.c2]) []
         CmpSample.alias (1 # 2) = Some st'
    /\ snd (fst st) = snd (fst st')
    /\ length (fst (fst st)) = length (fst (fst st'))
    /\ forall t, default 0 (dict_get (snd st) t)
                 = default 0 (dict_get (snd st') t).
Proof.
  apply (@parse_relations_permutation whole_match_regex).
  change [CmpSample.c3; CmpSample.c1; CmpSample.c2]
    with ([CmpSample.c3] ++ [CmpSample.c1; CmpSample.c2]).
  change [CmpSample.c1; CmpSample.c2; CmpSample.c3]
    with ([CmpSample.c1; CmpSample.c2] ++ [CmpSample.c3]).
  apply Permutation_app_comm.
Defined.

(** ** compare_service: events *)

Section ParseEventsFacts.
Context `{Regex}.

Lemma event_parts_None (syn : dict str str) (alias : alias_rules)
    (e : cmp_raw_event) :
  event_parts syn alias (ce_participants e) = None
  <-> list_participants e = true.
Proof.
  unfold event_parts, list_participants.
  by destruct (ce_participants e) as [|[|p l]|d].
Qed.

Lemma parse_events_fold_None (syn : dict str str) (alias : alias_rules)
    (confidence_min : Q) (seq : list cmp_raw_event) :
  fold_left (parse_event syn alias confidence_min) seq (Some ([], ∅)) = None
  <-> exists e, e ∈ seq /\ list_participants e = true.
Proof.
  induction seq as [|e seq IH] using rev_ind.
  - simpl. split; [done|]. intros (e & He & _). by inversion He.
  - rewrite fold_left_app. simpl.
    destruct (fold_left _ seq _) as [st|] eqn:Hst; simpl.
    + destruct (event_parts syn alias (ce_participants e)) as [np|] eqn:Hnp;
        simpl.
      * assert (list_participants e = false) as Hlp.
        { apply not_true_iff_false. rewrite <- event_parts_None.
          by rewrite Hnp. }
        split; [by destruct (below_min _ _)|].
        intros (e' & [He'| ->%list_elem_of_singleton]%elem_of_app & Hl).
        -- assert (Some st = None) as Habs by (apply IH; by exists e').
           done.
        -- congruence.
      * split; [|done]. intros _. exists e.
        split; [apply elem_of_app; right; left|].
        by apply (event_parts_None syn alias).
    + split; [|done]. intros _.
      destruct (proj1 IH eq_refl) as (e' & He' & Hl).
      exists e'. split; [apply elem_of_app; by left | done].
Qed.

(** X25. [_parse_events] raises exactly when the data is a dictionary whose
    [events] key holds null (TypeError), or holds a list in which some event
    gives its participants as a non-empty list of pairs (AttributeError),
    the shape that [normalize_events] accepts, and this whatever the
    confidence of that event.  A dictionary without the key, and data that
    is not a dictionary, have no events. *)
Theorem parse_events_failure (data : cmp_data) (syn : dict str str)
    (alias : alias_rules) (confidence_min : Q) :
  (_parse_events data syn alias confidence_min = None <->
   (exists rels, data = CmpDict rels (Some None))
   \/ exists rels seq e,
        data = CmpDict rels (Some (Some seq))
        /\ e ∈ seq /\ list_participants e = true)
  /\ (forall rels,
        _parse_events (CmpDict rels None) syn alias confidence_min
        = Some ([], ∅))
  /\ (forall l, data = CmpList l ->
        _parse_events data syn alias confidence_min = Some ([], ∅))
  /\ (data = CmpOther ->
      _parse_events data syn alias confidence_min = Some ([], ∅)).
Proof.
  split; [|split; [done|split; [by intros l ->|by intros ->]]].
  unfold _parse_events.
  destruct data as [l|rels [[seq|]|]|]; simpl.
  - split; [done|]. intros [(r & Heq)|(r & q & e & Heq & _)]; discriminate.
  - rewrite parse_events_fold_None. split.
    + intros (e & He & Hl). right. by exists rels, seq, e.
    + intros [(r & Heq)|(r & q & e & Heq & He & Hl)]; [discriminate|].
      injection Heq as -> ->. by exists e.
  - split; [|done]. intros _. left. by exists rels.
  - split; [done|]. intros [(r & Heq)|(r & q & e & Heq & _)]; discriminate.
  - split; [done|]. intros [(r & Heq)|(r & q & e & Heq & _)]; discriminate.
Qed.
End ParseEventsFacts.

Lemma parse_events_failure_witness :
  @_parse_events whole_match_regex (CmpDict None (Some None)) []
    CmpSample.alias 0 = None
  /\ @_parse_events whole_match_regex
       (CmpDict None
          (Some (Some [{| ce_event_type := Some (Some (py"战斗"));
                          ce_participants :=
                            PartsList
                              [{| p_role := Some (py"主角");
                                  p_entity := Some (py"悟空") |}];
                          ce_evidence := JNull;
                          ce_confidence := None |}])))
       [] CmpSample.alias 0 = None.
Proof.
  split.
  - apply (proj1 (@parse_events_failure whole_match_regex
                    (CmpDict None (Some None)) [] CmpSample.alias 0)).
    left. by exists None.
  - apply (proj1 (@parse_events_failure whole_match_regex _ []
                    CmpSample.alias 0)).
    right. eexists _, _, _. split; [reflexivity|].
    split; [apply list_elem_of_here | reflexivity].
Defined.

Lemma dict_get_Some_iff {V : Type} (d : dict str V) (k : str) (v : V) :
  NoDup (dict_keys d) -> dict_get d k = Some v <-> (k, v) ∈ d.
Proof.
  intros Hnd. split; [apply dict_get_Some_elem_of|].
  induction d as [|[k0 v0] d IH]; simpl; [by inversion 1|].
  simpl in Hnd. apply NoDup_cons in Hnd as [Hnin Hnd].
  intros [[= -> ->]|Hin]%elem_of_cons.
  - by rewrite decide_True.
  - rewrite decide_False; [by apply IH|].
    intros ->. by apply Hnin, (elem_of_dict_keys d k v).
Qed.

Lemma dict_get_perm {V : Type} (d d' : dict str V) (k : str) :
  NoDup (dict_keys d) -> d ≡ₚ d' -> dict_get d k = dict_get d' k.
Proof.
  intros Hnd Hperm.
  assert (NoDup (dict_keys d')) as Hnd'.
  { unfold dict_keys. rewrite <- Hperm. exact Hnd. }
  destruct (dict_get d k) as [v|] eqn:Hd.
  - symmetry. apply dict_get_Some_iff; [done|]. rewrite <- Hperm.
    by apply dict_get_Some_iff.
  - destruct (dict_get d' k) as [v'|] eqn:Hd'; [|done].
    apply dict_get_Some_iff in Hd'; [|done]. rewrite <- Hperm in Hd'.
    apply dict_get_Some_iff in Hd'; [|done]. congruence.
Qed.

Lemma sorted_str_perm (l l' : list str) :
  NoDup l -> l ≡ₚ l' -> sorted str_ltb l = sorted str_ltb l'.
Proof.
  intros Hnd Hperm.
  assert (NoDup l') as Hnd' by (by rewrite <- Hperm).
  apply (StronglySorted_unique_strong (fun x y => str_ltb x y = true)).
  - intros x y _ _ Hxy Hyx.
    pose proof (str_ltb_trans x y x Hxy Hyx) as Hxx.
    by rewrite str_ltb_irrefl in Hxx.
  - by apply (sorted_strictly str_ltb str_ltb_irrefl str_ltb_trans
                str_ltb_total).
  - by apply (sorted_strictly str_ltb str_ltb_irrefl str_ltb_trans
                str_ltb_total).
  - by rewrite !(sorted_perm str_ltb).
Qed.

Section EventKeyFacts.
Context `{Regex}.

Lemma event_parts_dict (syn : dict str str) (alias : alias_rules)
    (d : dict str (option (list str))) :
  NoDup (dict_keys d) ->
  event_parts syn alias (PartsDict d)
  = Some (List.map
            (fun kv => (fst kv,
                        List.map (fun x => canonical_norm (Some x) syn alias)
                          (default [] (snd kv)))) d).
Proof.
  intros Hnd. simpl. f_equal.
  change (fold_left (add_role syn alias) d []
          = [] ++ List.map
                    (fun kv =>
                       (fst kv,
                        List.map (fun x => canonical_norm (Some x) syn alias)
                          (default [] (snd kv)))) d).
  by apply fold_add_role.
Qed.

(** X26. The key of an event does not depend on the order in which the
    roles appear in its participants mapping: the roles are sorted before
    they are joined. *)
Theorem event_key_role_order (syn : dict str str) (alias : alias_rules)
    (et : str) (d d' : dict str (option (list str))) :
  NoDup (dict_keys d) -> d ≡ₚ d' ->
  exists np np',
    event_parts syn alias (PartsDict d) = Some np
    /\ event_parts syn alias (PartsDict d') = Some np'
    /\ event_key et np = event_key et np'.
Proof.
  intros Hnd Hperm.
  assert (NoDup (dict_keys d')) as Hnd'.
  { unfold dict_keys. rewrite <- Hperm. exact Hnd. }
  rewrite !event_parts_dict by done.
  eexists _, _. split; [done|]. split; [done|].
  set (g := fun kv : str * option (list str) =>
              (fst kv, List.map (fun x => canonical_norm (Some x) syn alias)
                         (default [] (snd kv)))).
  assert (forall e, dict_keys (List.map g e) = dict_keys e) as Hkeys.
  { intros e. unfold dict_keys. rewrite map_map. done. }
  unfold event_key. rewrite !Hkeys.
  rewrite (sorted_str_perm (dict_keys d) (dict_keys d')); [|done|].
  2:{ unfold dict_keys. by apply Permutation_map. }
  assert (forall role, dict_get (List.map g d) role
                       = dict_get (List.map g d') role) as Hget.
  { intros role. apply dict_get_perm.
    - by rewrite Hkeys.
    - by apply Permutation_map. }
  do 4 f_equal. apply map_ext. intros role. by rewrite Hget.
Qed.
End EventKeyFacts.

Lemma event_key_role_order_witness :
  let alias :=
    {| strip_tokens := [];
       regex_rules := [] : list (@pattern whole_match_regex * str) |} in
  event_key (py"战斗")
    [(py"主角", [py"悟空"; py"八戒"]); (py"对手", [py"白骨精"])]
  = py"战斗|主角:悟空,八戒,对手:白骨精"
  /\ exists np np',
       event_parts [] alias
         (PartsDict [(py"主角", Some [py"悟空"; py"八戒"]);
                     (py"对手", Some [py"白骨精"])]) = Some np
       /\ event_parts [] alias
            (PartsDict [(py"对手", Some [py"白骨精"]);
                        (py"主角", Some [py"悟空"; py"八戒"])]) = Some np'
       /\ event_key (py"战斗") np = event_key (py"战斗") np'.
Proof.
  intros alias. split; [vm_compute; reflexivity|].
  apply (@event_key_role_order whole_match_regex [] alias (py"战斗")).
  - vm_compute. repeat constructor; rewrite ?list_elem_of_In; simpl;
      intuition discriminate.
  - apply Permutation_swap.
Defined.

(** ** compare_service: the report of compare_chapter *)

Section TabulateFacts.
Context {V : Type}.
Implicit Types (g : str -> V) (ids : list str) (d : dict str V).

Lemma fold_tabulate_get g ids d k :
  dict_get (fold_left (fun d k => dict_set d k (g k)) ids d) k
  = if decide (k ∈ ids) then Some (g k) else dict_get d k.
Proof.
  revert d. induction ids as [|i ids IH]; intros d; simpl.
  - destruct (decide (k ∈ [])) as [Hin|_]; [by inversion Hin | done].
  - rewrite IH, dict_get_set.
    destruct (decide (k ∈ ids)) as [Hin|Hnin],
             (decide (k ∈ i :: ids)) as [Hin'|Hnin']; try done.
    + exfalso. apply Hnin'. by right.
    + apply elem_of_cons in Hin' as [->|?]; [|done].
      by destruct (decide (i = i)).
    + destruct (decide (i = k)) as [->|Hne]; [|done].
      exfalso. apply Hnin'. left.
Qed.

Lemma fold_tabulate_NoDup g ids d :
  NoDup (dict_keys d) ->
  NoDup (dict_keys (fold_left (fun d k => dict_set d k (g k)) ids d)).
Proof.
  revert d. induction ids as [|i ids IH]; intros d Hnd; simpl; [done|].
  by apply IH, dict_set_NoDup.
Qed.

Lemma tabulate_get g ids k :
  dict_get (tabulate g ids) k = if decide (k ∈ ids) then Some (g k) else None.
Proof. apply fold_tabulate_get. Qed.

Lemma tabulate_NoDup g ids : NoDup (dict_keys (tabulate g ids)).
Proof. apply fold_tabulate_NoDup. constructor. Qed.

Lemma tabulate_elem_of g ids k v :
  (k, v) ∈ tabulate g ids <-> k ∈ ids /\ v = g k.
Proof.
  rewrite <- dict_get_Some_iff by apply tabulate_NoDup.
  rewrite tabulate_get. destruct (decide (k ∈ ids)) as [Hin|Hnin].
  - split; [by intros [= <-] | by intros [_ ->]].
  - split; [done | by intros [? _]].
Qed.

Lemma tabulate_values g ids v :
  v ∈ dict_values (tabulate g ids) <-> exists k, k ∈ ids /\ v = g k.
Proof.
  unfold dict_values. rewrite list_elem_of_fmap. split.
  - intros ([k v'] & -> & Hin). apply tabulate_elem_of in Hin. by exists k.
  - intros (k & Hin & ->). exists (k, g k). split; [done|].
    by apply tabulate_elem_of.
Qed.

Lemma tabulate_several g ids :
  1 < length (tabulate g ids) <-> several ids.
Proof.
  pose proof (tabulate_NoDup g ids) as Hnd.
  pose proof (tabulate_elem_of g ids) as Hel.
  destruct (tabulate g ids) as [|[k1 v1] [|[k2 v2] rest]]; simpl in *.
  - split; [lia|]. intros (a & b & Ha & _).
    pose proof (proj2 (Hel a (g a)) (conj Ha eq_refl)) as Hin.
    by inversion Hin.
  - split; [lia|]. intros (a & b & Ha & Hb & Hne). exfalso. apply Hne.
    pose proof (proj2 (Hel a (g a)) (conj Ha eq_refl)) as Hina.
    pose proof (proj2 (Hel b (g b)) (conj Hb eq_refl)) as Hinb.
    apply list_elem_of_singleton in Hina, Hinb. congruence.
  - split; [|lia]. intros _. exists k1, k2.
    split; [apply (Hel k1 v1); left|].
    split; [apply (Hel k2 v2); right; left|].
    apply NoDup_cons in Hnd as [Hnin _]. intros ->. apply Hnin. left.
Qed.
End TabulateFacts.

Lemma elem_of_fold_union (l : list (gset str)) (acc : gset str) (x : str) :
  x ∈ fold_left (fun acc s => acc ∪ s) l acc
  <-> x ∈ acc \/ exists s, s ∈ l /\ x ∈ s.
Proof.
  revert acc. induction l as [|s l IH]; intros acc; simpl.
  - split; [by left|]. intros [?|(s & Hs & _)]; [done | by inversion Hs].
  - rewrite IH, elem_of_union. split.
    + intros [[?|?]|(s' & Hs' & Hx)].
      * by left.
      * right. exists s. split; [left | done].
      * right. exists s'. split; [by right | done].
    + intros [?|(s' & Hs' & Hx)]; [by left; left|].
      apply elem_of_cons in Hs' as [->|Hs'].
      * left. by right.
      * right. by exists s'.
Qed.

Lemma elem_of_fold_intersection (l : list (gset str)) (acc : gset str)
    (x : str) :
  x ∈ fold_left (fun acc s => acc ∩ s) l acc
  <-> x ∈ acc /\ forall s, s ∈ l -> x ∈ s.
Proof.
  revert acc. induction l as [|s l IH]; intros acc; simpl.
  - split; [|by intros [? _]]. intros Hx. split; [done|].
    intros s Hs. by inversion Hs.
  - rewrite IH, elem_of_intersection. split.
    + intros [[Ha Hs] Hl]. split; [done|].
      intros s' [->|Hs']%elem_of_cons; [done | by apply Hl].
    + intros [Ha Hl]. split; [split; [done | apply Hl; left]|].
      intros s' Hs'. apply Hl. by right.
Qed.

Lemma union_all_tabulate (g : str -> gset str) (ids : list str) :
  union_all (tabulate g ids) = ⋃ (g <$> ids).
Proof.
  apply set_eq. intros x. unfold union_all.
  rewrite elem_of_fold_union, elem_of_union_list. split.
  - intros [Hx|(s & Hs & Hx)]; [by apply not_elem_of_empty in Hx|].
    apply tabulate_values in Hs as (k & Hk & ->).
    exists (g k). split; [|done]. apply list_elem_of_fmap. by exists k.
  - intros (s & Hs & Hx). right. exists s. split; [|done].
    apply list_elem_of_fmap in Hs as (k & -> & Hk).
    apply tabulate_values. by exists k.
Qed.

Lemma elem_of_inter_all_tabulate (g : str -> gset str) (ids : list str)
    (x : str) :
  x ∈ inter_all (tabulate g ids)
  <-> several ids /\ forall tpl, tpl ∈ ids -> x ∈ g tpl.
Proof.
  pose proof (tabulate_several g ids) as Hsev.
  pose proof (tabulate_values g ids) as Hval.
  unfold inter_all. unfold dict_values in *.
  destruct (tabulate g ids) as [|[k1 v1] [|[k2 v2] rest]]; simpl in *.
  - split; [by intros ?%not_elem_of_empty|]. intros [Hs _].
    apply Hsev in Hs. lia.
  - split; [by intros ?%not_elem_of_empty|]. intros [Hs _].
    apply Hsev in Hs. lia.
  - rewrite elem_of_fold_intersection, elem_of_intersection. split.
    + intros [[H1 H2] Hrest]. split; [apply Hsev; lia|].
      intros tpl Htpl.
      assert (g tpl ∈ v1 :: v2 :: List.map snd rest) as Hin.
      { apply Hval. by exists tpl. }
      apply elem_of_cons in Hin as [->|Hin]; [done|].
      apply elem_of_cons in Hin as [->|Hin]; [done|].
      by apply Hrest.
    + intros [_ Hall].
      assert (forall s, s ∈ v1 :: v2 :: List.map snd rest -> x ∈ s) as Hs.
      { intros s (k & Hk & ->)%Hval. by apply Hall. }
      split; [split|].
      * apply Hs. left.
      * apply Hs. right. left.
      * intros s Hin. apply Hs. by do 2 right.
Qed.

Lemma jaccard_self (A : gset str) : (_jaccard A A == 1)%Q.
Proof.
  unfold _jaccard. destruct (decide (A = ∅)) as [->|Hne].
  - by rewrite !bool_decide_eq_true_2.
  - rewrite bool_decide_eq_false_2 by done. simpl.
    assert (A ∪ A = A) as -> by apply union_idemp_L.
    assert (A ∩ A = A) as -> by apply intersection_idemp_L.
    assert (size A <> 0) as Hsz
      by (by intros ?%size_empty_inv%leibniz_equiv).
    rewrite (proj2 (Nat.eqb_neq _ _) Hsz). simpl.
    by apply Q_of_nat_ratio_one.
Qed.

Lemma jaccard_of_tabulate (g : str -> gset str) (ids : list str) :
  jaccard_of (tabulate g ids) ids
  = Some match ids with
         | [a; b] => _jaccard (g a) (g b)
         | _ => 0%Q
         end.
Proof.
  destruct ids as [|a [|b [|c ids]]]; try done.
  unfold jaccard_of. rewrite !tabulate_get.
  destruct (decide (a ∈ [a; b])) as [_|Hn]; [|exfalso; apply Hn; left].
  destruct (decide (b ∈ [a; b])) as [_|Hn];
    [|exfalso; apply Hn; right; left].
  done.
Qed.

Lemma unique_diffs_fold (sets : dict str (gset str)) (g : str -> gset str)
    (inter : gset str) (ids : list str) (d : dict str (list str)) :
  (forall k, k ∈ ids -> dict_get sets k = Some (g k)) ->
  fold_left
    (fun d tpl =>
       d ← d;
       s ← dict_get sets tpl;
       Some (dict_set d tpl (elements (s ∖ inter))))
    ids (Some d)
  = Some (fold_left (fun d k => dict_set d k (elements (g k ∖ inter))) ids d).
Proof.
  revert d. induction ids as [|i ids IH]; intros d Hget; simpl; [done|].
  rewrite (Hget i) by left. simpl. apply IH.
  intros k Hk. apply Hget. by right.
Qed.

Lemma unique_diffs_tabulate (g : str -> gset str) (inter : gset str)
    (ids : list str) :
  unique_diffs (tabulate g ids) inter ids
  = Some (tabulate (fun k => elements (g k ∖ inter)) ids).
Proof.
  apply unique_diffs_fold. intros k Hk. rewrite tabulate_get.
  by destruct (decide (k ∈ ids)).
Qed.

Lemma type_counts_spec (all : dict str (dict str nat))
    (bt : str -> dict str nat) (ids : list str) (t : str) :
  (forall k, k ∈ ids -> dict_get all k = Some (bt k)) ->
  type_counts all ids t
  = Some (List.map (fun tpl => default 0 (dict_get (bt tpl) t)) ids).
Proof.
  unfold type_counts. induction ids as [|i ids IH]; intros Hget; simpl;
    [done|].
  rewrite (Hget i) by left. simpl. rewrite IH; [done|].
  intros k Hk. apply Hget. by right.
Qed.

Lemma zip_tabulate_fold (c : str -> nat) (ids : list str)
    (acc : dict str nat) :
  fold_left (fun row kv => dict_set row (fst kv) (snd kv))
    (zip ids (List.map c ids)) acc
  = fold_left (fun d k => dict_set d k (c k)) ids acc.
Proof.
  revert acc. induction ids as [|i ids IH]; intros acc; simpl; [done|].
  apply IH.
Qed.

Lemma type_row_spec (all : dict str (dict str nat))
    (bt : str -> dict str nat) (ids : list str) (t : str) :
  (forall k, k ∈ ids -> dict_get all k = Some (bt k)) ->
  type_row all ids t
  = Some (type_row_of (fun tpl => default 0 (dict_get (bt tpl) t)) ids).
Proof.
  intros Hget. unfold type_row. rewrite (type_counts_spec all bt); [|done].
  simpl. by rewrite zip_tabulate_fold.
Qed.

Lemma relation_types_fold (all : dict str (dict str nat))
    (bt : str -> dict str nat) (ids : list str) (acc : gset str) :
  (forall k, k ∈ ids -> dict_get all k = Some (bt k)) ->
  exists types,
    fold_left
      (fun types tpl =>
         types ← types;
         by_type ← dict_get all tpl;
         Some (types ∪ list_to_set (dict_keys by_type)))
      ids (Some acc) = Some types
    /\ forall t, t ∈ types <->
                 t ∈ acc \/ exists k, k ∈ ids /\ t ∈ dict_keys (bt k).
Proof.
  revert acc. induction ids as [|i ids IH]; intros acc Hget; simpl.
  - exists acc. split; [done|]. intros t. split; [by left|].
    intros [?|(k & Hk & _)]; [done | by inversion Hk].
  - rewrite (Hget i) by left. simpl.
    destruct (IH (acc ∪ list_to_set (dict_keys (bt i)))) as (types & -> & Hty).
    { intros k Hk. apply Hget. by right. }
    exists types. split; [done|]. intros t. rewrite Hty, elem_of_union.
    rewrite elem_of_list_to_set. split.
    + intros [[?|?]|(k & Hk & Ht)].
      * by left.
      * right. exists i. split; [left | done].
      * right. exists k. split; [by right | done].
    + intros [?|(k & Hk & Ht)]; [by left; left|].
      apply elem_of_cons in Hk as [->|Hk].
      * left. by right.
      * right. by exists k.
Qed.

Lemma table_fold (all : dict str (dict str nat)) (ids : list str)
    (r : str -> dict str nat) (l : list str)
    (d : dict str (dict str nat)) :
  (forall t, t ∈ l -> type_row all ids t = Some (r t)) ->
  fold_left
    (fun table t =>
       table ← table;
       row ← type_row all ids t;
       Some (dict_set table t row))
    l (Some d)
  = Some (fold_left (fun d t => dict_set d t (r t)) l d).
Proof.
  revert d. induction l as [|t l IH]; intros d Hrow; simpl; [done|].
  rewrite (Hrow t) by left. simpl. apply IH.
  intros t' Ht'. apply Hrow. by right.
Qed.

Lemma by_relation_type_of_spec (bt : str -> dict str nat) (ids : list str) :
  exists table (types : gset str),
    by_relation_type_of (tabulate bt ids) ids = Some table
    /\ (forall t, t ∈ types <-> exists k, k ∈ ids /\ t ∈ dict_keys (bt k))
    /\ forall t,
         dict_get table t
         = if decide (t ∈ types)
           then Some (type_row_of
                        (fun tpl => default 0 (dict_get (bt tpl) t)) ids)
           else None.
Proof.
  assert (forall k, k ∈ ids -> dict_get (tabulate bt ids) k = Some (bt k))
    as Hget.
  { intros k Hk. rewrite tabulate_get. by destruct (decide (k ∈ ids)). }
  unfold by_relation_type_of, relation_types.
  destruct (relation_types_fold (tabulate bt ids) bt ids ∅ Hget)
    as (types & -> & Hty).
  simpl.
  rewrite (table_fold _ _
             (fun t => type_row_of
                         (fun tpl => default 0 (dict_get (bt tpl) t)) ids)).
  2:{ intros t _. by apply type_row_spec. }
  eexists _, types. split; [done|]. split.
  { intros t. rewrite Hty. split; [|by right].
    intros [Hin|?]; [by apply not_elem_of_empty in Hin | done]. }
  intros t.
  change (fold_left _ (elements types) [])
    with (tabulate
            (fun t => type_row_of
                        (fun tpl => default 0 (dict_get (bt tpl) t)) ids)
            (elements types)).
  rewrite tabulate_get.
  destruct (decide (t ∈ elements types)) as [Hin|Hnin];
    destruct (decide (t ∈ types)) as [Hex|Hnex]; try done.
  - exfalso. by apply Hnex, elem_of_elements.
  - exfalso. by apply Hnin, elem_of_elements.
Qed.

Lemma min_counts_spec (x : nat) (xs : list nat) :
  min_counts x xs ∈ x :: xs
  /\ forall y, y ∈ x :: xs -> min_counts x xs <= y.
Proof.
  unfold min_counts. revert x. induction xs as [|z xs IH]; intros x; simpl.
  - split; [left|]. by intros y ->%list_elem_of_singleton.
  - destruct (Nat.ltb_spec z x) as [Hlt|Hge].
    + destruct (IH z) as [Hin Hle]. split.
      * right. exact Hin.
      * intros y [->|Hy]%elem_of_cons; [|by apply Hle].
        specialize (Hle z (list_elem_of_here _ _)). lia.
    + destruct (IH x) as [Hin Hle]. split.
      * apply elem_of_cons in Hin as [Hin|Hin]; [rewrite Hin; left|].
        by do 2 right.
      * intros y [->|[->|Hy]%elem_of_cons]%elem_of_cons.
        -- apply Hle. left.
        -- specialize (Hle x (list_elem_of_here _ _)). lia.
        -- apply Hle. by right.
Qed.

Lemma sum_counts_ge (l : list nat) (acc : nat) :
  acc <= fold_left Nat.add l acc
  /\ forall x, x ∈ l -> x <= fold_left Nat.add l acc.
Proof.
  revert acc. induction l as [|y l IH]; intros acc; simpl.
  - split; [done|]. intros x Hx. by inversion Hx.
  - destruct (IH (acc + y)) as [Hacc Hall]. split; [lia|].
    intros x [->|Hx]%elem_of_cons; [lia | by apply Hall].
Qed.

Section CompareChapterFacts.
Context `{Regex}.
Variables (data_of : str -> option cmp_data) (syn : dict str str).
Variables (alias : alias_rules) (confidence_min : Q) (include_events : bool).

#[local] Abbreviation step :=
  (compare_step data_of syn alias confidence_min include_events).
#[local] Abbreviation tevents :=
  (template_events data_of syn alias confidence_min include_events).
#[local] Abbreviation trelations :=
  (template_relations data_of syn alias confidence_min).
#[local] Abbreviation Cn :=
  (relation_count_of data_of syn alias confidence_min).
#[local] Abbreviation Kr :=
  (relation_keys_of data_of syn alias confidence_min).
#[local] Abbreviation Ke :=
  (event_keys_of data_of syn alias confidence_min include_events).
#[local] Abbreviation Bt :=
  (relation_types_of data_of syn alias confidence_min).

Lemma parse_relations_positive (seq : list cmp_raw_relation) (t : str)
    (n : nat) :
  dict_get
    (snd (fold_left (parse_relation syn alias confidence_min) seq ([], ∅, [])))
    t = Some n ->
  0 < n.
Proof.
  revert t n. induction seq as [|r seq IH] using rev_ind; intros t n.
  - done.
  - rewrite fold_left_app. simpl.
    destruct (fold_left _ seq _) as [[items keys] by_type].
    unfold parse_relation. simpl in *.
    destruct (below_min _ _); simpl; [apply IH|].
    rewrite dict_get_set.
    destruct (decide _) as [_|_]; [intros [= <-]; lia | apply IH].
Qed.

Lemma relation_types_keys (tpl t : str) :
  t ∈ dict_keys (Bt tpl)
  <-> 0 < relation_type_count data_of syn alias confidence_min tpl t.
Proof.
  unfold relation_type_count, relation_types_of, template_relations,
    _parse_relations.
  destruct (relations_seq (default (CmpList []) (data_of tpl))) as [seq|];
    simpl.
  - pose proof (parse_relations_positive seq t) as Hpos.
    pose proof (dict_get_None
                  (snd (fold_left (parse_relation syn alias confidence_min)
                          seq ([], ∅, []))) t) as Hnone.
    destruct (dict_get _ t) as [n|]; simpl.
    + split; [intros _; by apply Hpos|]. intros _.
      destruct (decide (t ∈ dict_keys
                  (snd (fold_left (parse_relation syn alias confidence_min)
                          seq ([], ∅, []))))) as [?|Hn]; [done|].
      by apply Hnone in Hn.
    + split; [|lia]. intros Hin. by apply (proj1 Hnone) in Hin.
  - split; [by inversion 1 | lia].
Qed.

Lemma relation_keys_count (tpl : str) : size (Kr tpl) <= Cn tpl.
Proof.
  unfold relation_keys_of, relation_count_of, template_relations,
    _parse_relations.
  destruct (relations_seq (default (CmpList []) (data_of tpl))) as [seq|];
    [|apply Nat.eq_le_incl, size_empty]; simpl.
  destruct (parse_relations_inv syn alias confidence_min seq)
    as (_ & Hkeys & _).
  destruct (fold_left _ _ _) as [[items keys] by_type]. simpl in *.
  rewrite <- (length_map relation_key items).
  apply submseteq_length, NoDup_submseteq; [apply NoDup_elements|].
  intros k (x & Hx & <-)%elem_of_elements%Hkeys.
  apply list_elem_of_In, in_map. by apply list_elem_of_In.
Qed.

Lemma compare_step_eq (st0 : compare_state) (i : str) :
  step (Some st0) i
  = match trelations i, tevents i with
    | Some rels, Some evts =>
        Some {| rel_counts := dict_set (rel_counts st0) i (Cn i);
                evt_counts := dict_set (evt_counts st0) i (length (fst evts));
                rel_sets := dict_set (rel_sets st0) i (Kr i);
                evt_sets := dict_set (evt_sets st0) i (snd evts);
                by_rel_type_all := dict_set (by_rel_type_all st0) i (Bt i) |}
    | _, _ => None
    end.
Proof.
  unfold compare_step, relation_count_of, relation_keys_of,
    relation_types_of, template_relations, template_events. simpl.
  destruct (_parse_relations _ _ _ _) as [rels|]; simpl; [|done].
  destruct include_events; [|done].
  by destruct (_parse_events _ _ _ _).
Qed.

Lemma compare_fold_None (ids : list str) : fold_left step ids None = None.
Proof. by induction ids. Qed.

Lemma compare_loop_fail (ids : list str) (st0 : compare_state) :
  ~ templates_parse data_of syn alias confidence_min include_events ids ->
  fold_left step ids (Some st0) = None.
Proof.
  revert st0. induction ids as [|i ids IH]; intros st0 Hn.
  - exfalso. apply Hn. constructor.
  - cbn [fold_left]. rewrite compare_step_eq.
    destruct (trelations i) as [rels|] eqn:Hr; [|apply compare_fold_None].
    destruct (tevents i) as [evts|] eqn:He; [|apply compare_fold_None].
    apply IH. intros Hall. apply Hn. constructor; [|done].
    by rewrite Hr, He.
Qed.

Lemma compare_loop_ok (ids : list str) :
  templates_parse data_of syn alias confidence_min include_events ids ->
  compare_loop data_of syn alias confidence_min include_events ids
  = Some (loop_state data_of syn alias confidence_min include_events ids).
Proof.
  unfold compare_loop, loop_state, tabulate.
  generalize (@nil (str * nat)) at 1 3.
  generalize (@nil (str * nat)).
  generalize (@nil (str * gset str)) at 1 3.
  generalize (@nil (str * gset str)).
  generalize (@nil (str * dict str nat)).
  induction ids as [|i ids IH]; intros bt es rs ec rc Hall; [done|].
  apply Forall_cons in Hall as [[[rels Hr] [evts He]] Hall].
  cbn [fold_left]. rewrite compare_step_eq, Hr, He.
  rewrite (IH _ _ _ _ _ Hall).
  unfold event_keys_of. by rewrite He.
Qed.

Lemma compare_chapter_ok (ids : list str) :
  templates_parse data_of syn alias confidence_min include_events ids ->
  exists table (types : gset str),
    (forall t, t ∈ types <-> exists k, k ∈ ids /\ t ∈ dict_keys (Bt k))
    /\ (forall t,
          dict_get table t
          = if decide (t ∈ types)
            then Some (type_row_of
                         (fun tpl =>
                            relation_type_count data_of syn alias
                              confidence_min tpl t) ids)
            else None)
    /\ compare_chapter data_of syn alias ids confidence_min include_events
       = let st := loop_state data_of syn alias confidence_min include_events
                     ids in
         Some
           {| metrics :=
                {| relations_count_by_template := rel_counts st;
                   events_count_by_template := evt_counts st;
                   relations_union_count := size (⋃ (Kr <$> ids));
                   relations_intersection_count :=
                     size (inter_all (rel_sets st));
                   relations_jaccard :=
                     match ids with
                     | [a; b] => _jaccard (Kr a) (Kr b)
                     | _ => 0%Q
                     end;
                   events_union_count := size (⋃ (Ke <$> ids));
                   events_intersection_count :=
                     size (inter_all (evt_sets st));
                   events_jaccard :=
                     match ids with
                     | [a; b] => _jaccard (Ke a) (Ke b)
                     | _ => 0%Q
                     end;
                   by_relation_type := table |};
              diffs :=
                {| relations_unique :=
                     tabulate
                       (fun k => elements (Kr k ∖ inter_all (rel_sets st)))
                       ids;
                   relations_intersection :=
                     elements (inter_all (rel_sets st));
                   events_unique :=
                     tabulate
                       (fun k => elements (Ke k ∖ inter_all (evt_sets st)))
                       ids;
                   events_intersection :=
                     elements (inter_all (evt_sets st)) |};
              samples_relations := take 10 (elements (⋃ (Kr <$> ids)));
              samples_events := take 10 (elements (⋃ (Ke <$> ids))) |}.
Proof.
  intros Hall.
  destruct (by_relation_type_of_spec Bt ids) as (table & types & Htab & Hty & Hget).
  exists table, types. split; [done|]. split; [done|].
  unfold compare_chapter. rewrite (compare_loop_ok ids Hall).
  cbn [mbind option_bind loop_state rel_sets evt_sets by_rel_type_all
       rel_counts evt_counts].
  rewrite !jaccard_of_tabulate. cbn [mbind option_bind].
  rewrite !unique_diffs_tabulate. cbn [mbind option_bind].
  rewrite Htab. cbn [mbind option_bind].
  by rewrite !union_all_tabulate.
Qed.

Lemma set_report_tabulate (g : str -> gset str) (ids : list str) :
  set_report g ids
    (size (⋃ (g <$> ids)))
    (size (inter_all (tabulate g ids)))
    (elements (inter_all (tabulate g ids)))
    (tabulate (fun k => elements (g k ∖ inter_all (tabulate g ids))) ids)
    (take 10 (elements (⋃ (g <$> ids)))).
Proof.
  unfold set_report.
  split; [apply NoDup_elements|]. split; [done|]. split.
  { intros k. rewrite elem_of_elements. apply elem_of_inter_all_tabulate. }
  split; [done|]. split.
  { intros k Hk. by apply (subseteq_take 10). }
  split.
  { rewrite length_take. unfold size, set_size. simpl. lia. }
  intros tpl Htpl. split; [split|].
  - apply subseteq_size. intros k Hk.
    apply elem_of_inter_all_tabulate in Hk as [_ Hk]. by apply Hk.
  - apply subseteq_size. intros k Hk. apply elem_of_union_list.
    exists (g tpl). split; [|done]. apply list_elem_of_fmap. by exists tpl.
  - eexists. split.
    { rewrite tabulate_get. by destruct (decide (tpl ∈ ids)). }
    split; [apply NoDup_elements|]. intros k.
    by rewrite elem_of_elements, elem_of_difference, elem_of_elements.
Qed.

(** X27. [compare_chapter] raises exactly when, for some requested
    template, [_parse_relations] raises on its data or events are included
    and [_parse_events] raises on it; the dictionary lookups of the metrics
    never raise KeyError.  So it returns a report exactly when every
    requested template parses. *)
Theorem compare_chapter_failure (ids : list str) :
  (compare_chapter data_of syn alias ids confidence_min include_events = None
   <-> exists tpl,
         tpl ∈ ids
         /\ (_parse_relations (default (CmpList []) (data_of tpl)) syn alias
               confidence_min = None
             \/ (include_events = true
                 /\ _parse_events
                      (default (CmpDict None None) (data_of tpl)) syn alias
                      confidence_min = None)))
  /\ (templates_parse data_of syn alias confidence_min include_events ids
      <-> is_Some (compare_chapter data_of syn alias ids confidence_min
                     include_events)).
Proof.
  assert (templates_parse data_of syn alias confidence_min include_events ids
          <-> ~ exists tpl,
                  tpl ∈ ids
                  /\ (_parse_relations (default (CmpList []) (data_of tpl))
                        syn alias confidence_min = None
                      \/ (include_events = true
                          /\ _parse_events
                               (default (CmpDict None None) (data_of tpl))
                               syn alias confidence_min = None))) as Hparse.
  { unfold templates_parse, template_relations, template_events.
    rewrite Forall_forall. split.
    - intros Hall (tpl & Hin & Hfail).
      destruct (Hall tpl Hin) as [[x Hx] [y Hy]].
      destruct Hfail as [Hr|[-> He]]; congruence.
    - intros Hn tpl Hin. split.
      + destruct (_parse_relations _ _ _ _) as [x|] eqn:Hx; [by eexists|].
        exfalso. apply Hn. exists tpl. split; [done | by left].
      + destruct include_events; [|by eexists].
        destruct (_parse_events _ _ _ _) as [x|] eqn:Hx; [by eexists|].
        exfalso. apply Hn. exists tpl. split; [done|]. by right. }
  assert (Decision (templates_parse data_of syn alias confidence_min
                      include_events ids)) as Hdec.
  { unfold templates_parse. apply Forall_dec. intros tpl. apply _. }
  destruct Hdec as [Hall|Hn].
  - destruct (compare_chapter_ok ids Hall) as (table & types & _ & _ & ->).
    split.
    + split; [done|]. intros Hex. by apply Hparse in Hall.
    + split; [by eexists | done].
  - assert (compare_chapter data_of syn alias ids confidence_min
              include_events = None) as ->.
    { unfold compare_chapter, compare_loop.
      by rewrite compare_loop_fail. }
    split.
    + split; [|done]. intros _.
      apply not_Forall_Exists in Hn; [|intros tpl; apply _].
      apply Exists_exists in Hn as (tpl & Hin & Hfail).
      exists tpl. split; [done|].
      unfold template_relations, template_events in Hfail.
      destruct (_parse_relations _ _ _ _) as [x|] eqn:Hx; [|by left].
      right. destruct include_events.
      * split; [done|].
        destruct (_parse_events _ _ _ _) as [y|] eqn:Hy; [|done].
        exfalso. apply Hfail. split; by eexists.
      * exfalso. apply Hfail. split; by eexists.
    + split; [done|]. by intros [x Hx].
Qed.

(** X28. When no parse raises, [compare_chapter] returns a report in
    which, for the relation keys and for the event keys: the intersection
    list holds exactly the keys found for every requested template, and is
    empty unless two different templates are requested; the union count is
    the size of the union of the key sets; every sample is a key of some
    template and there are at most ten; each template's unique list holds
    its keys outside the intersection, without duplicates; and the
    intersection count is at most, and the union count at least, the number
    of keys of every template.  The relation count of a template is the
    number of its relations that pass the confidence filter, which is at
    least the number of its keys. *)
Theorem compare_chapter_sets (ids : list str) :
  templates_parse data_of syn alias confidence_min include_events ids ->
  exists rep,
    compare_chapter data_of syn alias ids confidence_min include_events
    = Some rep
    /\ set_report Kr ids
         (relations_union_count (metrics rep))
         (relations_intersection_count (metrics rep))
         (relations_intersection (diffs rep))
         (relations_unique (diffs rep))
         (samples_relations rep)
    /\ set_report Ke ids
         (events_union_count (metrics rep))
         (events_intersection_count (metrics rep))
         (events_intersection (diffs rep))
         (events_unique (diffs rep))
         (samples_events rep)
    /\ forall tpl, tpl ∈ ids ->
         dict_get (relations_count_by_template (metrics rep)) tpl
         = Some (Cn tpl)
         /\ size (Kr tpl) <= Cn tpl.
Proof.
  intros Hall.
  destruct (compare_chapter_ok ids Hall) as (table & types & _ & _ & ->).
  eexists. split; [done|]. cbn -[inter_all].
  split; [apply set_report_tabulate|]. split; [apply set_report_tabulate|].
  intros tpl Htpl. split; [|apply relation_keys_count].
  rewrite tabulate_get. by destruct (decide (tpl ∈ ids)).
Qed.

(** X29. When no parse raises, [compare_chapter] returns a report whose
    Jaccard values are computed only when exactly
    two templates are requested, from the key sets of the first and the
    second; for any other number of templates they are 0.  For two different
    templates the union and intersection counts are those of the two key
    sets.  When the same template is requested twice the Jaccard value is 1
    while the intersection count is 0. *)
Theorem compare_chapter_jaccard (ids : list str) :
  templates_parse data_of syn alias confidence_min include_events ids ->
  exists rep,
    compare_chapter data_of syn alias ids confidence_min include_events
    = Some rep
    /\ (length ids <> 2 ->
        relations_jaccard (metrics rep) = 0%Q
        /\ events_jaccard (metrics rep) = 0%Q)
    /\ forall a b, ids = [a; b] ->
         relations_jaccard (metrics rep) = _jaccard (Kr a) (Kr b)
         /\ events_jaccard (metrics rep) = _jaccard (Ke a) (Ke b)
         /\ (a <> b ->
             relations_union_count (metrics rep) = size (Kr a ∪ Kr b)
             /\ relations_intersection_count (metrics rep)
                = size (Kr a ∩ Kr b))
         /\ (a = b ->
             (relations_jaccard (metrics rep) == 1)%Q
             /\ relations_intersection_count (metrics rep) = 0
             /\ relations_union_count (metrics rep) = size (Kr a)).
Proof.
  intros Hall.
  destruct (compare_chapter_ok ids Hall) as (table & types & _ & _ & ->).
  eexists. split; [done|]. cbn -[inter_all]. split.
  { by destruct ids as [|a [|b [|c l]]]. }
  intros a b ->. split; [done|]. split; [done|]. split.
  - intros Hne. split.
    + simpl. f_equal. apply set_eq. intros k.
      rewrite !elem_of_union. rewrite elem_of_empty. tauto.
    + f_equal. apply set_eq. intros k.
      rewrite elem_of_inter_all_tabulate, elem_of_intersection. split.
      * intros [_ Hk]. split; apply Hk; [left | right; left].
      * intros [Ha Hb]. split.
        -- exists a, b. split; [left|]. split; [right; left | done].
        -- intros tpl [->|[->|Hin]%elem_of_cons]%elem_of_cons; try done.
           by inversion Hin.
  - intros <-. split; [apply jaccard_self|]. split.
    + assert (inter_all (tabulate Kr [a; a]) = ∅) as ->; [|apply size_empty].
      apply set_eq. intros k. rewrite elem_of_inter_all_tabulate. split.
      * intros [(x & y & Hx & Hy & Hne) _]. exfalso. apply Hne.
        apply elem_of_cons in Hx as [->|Hx], Hy as [->|Hy]; try done;
          repeat match goal with
                 | Hin : _ ∈ [_] |- _ =>
                     apply list_elem_of_singleton in Hin; subst
                 end; done.
      * by intros ?%not_elem_of_empty.
    + simpl. f_equal. apply set_eq. intros k.
      rewrite !elem_of_union. rewrite elem_of_empty. tauto.
Qed.

(** X30. When no parse raises, [compare_chapter] returns a report whose
    table [by_relation_type] has a row for a
    relation type exactly when some requested template has a relation of
    that type that passes the confidence filter; so the table is empty when
    no template is requested.  In a row, [union] is the sum of the
    per-template counts, [intersection] is the least of them, and every
    requested template whose id is neither [union] nor [intersection] has
    its own count under its id. *)
Theorem compare_chapter_by_relation_type (ids : list str) :
  templates_parse data_of syn alias confidence_min include_events ids ->
  exists rep,
    compare_chapter data_of syn alias ids confidence_min include_events
    = Some rep
    /\ forall t,
         let c := fun tpl =>
                    relation_type_count data_of syn alias confidence_min tpl
                      t in
         (dict_get (by_relation_type (metrics rep)) t = None
          <-> forall tpl, tpl ∈ ids -> c tpl = 0)
         /\ forall row,
              dict_get (by_relation_type (metrics rep)) t = Some row ->
              dict_get row (py"union") = Some (sum_counts (List.map c ids))
              /\ (exists i tpl,
                    dict_get row (py"intersection") = Some i
                    /\ tpl ∈ ids /\ i = c tpl
                    /\ forall tpl', tpl' ∈ ids -> i <= c tpl')
              /\ forall tpl, tpl ∈ ids ->
                   c tpl <= sum_counts (List.map c ids)
                   /\ (tpl <> py"union" -> tpl <> py"intersection" ->
                       dict_get row tpl = Some (c tpl)).
Proof.
  intros Hall.
  destruct (compare_chapter_ok ids Hall) as (table & types & Hty & Hget & ->).
  eexists. split; [done|]. intros t c.
  change (by_relation_type (metrics _)) with table.
  assert (t ∈ types <-> exists tpl, tpl ∈ ids /\ 0 < c tpl) as Hty'.
  { rewrite Hty. by setoid_rewrite relation_types_keys. }
  rewrite Hget. destruct (decide (t ∈ types)) as [Hin|Hnin]; split.
  - split; [done|]. intros Hz. apply Hty' in Hin as (tpl & Htpl & Hpos).
    specialize (Hz tpl Htpl). lia.
  - intros row [= <-]. unfold type_row_of. fold c.
    rewrite !dict_get_set.
    assert (py"intersection" <> py"union") as Hiu by (by vm_compute).
    split.
    { destruct (decide (py"intersection" = py"union")); [done|].
      by destruct (decide (py"union" = py"union")). }
    split.
    { destruct (decide (py"intersection" = py"intersection")); [|done].
      apply Hty' in Hin as (tpl0 & Htpl0 & _).
      destruct ids as [|i0 ids0]; [by inversion Htpl0|].
      cbn [List.map].
      destruct (min_counts_spec (c i0) (List.map c ids0)) as [Hmem Hle].
      change (c i0 :: List.map c ids0) with (List.map c (i0 :: ids0))
        in Hmem, Hle.
      apply list_elem_of_fmap in Hmem as (tpl & Heq & Htpl).
      exists (min_counts (c i0) (List.map c ids0)), tpl.
      split; [done|]. split; [done|]. split; [done|].
      intros tpl' Htpl'. apply Hle, list_elem_of_fmap. by exists tpl'. }
    intros tpl Htpl. split.
    { apply sum_counts_ge, list_elem_of_fmap. by exists tpl. }
    intros Hu Hi. rewrite !dict_get_set.
    destruct (decide (py"intersection" = tpl)); [done|].
    destruct (decide (py"union" = tpl)); [done|].
    rewrite tabulate_get. by destruct (decide (tpl ∈ ids)).
  - split; [|done]. intros _ tpl Htpl.
    destruct (c tpl) as [|n] eqn:Hc; [done|].
    exfalso. apply Hnin, Hty'. exists tpl. split; [done | lia].
  - by intros row.
Qed.
End CompareChapterFacts.

Lemma compare_chapter_sets_witness :
  exists rep,
    @compare_chapter whole_match_regex CmpSample.data_of [] CmpSample.alias
      [py"a"; py"b"] (1 # 2) true = Some rep
    /\ set_report
         (@relation_keys_of whole_match_regex CmpSample.data_of []
            CmpSample.alias (1 # 2))
         [py"a"; py"b"]
         (relations_union_count (metrics rep))
         (relations_intersection_count (metrics rep))
         (relations_intersection (diffs rep))
         (relations_unique (diffs rep))
         (samples_relations rep)
    /\ set_report
         (@event_keys_of whole_match_regex CmpSample.data_of []
            CmpSample.alias (1 # 2) true)
         [py"a"; py"b"]
         (events_union_count (metrics rep))
         (events_intersection_count (metrics rep))
         (events_intersection (diffs rep))
         (events_unique (diffs rep))
         (samples_events rep)
    /\ forall tpl, tpl ∈ [py"a"; py"b"] ->
         dict_get (relations_count_by_template (metrics rep)) tpl
         = Some (@relation_count_of whole_match_regex CmpSample.data_of []
                   CmpSample.alias (1 # 2) tpl)
         /\ size (@relation_keys_of whole_match_regex CmpSample.data_of []
                    CmpSample.alias (1 # 2) tpl)
            <= @relation_count_of whole_match_regex CmpSample.data_of []
                 CmpSample.alias (1 # 2) tpl.
Proof.
  apply (@compare_chapter_sets whole_match_regex CmpSample.data_of []
           CmpSample.alias (1 # 2) true [py"a"; py"b"]).
  apply Forall_cons_2; [by eexists|].
  apply Forall_cons_2; [by eexists|].
  apply Forall_nil_2.
Defined.

Lemma compare_chapter_jaccard_witness :
  exists rep,
    @compare_chapter whole_match_regex CmpSample.data_of [] CmpSample.alias
      [py"a"; py"a"] (1 # 2) false = Some rep
    /\ (length [py"a"; py"a"] <> 2 ->
        relations_jaccard (metrics rep) = 0%Q
        /\ events_jaccard (metrics rep) = 0%Q)
    /\ forall a b, [py"a"; py"a"] = [a; b] ->
         relations_jaccard (metrics rep)
         = _jaccard
             (@relation_keys_of whole_match_regex CmpSample.data_of []
                CmpSample.alias (1 # 2) a)
             (@relation_keys_of whole_match_regex CmpSample.data_of []
                CmpSample.alias (1 # 2) b)
         /\ events_jaccard (metrics rep)
            = _jaccard
                (@event_keys_of whole_match_regex CmpSample.data_of []
                   CmpSample.alias (1 # 2) false a)
                (@event_keys_of whole_match_regex CmpSample.data_of []
                   CmpSample.alias (1 # 2) false b)
         /\ (a <> b ->
             relations_union_count (metrics rep)
             = size (@relation_keys_of whole_match_regex CmpSample.data_of []
                       CmpSample.alias (1 # 2) a
                     ∪ @relation_keys_of whole_match_regex
                         CmpSample.data_of [] CmpSample.alias (1 # 2) b)
             /\ relations_intersection_count (metrics rep)
                = size (@relation_keys_of whole_match_regex
                          CmpSample.data_of [] CmpSample.alias (1 # 2) a
                        ∩ @relation_keys_of whole_match_regex
                            CmpSample.data_of [] CmpSample.alias (1 # 2) b))
         /\ (a = b ->
             (relations_jaccard (metrics rep) == 1)%Q
             /\ relations_intersection_count (metrics rep) = 0
             /\ relations_union_count (metrics rep)
                = size (@relation_keys_of whole_match_regex
                          CmpSample.data_of [] CmpSample.alias (1 # 2) a)).
Proof.
  apply (@compare_chapter_jaccard whole_match_regex CmpSample.data_of []
           CmpSample.alias (1 # 2) false [py"a"; py"a"]).
  apply Forall_cons_2; [by eexists|].
  apply Forall_cons_2; [by eexists|].
  apply Forall_nil_2.
Defined.

Lemma compare_chapter_by_relation_type_witness :
  exists rep,
    @compare_chapter whole_match_regex CmpSample.data_of [] CmpSample.alias
      [py"a"; py"b"] (1 # 2) true = Some rep
    /\ forall t,
         let c := fun tpl =>
                    @relation_type_count whole_match_regex CmpSample.data_of
                      [] CmpSample.alias (1 # 2) tpl t in
         (dict_get (by_relation_type (metrics rep)) t = None
          <-> forall tpl, tpl ∈ [py"a"; py"b"] -> c tpl = 0)
         /\ forall row,
              dict_get (by_relation_type (metrics rep)) t = Some row ->
              dict_get row (py"union")
              = Some (sum_counts (List.map c [py"a"; py"b"]))
              /\ (exists i tpl,
                    dict_get row (py"intersection") = Some i
                    /\ tpl ∈ [py"a"; py"b"] /\ i = c tpl
                    /\ forall tpl', tpl' ∈ [py"a"; py"b"] -> i <= c tpl')
              /\ forall tpl, tpl ∈ [py"a"; py"b"] ->
                   c tpl <= sum_counts (List.map c [py"a"; py"b"])
                   /\ (tpl <> py"union" -> tpl <> py"intersection" ->
                       dict_get row tpl = Some (c tpl)).
Proof.
  apply (@compare_chapter_by_relation_type whole_match_regex
           CmpSample.data_of [] CmpSample.alias (1 # 2) true
           [py"a"; py"b"]).
  apply Forall_cons_2; [by eexists|].
  apply Forall_cons_2; [by eexists|].
  apply Forall_nil_2.
Defined.

Lemma compare_chapter_failure_witness :
  let data_of := fun tpl =>
    if decide (tpl = py"c") then Some (CmpDict (Some None) None)
    else CmpSample.data_of tpl in
  @compare_chapter whole_match_regex data_of [] CmpSample.alias
    [py"a"; py"c"] (1 # 2) false = None
  /\ is_Some (@compare_chapter whole_match_regex data_of []
                CmpSample.alias [py"a"; py"b"] (1 # 2) false).
Proof.
  intros data_of. split.
  - apply (proj1 (@compare_chapter_failure whole_match_regex data_of []
                    CmpSample.alias (1 # 2) false [py"a"; py"c"])).
    exists (py"c"). split; [right; left|]. by left.
  - apply (proj2 (@compare_chapter_failure whole_match_regex data_of []
                    CmpSample.alias (1 # 2) false [py"a"; py"b"])).
    apply Forall_cons_2; [split; by eexists|].
    apply Forall_cons_2; [split; by eexists|].
    apply Forall_nil_2.
Defined.
